(** * best-image: a shallow embedding of the image selection pipeline

    The development follows the four source modules of the package:
    [docImageParse.js] (candidate extraction), [checkImageUrl.js]
    (validation, request keys, URL resolution), [imageScore.js] (scoring)
    and [best-image.js] (the orchestrator).

    Conventions.
    - JavaScript strings are modelled as [string]; characters are bytes, so
      the case mapping and the white-space class are the ASCII ones.
    - JavaScript numbers are modelled as exact rationals [Q]; equations on
      scores are stated with [==].  Rounding of IEEE doubles is not modelled.
    - A property that may be [undefined] is an [option]; truthiness of such
      a property is [truthy].
    - Collaborators that live outside the package (the HTML tree, the network,
      [string-similarity], [image-size], [image-type], the URL parsers, the
      callback data bus) are Section variables: a theorem stated inside such
      a Section holds for all of them.  The one exception is [url.resolve],
      which is modelled from the resolution rules of the specification. *)

From Stdlib Require Import Ascii QArith Qminmax Qabs Lqa.
From stdpp Require Import gmap strings list fin_maps pretty.

#[local] Set Warnings "-clear-no-such-hyp".

Local Open Scope Z_scope.

(** ** JavaScript strings *)

Module JsString.

Definition lowerChar (c : ascii) : ascii :=
  let n := Ascii.N_of_ascii c in
  if ((65 <=? n)%N && (n <=? 90)%N)%bool then Ascii.ascii_of_N (n + 32) else c.

(** [s.toLowerCase()] *)
Fixpoint toLowerCase (s : string) : string :=
  match s with
  | "" => ""
  | String c s' => String (lowerChar c) (toLowerCase s')
  end.

(** [s.indexOf(w) === 0] *)
Fixpoint startsWith (w s : string) : bool :=
  match w, s with
  | "", _ => true
  | String a w', String b s' => if decide (a = b) then startsWith w' s' else false
  | String _ _, "" => false
  end.

(** [s.indexOf(w)], positions counted from [i]; [-1] when [w] does not occur. *)
Fixpoint indexOfFrom (i : Z) (w s : string) : Z :=
  if startsWith w s then i
  else match s with
       | "" => -1
       | String _ s' => indexOfFrom (i + 1) w s'
       end.
Definition indexOf (w s : string) : Z := indexOfFrom 0 w s.

(** [s.indexOf(w) >= 0] *)
Definition includes (w s : string) : bool := bool_decide (0 <= indexOf w s).

(** [s.lastIndexOf(w)], positions counted from [i]. *)
Fixpoint lastIndexOfFrom (i : Z) (w s : string) : Z :=
  match s with
  | "" => if startsWith w "" then i else -1
  | String _ s' =>
      let r := lastIndexOfFrom (i + 1) w s' in
      if bool_decide (0 <= r) then r else if startsWith w s then i else -1
  end.
Definition lastIndexOf (w s : string) : Z := lastIndexOfFrom 0 w s.

Fixpoint drop (n : nat) (s : string) : string :=
  match n, s with
  | O, _ => s
  | S n', String _ s' => drop n' s'
  | S _, "" => ""
  end.

Fixpoint take (n : nat) (s : string) : string :=
  match n, s with
  | O, _ => ""
  | S n', String c s' => String c (take n' s')
  | S _, "" => ""
  end.

Definition len (s : string) : Z := Z.of_nat (String.length s).

(** An index argument of [slice]: a negative index counts from the end,
    and the result is clamped to [0 .. length]. *)
Definition sliceIndex (s : string) (k : Z) : nat :=
  Z.to_nat (if bool_decide (k < 0) then Z.max 0 (len s + k) else Z.min k (len s)).

(** [s.slice(from)] *)
Definition sliceFrom (from : Z) (s : string) : string :=
  drop (sliceIndex s from) s.

(** [s.slice(from, to)] *)
Definition slice (from to : Z) (s : string) : string :=
  let a := sliceIndex s from in
  let b := sliceIndex s to in
  take (b - a) (drop a s).

Definition isSpace (c : ascii) : bool :=
  let n := Ascii.N_of_ascii c in
  bool_decide (n = 9 ∨ n = 10 ∨ n = 11 ∨ n = 12 ∨ n = 13 ∨ n = 32 ∨ n = 160)%N.

Fixpoint trimStart (s : string) : string :=
  match s with
  | String c s' => if isSpace c then trimStart s' else s
  | "" => ""
  end.

(** [s.trim()] *)
Definition trim (s : string) : string :=
  String.rev (trimStart (String.rev (trimStart s))).

End JsString.

(** ** Values shared by the modules *)

(** Truthiness of a string-valued property that may be absent. *)
Definition truthy (o : option string) : bool :=
  match o with
  | Some s => negb (bool_decide (s = ""))
  | None => false
  end.

(** The property key a value is converted to when it indexes an object:
    [undefined] becomes the key ["undefined"]. *)
Definition propertyKey (o : option string) : string := default "undefined" o.

(** The names every plain object inherits from [Object.prototype]; reading one
    of them from an object that does not own it yields a truthy value. *)
Definition objectPrototypeKeys : list string :=
  [ "constructor"; "__defineGetter__"; "__defineSetter__"; "hasOwnProperty";
    "__lookupGetter__"; "__lookupSetter__"; "isPrototypeOf";
    "propertyIsEnumerable"; "toString"; "valueOf"; "__proto__";
    "toLocaleString" ].

(** What a validation reports about an image. *)
Record dimensions := Dimensions {
  loaded : bool;
  width : option Z;
  height : option Z;
  imgType : option string;
  note : option string
}.

(** One image candidate.  The object is created by the extractor and then
    mutated in place by the scorer and the orchestrator; a field that has
    not been assigned yet is [None] (or [0] for the score breakdown).  The
    fields [sdiffRaw], [surfaceArea], [rdiff], [sdiff], [idealRatio] and
    [preSizeScore] are written for debugging only and never read; they are
    left out.  [sizeScoreOf] is the field [sizeScore] and [dims] the field
    [dimensions] (the names are taken by the function and the record). *)
Record image := Image {
  attribs : gmap string string;
  isMeta : bool;
  src : option string;
  title : option string;
  class : option string;
  alt : option string;
  docTitle : option string;
  query : option string;
  score : Q;
  titleScore : Q;
  queryScore : Q;
  goodWords : Q;
  badWords : Q;
  badFnameWords : Q;
  sizeScoreOf : option Q;
  dims : option dimensions
}.

(** [{ attribs: a }], optionally with [isMeta: true]. *)
Definition newImage (a : gmap string string) (meta : bool) : image :=
  Image a meta None None None None None None 0 0 0 0 0 0 None None.

(** ** docImageParse.js *)

Module DocImageParse.

(** An element of the parsed document: tag name and attribute table. *)
Record element := Element {
  tagName : string;
  elAttribs : gmap string string
}.

Definition attrIs (e : element) (name value : string) : bool :=
  bool_decide (elAttribs e !! name = Some value).

(** [meta[property='og:image'], meta[name='twitter:image:src'],
     meta[name='twitter:image'], meta[name='twitter:image0']] *)
Definition metaSelector (e : element) : bool :=
  bool_decide (tagName e = "meta") &&
  (attrIs e "property" "og:image" || attrIs e "name" "twitter:image:src" ||
   attrIs e "name" "twitter:image" || attrIs e "name" "twitter:image0").

(** The query result: the matching elements, in document order. *)
Definition select (sel : element → bool) (doc : list element) : list element :=
  List.filter sel doc.

(** [obj = {}; obj.attribs = e.attribs; obj.attribs.src = obj.attribs.content;
     obj.isMeta = true] *)
Definition metaCandidate (e : element) (content : string) : image :=
  newImage (<["src" := content]> (elAttribs e)) true.

Definition getMetaImages (doc : list element) : list image :=
  let images := select metaSelector doc in
  match images with
  | e0 :: rest =>
      if truthy (elAttribs e0 !! "content") then
        metaCandidate e0 (propertyKey (elAttribs e0 !! "content")) ::
        match rest with
        | e1 :: _ =>
            match elAttribs e1 !! "content" with
            | Some c => [metaCandidate e1 c]
            | None => []
            end
        | [] => []
        end
      else []
  | [] => []
  end.

(** [srcset.split(",")[0]] *)
Fixpoint firstSource (srcset : string) : string :=
  match srcset with
  | "" => ""
  | String c rest => if decide (c = ","%char) then "" else String c (firstSource rest)
  end.

(** The candidate built for one [img] element: when [src] is missing or
    empty and [srcset] is not, the first [srcset] entry becomes [src]. *)
Definition imgCandidate (e : element) : image :=
  let a := elAttribs e in
  if negb (truthy (a !! "src")) && truthy (a !! "srcset")
  then newImage (<["src" := firstSource (propertyKey (a !! "srcset"))]> a) false
  else newImage a false.

(** A node of the trees [cheerio(html)] parses the markup into: an
    element and its child elements (text is left out). *)
#[local] Set Warnings "-register-all".
Inductive node := Node (e : element) (children : list node).

(** The elements below a node, in document order. *)
Fixpoint descendants (n : node) : list element :=
  match n with
  | Node _ children =>
      flat_map (λ c, match c with Node e _ => e :: descendants c end) children
  end.

(** [roots.find(sel)]: the matching elements below the roots, in document
    order.  The roots themselves are not looked at. *)
Definition find (sel : element → bool) (roots : list node) : list element :=
  List.filter sel (flat_map descendants roots).

(** [extractImageTags(doc, html)]: [html] is the markup, [cheerio(html)]
    the list of its top-level nodes. *)
Definition extractImageTags (html : list node) : list image :=
  imgCandidate <$> find (λ e, bool_decide (tagName e = "img")) html.

(** [{ attribs: { src: u } }], the candidate of a CSS background image. *)
Definition cssCandidate (u : string) : image := newImage {[ "src" := u ]} false.

(** The body of the flattening loop for a candidate that is kept. *)
Definition flatten (docTitle' : string) (query' : option string) (obj : image) : image :=
  Image (attribs obj) (isMeta obj)
        (attribs obj !! "src") (attribs obj !! "title")
        (attribs obj !! "class") (attribs obj !! "alt")
        (Some docTitle') query'
        (score obj) (titleScore obj) (queryScore obj) (goodWords obj)
        (badWords obj) (badFnameWords obj) (sizeScoreOf obj) (dims obj).

(** [imgCheck[k]] read as a condition.  [imgCheck] is a plain object whose
    own properties all hold [true]; a key it does not own is looked up in
    [Object.prototype]. *)
Definition imgCheckHas (imgCheck : gset string) (k : string) : bool :=
  bool_decide (k ∈ imgCheck) || bool_decide (k ∈ objectPrototypeKeys).

(** The [images.forEach] loop of [extractImages]: [imgCheck] is the table of
    addresses seen so far, the result is [retImages]. *)
Fixpoint flattenLoop (docTitle' : string) (query' : option string)
    (imgCheck : gset string) (images : list image) : list image :=
  match images with
  | [] => []
  | obj :: rest =>
      let k := propertyKey (attribs obj !! "src") in
      if imgCheckHas imgCheck k
      then flattenLoop docTitle' query' imgCheck rest
      else flatten docTitle' query' obj ::
           flattenLoop docTitle' query' ({[ k ]} ∪ imgCheck) rest
  end.

(** [extractImages(doc, html, title, query, callback)]: [doc] holds the
    elements of the loaded document, [html] the top-level nodes of the
    markup parsed on its own; [cssUrls] are the addresses [getCSSImages]
    found in the linked stylesheets (fetched and parsed outside the
    package). *)
Definition extractImages (doc : list element) (html : list node) (cssUrls : list string)
    (docTitle' : string) (query' : option string) : list image :=
  flattenLoop docTitle' query' ∅
    (getMetaImages doc ++ extractImageTags html ++ (cssCandidate <$> cssUrls)).

End DocImageParse.

(** ** checkImageUrl.js *)

Module CheckImageUrl.

Import JsString.

(** *** The address filter of [checkImageUrl] *)

Definition isWordChar (c : ascii) : bool :=
  let n := Ascii.N_of_ascii c in
  ((48 <=? n) && (n <=? 57) || (65 <=? n) && (n <=? 90) ||
   (97 <=? n) && (n <=? 122) || (n =? 95))%N.

Fixpoint allNonSpace (s : string) : bool :=
  match s with
  | "" => true
  | String c s' => negb (isSpace c) && allNonSpace s'
  end.

(** Some ["."] of [s] has a character after it. *)
Fixpoint dotBeforeEnd (s : string) : bool :=
  match s with
  | "" => false
  | String c s' =>
      (bool_decide (c = "."%char) && negb (bool_decide (s' = ""))) || dotBeforeEnd s'
  end.

(** [\S+\.\S+$]: no white space, and a ["."] that is neither the first nor
    the last character. *)
Definition hostAndPath (s : string) : bool :=
  match s with
  | "" => false
  | String c s' => negb (isSpace c) && allNonSpace s' && dotBeforeEnd s'
  end.

(** [\:\/\/\w\S+\.\S+$] *)
Definition afterScheme (s : string) : bool :=
  match s with
  | String ":" (String "/" (String "/" (String c rest))) => isWordChar c && hostAndPath rest
  | _ => false
  end.

(** [/^https?\:\/\/\w\S+\.\S+$/i.test(s)] *)
Definition httpUrlPattern (s : string) : bool :=
  bool_decide (toLowerCase (take 4 s) = "http") &&
  (afterScheme (drop 4 s) ||
   match drop 4 s with
   | String c rest => bool_decide (lowerChar c = "s"%char) && afterScheme rest
   | "" => false
   end).

(** *** Relative references *)

(** The part of [s] before the first [c] and the part after it. *)
Fixpoint splitAt (c : ascii) (s : string) : option (string * string) :=
  match s with
  | "" => None
  | String a s' =>
      if decide (a = c) then Some ("", s')
      else match splitAt c s' with
           | Some (l, r) => Some (String a l, r)
           | None => None
           end
  end.

Definition isLetter (c : ascii) : bool :=
  let n := Ascii.N_of_ascii c in
  ((65 <=? n) && (n <=? 90) || (97 <=? n) && (n <=? 122))%N.

Definition isSchemeChar (c : ascii) : bool :=
  let n := Ascii.N_of_ascii c in
  isLetter c || ((48 <=? n) && (n <=? 57) || (n =? 43) || (n =? 45) || (n =? 46))%N.

Fixpoint allSchemeChars (s : string) : bool :=
  match s with
  | "" => true
  | String c s' => isSchemeChar c && allSchemeChars s'
  end.

(** The scheme of an absolute reference and what follows its [":"]. *)
Definition schemeOf (s : string) : option (string * string) :=
  match splitAt ":" s with
  | Some (String c sch, rest) =>
      if isLetter c && allSchemeChars sch then Some (String c sch, rest) else None
  | _ => None
  end.

(** The origin ([scheme://authority]) and the path of a base address. *)
Definition originAndPath (base : string) : string * string :=
  match schemeOf base with
  | Some (sch, rest) =>
      if startsWith "//" rest then
        match splitAt "/" (drop 2 rest) with
        | Some (authority, p) => (sch +:+ "://" +:+ authority, "/" +:+ p)
        | None => (sch +:+ ":" +:+ rest, "")
        end
      else (sch +:+ ":", rest)
  | None => ("", base)
  end.

(** The path up to and including its last ["/"]. *)
Definition directory (path : string) : string :=
  let i := lastIndexOf "/" path in
  if bool_decide (i < 0) then "/" else slice 0 (i + 1) path.

(** Modelled from the spec: [url.resolve] of the platform's [url] module,
    which the package calls but does not contain.  The spec's rules: an
    empty reference resolves to the base unchanged; an absolute reference
    passes through; a scheme-relative reference inherits the scheme of the
    base; a root-relative reference is resolved against the origin of the
    base and a path-relative one against its origin and path. *)
Definition urlResolve (base ref : string) : string :=
  if bool_decide (ref = "") then base
  else if bool_decide (is_Some (schemeOf ref)) then ref
  else
    let '(origin, path) := originAndPath base in
    if startsWith "//" ref then
      match schemeOf base with
      | Some (sch, _) => sch +:+ ":" +:+ ref
      | None => ref
      end
    else if startsWith "/" ref then origin +:+ ref
    else origin +:+ directory path +:+ ref.

(** *** Observable effects of a validation *)

Inductive effect :=
| Fetch (url : string)
| Callback (err : option string) (data : option dimensions).

(** [{ loaded: true, width: 200, height: 100 }] *)
Definition accepted : dimensions := Dimensions true (Some 200) (Some 100) None None.

Fixpoint callbackOf (es : list effect) : option (option string * option dimensions) :=
  match es with
  | [] => None
  | Callback err d :: _ => Some (err, d)
  | Fetch _ :: es' => callbackOf es'
  end.

(** *** The key store guarding the completion callback *)

(** [enterKey]; [None] when it throws. *)
Definition enterKey (key : string) (keyStore : gmap string string)
    : option (gmap string string) :=
  if bool_decide (is_Some (keyStore !! key)) then None
  else Some (<[key := "enter"]> keyStore).

(** [updateKey]; [None] when it throws. *)
Definition updateKey (key status : string) (keyStore : gmap string string)
    : option (gmap string string) :=
  if bool_decide (is_Some (keyStore !! key)) then Some (<[key := status]> keyStore)
  else None.

Definition exitKey (key : string) (keyStore : gmap string string)
    : gmap string string * bool :=
  if bool_decide (is_Some (keyStore !! key)) then (delete key keyStore, true)
  else (keyStore, false).

Section Validator.

(** [new url.URL(s)] does not throw. *)
Variable validURL : string → bool.
(** [url.parse(s).protocol], [.hostname] and [.pathname]; [None] is [null]. *)
Variables protocolOf hostnameOf pathnameOf : string → option string.
(** [process.env.NODE_ENV === "test"] *)
Variable testEnv : bool.
(** [image-size]: the dimensions and type read from a buffer, or [None]
    when it throws. *)
Variable sizeOf : list Byte.byte → option dimensions.
(** [image-type]: the type recognised from the first bytes, if any. *)
Variable imageType : list Byte.byte → option string.
(** The calls [getImageSize] makes to its callback for an address, in
    order (see [getImageSize] and [handle] below for how they arise). *)
Variable sizeCalls : string → list (option string * option dimensions).
(** The entry the callback data bus holds for an address: [Some r] when a
    result is pending or cached (the registered callback receives [r] and
    no new fetch starts), [None] otherwise. *)
Variable busEntry : string → option (option string * option dimensions).

Definition _checkImageUrl (imgUrl : string) : list effect :=
  if startsWith "data:" imgUrl then [Callback None (Some accepted)]
  else if testEnv then
    (if bool_decide (imgUrl = "testnull.jpg") then [Callback (Some "Testing Error") None]
     else [Callback None (Some accepted)])
  else
    Fetch imgUrl ::
    ((λ c, match c with
           | (Some err, _) => Callback (Some err) None
           | (None, None) => Callback None None
           | (None, Some d) => Callback None (Some d)
           end) <$> sizeCalls imgUrl).

(** [checkImageUrl]: the result [_checkImageUrl] submits to the bus is
    what the bus hands to the registered callback. *)
Definition checkImageUrl (imgUrl : string) : list effect :=
  if negb (validURL imgUrl) then []
  else if httpUrlPattern imgUrl then
    match busEntry imgUrl with
    | Some (err, data) => [Callback err data]
    | None => _checkImageUrl imgUrl
    end
  else [].

Definition supportedExtensions : list string :=
  ["gif"; "jpg"; "jpeg"; "bmp"; "png"; "psd"; "tiff"; "webp"; "svg"].

(** [extensionSupportedForSizing]: the pair [(ext, supported)]. *)
Definition extensionSupportedForSizing (imgUrl : string) : string * bool :=
  match pathnameOf imgUrl with
  | Some pathname =>
      if bool_decide (pathname = "") then ("", false)
      else
        let ext := toLowerCase (sliceFrom (lastIndexOf "." pathname + 1) pathname) in
        (ext, bool_decide (ext ∈ supportedExtensions))
  | None => ("", false)
  end.

(** How [resolveRelativeUrl] answers. *)
Inductive resolved :=
| Returned (u : string)
| CalledBack (u : string)
| NeverCalledBack.

(** [resolveRelativeUrl(sourceUrl, imageUrl, callback)]; [withCallback]
    tells whether a callback was passed. *)
Definition resolveRelativeUrl (sourceUrl imageUrl : string) (withCallback : bool)
    : resolved :=
  let newImg := urlResolve sourceUrl imageUrl in
  if negb (bool_decide (newImg = "")) && withCallback && negb testEnv then
    match callbackOf (checkImageUrl newImg) with
    | Some (err, _) =>
        if truthy err
        then CalledBack (default "null" (protocolOf sourceUrl) +:+ "//" +:+
                         default "null" (hostnameOf sourceUrl) +:+ "/" +:+
                         default "null" (pathnameOf imageUrl))
        else CalledBack newImg
    | None => NeverCalledBack
    end
  else if withCallback then CalledBack newImg
  else Returned newImg.

(** *** [getImageSize] as a machine driven by transport events *)

Inductive event :=
| Response
| Data (chunk : list Byte.byte)
| End
| ReadError (e : string)
| ConnError (e : string)
| Timeout.

(** The variables one call of [getImageSize] closes over. *)
Record request := Request {
  thisKey : string;
  existenceOnly : bool;
  ext : string
}.

(** The key store and the call counter are shared by all requests;
    [responded] tells whether the response has arrived, which is when the
    listeners for [Data], [End] and [ReadError] are attached; [chunks]
    belongs to that response; [calls] are the invocations of the callback
    so far and [thrown] the exceptions that escaped a handler. *)
Record machine := Machine {
  keyStore : gmap string string;
  callCount : N;
  responded : bool;
  chunks : list Byte.byte;
  calls : list (option string * option dimensions);
  thrown : list string
}.

Definition withStore (ks : gmap string string) (m : machine) : machine :=
  Machine ks (callCount m) (responded m) (chunks m) (calls m) (thrown m).
Definition withResponse (m : machine) : machine :=
  Machine (keyStore m) (callCount m) true [] (calls m) (thrown m).
Definition withChunks (b : list Byte.byte) (m : machine) : machine :=
  Machine (keyStore m) (callCount m) (responded m) b (calls m) (thrown m).
Definition call (c : option string * option dimensions) (m : machine) : machine :=
  Machine (keyStore m) (callCount m) (responded m) (chunks m) (calls m ++ [c]) (thrown m).
Definition throw (msg : string) (m : machine) : machine :=
  Machine (keyStore m) (callCount m) (responded m) (chunks m) (calls m) (thrown m ++ [msg]).

(** [updateKey(key, status)] followed by [k]; the exception ends the handler. *)
Definition updating (key status : string) (m : machine) (k : machine → machine)
    : machine :=
  match updateKey key status (keyStore m) with
  | Some ks => k (withStore ks m)
  | None => throw ("updating a non existent key:" +:+ key) m
  end.

(** [if (exitKey(key, ...)) { cb(c) }] *)
Definition guarded (key : string) (c : option string * option dimensions)
    (m : machine) : machine :=
  let '(ks, claimed) := exitKey key (keyStore m) in
  if claimed then call c (withStore ks m) else withStore ks m.

Definition processData (key : string) (m : machine) : machine :=
  updating key "got a chunk" m (λ m,
    updating key "size calculated, ending file read" m (λ m,
      match sizeOf (chunks m) with
      | Some _ => m
      | None => updating key "size calculate failed, continue reading" m id
      end)).

Definition typeMismatch (ret : dimensions) (ext' : string) : bool :=
  match imgType ret with
  | Some ty =>
      negb (bool_decide (ty = "")) && negb (bool_decide (ext' = "")) &&
      negb (bool_decide (ty = ext')) && negb (bool_decide (ty = "jpg"))
  | None => false
  end.

Definition loadedNoCalc : dimensions :=
  Dimensions true (Some 10) (Some 10) None (Some "loadednocalc").

Definition processFileEnd (r : request) (m : machine) : machine :=
  let finish (ret : dimensions) :=
    if typeMismatch ret (ext r)
    then guarded (thisKey r)
           (Some ("type mismatch: " +:+ propertyKey (imgType ret)), None) m
    else guarded (thisKey r) (None, Some ret) m in
  if existenceOnly r then
    match imageType (chunks m) with
    | Some itype => finish (Dimensions true None None None (Some "existenceOnly"))
    | None =>
        call (Some "bad image type", None)
             (withStore (exitKey (thisKey r) (keyStore m)).1 m)
    end
  else
    match sizeOf (chunks m) with
    | Some ret => finish ret
    | None => guarded (thisKey r) (None, Some loadedNoCalc) m
    end.

(** The handler attached to each transport event.  An event of the
    response finds no listener before the response has arrived. *)
Definition handle (r : request) (m : machine) (e : event) : machine :=
  match e with
  | Response => updating (thisKey r) "transporting" m withResponse
  | Data chunk =>
      if responded m
      then processData (thisKey r) (withChunks (chunks m ++ chunk) m)
      else m
  | End => if responded m then processFileEnd r m else m
  | ReadError e =>
      if responded m then
        updating (thisKey r) ("on error: " +:+ e) m (λ m,
          if bool_decide (e = "finished") then m
          else guarded (thisKey r) (Some "Could not open file", None) m)
      else m
  | ConnError e =>
      if bool_decide (e = "finished") then m
      else guarded (thisKey r) (Some e, None) m
  | Timeout => guarded (thisKey r) (Some "Timeout", None) m
  end.

Definition isHttp (imgUrl : string) : bool :=
  bool_decide (protocolOf imgUrl = Some "http:") ||
  bool_decide (protocolOf imgUrl = Some "https:").

(** The synchronous part of [getImageSize], from a key store and a call
    counter: the machine it leaves behind and, when a transfer was
    launched, the request whose handlers are now installed. *)
Definition getImageSize (imgUrl : string) (ks : gmap string string) (count : N)
    : machine * option request :=
  let m := Machine ks count false [] [] [] in
  if negb (validURL imgUrl)
  then (call (Some ("Invalid image url: " +:+ imgUrl), None) m, None)
  else
    let extObj := extensionSupportedForSizing imgUrl in
    let key := imgUrl +:+ "[" +:+ pretty count +:+ "]" in
    let m := Machine ks (count + 1) false [] [] [] in
    match enterKey key ks with
    | None => (throw ("duplicate key in keystore: " +:+ key) m, None)
    | Some ks =>
        let m := withStore ks m in
        if isHttp imgUrl
        then (updating key "launched transport" m id,
              Some (Request key (negb extObj.2) extObj.1))
        else (guarded key (Some "Bad Protocol", None) m, None)
    end.

(** One validation from start to finish: launch, then the handlers of
    the events the transport delivers, in order. *)
Definition validation (imgUrl : string) (ks : gmap string string) (count : N)
    (events : list event) : machine :=
  match getImageSize imgUrl ks count with
  | (m, Some r) => foldl (handle r) m events
  | (m, None) => m
  end.

End Validator.

End CheckImageUrl.

(** ** imageScore.js *)

Module ImageScore.

Import JsString.
Local Open Scope Q_scope.

(** The scoring table [SCORE_CONFIG]. *)
Module Config.
Record factors := Factors { imgTitle : Q; imgSrc : Q; imgFname : Q }.
Record sizing := Sizing {
  idealWidth : Q; idealHeight : Q; ratioWeight : Q;
  smallerWeight : Q; largerWeight : Q
}.
Record t := Make {
  isMeta : Q; isSVG : Q; isJPG : Q; isGIF : Q; isPNG : Q;
  docTitleFactors : factors;
  queryFactors : factors;
  goodWordMatch : Q; badWordMatch : Q; badWordMatchFname : Q;
  size : sizing;
  goodWords : list string;
  badWords : list string;
  badFilenames : list string
}.
End Config.

Definition defaultGoodWords : list string := ["logo"; "main"]%string.

Definition defaultBadWords : list string :=
  ["spacer"; "pixel"; "email"; "search"; "button"; "pageview"; "phone"; "call";
   "amazonlogo"; "contact"; "favicon"; "blank"; "question"; "placeholder"; "bbb";
   "sprite"; "spinner"; "reviews"; "clear"; "signup"; "rss"; "border"]%string.

Definition defaultBadFilenames : list string :=
  ["spacer"; "pixel"; "amazon"; "ebay"; "btn"; "bot"; "up"; "twitter";
   "facebook"; "pinterest"; "youtube"; "gplus"; "google"; "favicon";
   "paypal"; "mastercard"; "visa"; "phone"; "email"; "call"; "border";
   "submit"; "sprite"; "spinner"; "1x1"; "clear"; "signup"; "rss"; "arrow"]%string.

(** The table the module starts with. *)
Definition DEFAULT_CONFIG : Config.t :=
  Config.Make 10 0.5 0.5 0.5 0.5
    (Config.Factors 1 1 1) (Config.Factors 6 6 6)
    0.3 (-2) (-2)
    (Config.Sizing 200 100 0.35 7 0.25)
    defaultGoodWords defaultBadWords defaultBadFilenames.

(** The table after [setConfig({isPNG: 0.3, isGIF: 0.4, isJPG: 0.5})], as the
    tests install it: keys that are not overridden keep their default. *)
Definition TEST_CONFIG : Config.t :=
  Config.Make 10 0.5 0.5 0.4 0.3
    (Config.Factors 1 1 1) (Config.Factors 6 6 6)
    0.3 (-2) (-2)
    (Config.Sizing 200 100 0.35 7 0.25)
    defaultGoodWords defaultBadWords defaultBadFilenames.

Definition isValidSrcTag (src' : option string) : bool :=
  match src' with
  | None => false
  | Some s =>
      if bool_decide (s = "") then false
      else if startsWith "data:" s then true
      else bool_decide (0 < len (trim s))%Z
  end.

(** [ext.charAt(0) !== "." ? "." + ext : ext] *)
Definition dotted (ext : string) : string :=
  match ext with
  | String "." _ => ext
  | _ => String "." ext
  end.

Definition hasExtension (file : string) (extArray : list string) : bool :=
  existsb (λ ext,
    let ext := dotted ext in
    bool_decide (lastIndexOf ext file + len ext = len file)%Z) extArray.

(** Setters for the fields the scorer assigns. *)
Definition setScore (s : Q) (o : image) : image :=
  Image (attribs o) (isMeta o) (src o) (title o) (class o) (alt o) (docTitle o)
        (query o) s (titleScore o) (queryScore o) (goodWords o) (badWords o)
        (badFnameWords o) (sizeScoreOf o) (dims o).
Definition setSizeScore (s : option Q) (o : image) : image :=
  Image (attribs o) (isMeta o) (src o) (title o) (class o) (alt o) (docTitle o)
        (query o) (score o) (titleScore o) (queryScore o) (goodWords o) (badWords o)
        (badFnameWords o) s (dims o).
Definition setBreakdown (ts qs gw bw bf : Q) (o : image) : image :=
  Image (attribs o) (isMeta o) (src o) (title o) (class o) (alt o) (docTitle o)
        (query o) (score o) ts qs gw bw bf (sizeScoreOf o) (dims o).

Section Scorer.

(** The table currently installed. *)
Variable SCORE_CONFIG : Config.t.
(** [stringSimilarity.compareTwoStrings] *)
Variable compareTwoStrings : string → string → Q.
(** [url.parse(s).pathname]; [None] is [null]. *)
Variable pathnameOf : string → option string.
(** [Math.log] *)
Variable Math_log : Q → Q.

Definition getExtensionScore (imgUrl : string) : Q :=
  if startsWith "data:image" imgUrl then Config.isSVG SCORE_CONFIG
  else if hasExtension imgUrl ["ashx"; "jpg"; "jpeg"]%string then Config.isJPG SCORE_CONFIG
  else if hasExtension imgUrl ["gif"]%string then Config.isGIF SCORE_CONFIG
  else if hasExtension imgUrl ["png"]%string then Config.isPNG SCORE_CONFIG
  else 0.

Definition getTitleScore (imgUrl : string) (obj : image) (title' : string)
    (f : Config.factors) : Q :=
  let pathname := pathnameOf imgUrl in
  let fname :=
    if truthy pathname
    then sliceFrom (lastIndexOf "/" (propertyKey pathname)) (propertyKey pathname)
    else ""%string in
  let prePath :=
    if truthy pathname
    then slice 0 (lastIndexOf "/" (propertyKey pathname)) (propertyKey pathname)
    else ""%string in
  (if truthy (title obj)
   then Config.imgTitle f * compareTwoStrings (propertyKey (title obj)) title'
   else if truthy (alt obj)
   then Config.imgTitle f * compareTwoStrings (propertyKey (alt obj)) title'
   else Config.imgSrc f * compareTwoStrings prePath title')
  + Config.imgFname f * compareTwoStrings fname title'.

Definition matchesAny (words : list string) (text : string) : bool :=
  existsb (λ word, bool_decide (0 <= indexOf word (toLowerCase text))%Z) words.

Definition checkGoodWords (text : option string) : Q :=
  if negb (truthy text) then 0
  else if matchesAny (Config.goodWords SCORE_CONFIG) (propertyKey text)
  then Config.goodWordMatch SCORE_CONFIG
  else 0.

Definition checkBadWords (text : string) : Q :=
  if matchesAny (Config.badWords SCORE_CONFIG) text
  then Config.badWordMatch SCORE_CONFIG
  else 0.

Definition checkFilenameBadWords (imgUrl : string) : Q :=
  if matchesAny (Config.badFilenames SCORE_CONFIG)
                (sliceFrom (lastIndexOf "/" imgUrl) imgUrl)
  then Config.badWordMatchFname SCORE_CONFIG
  else 0.

(** The body of [preferenceScore] for a candidate whose [src] is the
    string [imgUrl]: the candidate with its score breakdown filled in,
    and the returned score. *)
Definition preferenceScoreAt (imgUrl : string) (obj : image) : image * Q :=
  let isSVG := bool_decide (0 <= indexOf "data:image" imgUrl)%Z in
  let score0 := 0 in
  let score1 :=
    if isSVG then score0
    else if truthy (docTitle obj)
    then score0 + getTitleScore imgUrl obj (propertyKey (docTitle obj))
                    (Config.docTitleFactors SCORE_CONFIG)
    else score0 in
  let titleScore' := if isSVG then 0 else if truthy (docTitle obj) then score1 else 0 in
  let score2 :=
    if isSVG then score1
    else if truthy (query obj)
    then score1 + getTitleScore imgUrl obj (propertyKey (query obj))
                    (Config.queryFactors SCORE_CONFIG)
    else score1 in
  let queryScore' :=
    if isSVG then 0 else if truthy (query obj) then score2 - titleScore' else 0 in
  let score3 := if isMeta obj then score2 + Config.isMeta SCORE_CONFIG else score2 in
  let score4 := if isSVG then score3 else score3 + checkGoodWords (Some imgUrl) in
  let score5 := score4 + checkGoodWords (class obj) in
  let score6 := score5 + checkGoodWords (title obj) in
  let score7 := if isSVG then score6 else score6 + checkBadWords imgUrl in
  let score8 := score7 + checkFilenameBadWords imgUrl in
  let score9 := score8 + getExtensionScore imgUrl in
  (setBreakdown titleScore' queryScore' (score6 - score3) (score7 - score6)
                (score8 - score7) obj,
   score9).

(** [preferenceScore(obj)]; [None] when [obj.src] is not a string and the
    first method call on it throws. *)
Definition preferenceScore (obj : image) : option (image * Q) :=
  match src obj with
  | Some imgUrl => Some (preferenceScoreAt imgUrl obj)
  | None => None
  end.

(** The first loop of [findBestImages]. *)
Definition scoreOne (obj : image) : image :=
  match src obj with
  | Some imgUrl =>
      if isValidSrcTag (src obj)
      then let '(obj', s) := preferenceScoreAt imgUrl obj in setScore s obj'
      else setScore 0 obj
  | None => setScore 0 obj
  end.

(** [arr.sort((a, b) => b.score - a.score)]: descending by score, with
    candidates of equal score left in their order. *)
Fixpoint insertByScore (x : image) (l : list image) : list image :=
  match l with
  | [] => [x]
  | y :: l' =>
      if Qlt_le_dec (score x) (score y) then y :: insertByScore x l' else x :: l
  end.
Definition sortByScore (l : list image) : list image := foldr insertByScore [] l.

Definition maxScore (arr : list image) : Q :=
  foldl (λ max item, Qmax max (score item)) (-999999) arr.

(** [normalizeScores]: every score divided by the largest one.  The
    quotient by a zero maximum is not meaningful here ([x / 0] is [0] in
    [Q], an infinity or [NaN] in the source). *)
Definition normalizeScores (arr : list image) : list image :=
  let max := maxScore arr in
  (λ item, setScore (score item / max) item) <$> arr.

(** A scoring hook: the array after the hook has altered it in place;
    the flag tells content scoring ([false]) from size scoring ([true]). *)
Definition hook := list image → bool → list image.

Definition findBestImages (imgArray : list image) (scoreFn : option hook) : list image :=
  let imgArray := normalizeScores (sortByScore (scoreOne <$> imgArray)) in
  match scoreFn with
  | Some f => normalizeScores (sortByScore (f imgArray false))
  | None => imgArray
  end.

Definition truthyNumber (z : option Z) : bool :=
  match z with Some n => negb (bool_decide (n = 0%Z)) | None => false end.

Definition sizeScore (imgObj : image) : Q :=
  match dims imgObj with
  | Some d =>
      if truthyNumber (width d) && truthyNumber (height d) then
        let cfg := Config.size SCORE_CONFIG in
        let x := inject_Z (default 0%Z (width d)) in
        let y := inject_Z (default 0%Z (height d)) in
        let idealRatio := Config.idealWidth cfg / Config.idealHeight cfg in
        let ratio := x / (y + 0.001) in
        let rdiff := Qabs (idealRatio - ratio) * Config.ratioWeight cfg in
        let surfaceArea := x * y in
        let sdiff := surfaceArea - Config.idealWidth cfg * Config.idealHeight cfg in
        let sdiff :=
          if Qlt_le_dec 0 sdiff
          then Math_log (Qabs sdiff) * 0.01 * Config.largerWeight cfg
          else if Qlt_le_dec sdiff 0
          then Math_log (Qabs sdiff) * 0.01 * Config.smallerWeight cfg
          else sdiff in
        1 - (rdiff + sdiff)
      else 0
  | None => 0
  end.

(** [consolidateAndSizeRank]: [None] entries are the candidates that
    were set to [null]. *)
Definition consolidateAndSizeRank (imgArray : list (option image)) : list image :=
  (λ imgObj, setSizeScore (Some (sizeScore imgObj)) imgObj) <$>
    omap id imgArray.

(** [adjustScoresWithSize]; a candidate a hook left without [sizeScore]
    is given [0] here (the source adds [undefined]). *)
Definition adjustScoresWithSize (newArray : list image) : list image :=
  sortByScore
    (normalizeScores
       ((λ item, setScore (score item + default 0 (sizeScoreOf item)) item) <$> newArray)).

Definition callSizingFunction (scoreFn : option hook) (newArray : list image)
    : list image :=
  adjustScoresWithSize
    (match scoreFn with Some f => f newArray true | None => newArray end).

End Scorer.

End ImageScore.

(** ** best-image.js *)

Module BestImage.

(** A plain object used as a table from addresses to candidates: its own
    properties in creation order. *)
Abbreviation table := (list (string * image)).

(** [obj[k] = v]: an existing property keeps its place. *)
Fixpoint tableSet (k : string) (v : image) (obj : table) : table :=
  match obj with
  | [] => [(k, v)]
  | (k', v') :: obj' =>
      if decide (k = k') then (k, v) :: obj' else (k', v') :: tableSet k v obj'
  end.

Fixpoint digitsValue (acc : N) (s : string) : option N :=
  match s with
  | "" => Some acc
  | String c s' =>
      match Ascii.is_nat c with
      | Some d => digitsValue (acc * 10 + N.of_nat d)%N s'
      | None => None
      end
  end.

(** A key is an array index when it is the canonical decimal form of an
    integer below [2^32 - 1]. *)
Definition arrayIndex (k : string) : option N :=
  match k with
  | "" => None
  | String c rest =>
      if decide (c = "0"%char)
      then (if decide (rest = "") then Some 0%N else None)
      else match digitsValue 0 k with
           | Some n => if (n <? 2 ^ 32 - 1)%N then Some n else None
           | None => None
           end
  end.

Fixpoint insertByIndex (e : N * (string * image)) (l : list (N * (string * image)))
    : list (N * (string * image)) :=
  match l with
  | [] => [e]
  | e' :: l' => if (e.1 <=? e'.1)%N then e :: l else e' :: insertByIndex e l'
  end.

Definition indexed (obj : table) : list (N * (string * image)) :=
  omap (λ kv, match arrayIndex kv.1 with Some n => Some (n, kv) | None => None end) obj.

Definition named (obj : table) : table :=
  filter (λ kv, arrayIndex kv.1 = None) obj.

(** The order in which [for (key in obj)] visits the properties: array
    indices in ascending order first, then the other keys in creation order. *)
Definition forIn (obj : table) : table :=
  (snd <$> foldr insertByIndex [] (indexed obj)) ++ named obj.

Definition srcKey (img : image) : string := propertyKey (src img).

(** [deDupeImageArray].  An assignment to the key ["__proto__"] does not
    create a property (it replaces the prototype of the table, whose
    enumeration then yields the fields of that candidate); the embedding
    does not follow it and answers [None] for such an array. *)
Definition deDupeImageArray (imgArray : list image) : option (list image) :=
  if bool_decide ("__proto__" ∈ (srcKey <$> imgArray)) then None
  else
    let obj := foldl (λ obj img, tableSet (srcKey img) img obj) [] imgArray in
    Some (snd <$> forIn obj).

(** *** [findValidImage] *)

Definition FIND_BLOCK_SIZE : nat := 10.

(** The functions that are passed around: a scoring hook, or the completion
    callback of the lookup.  [arity] is the number of declared parameters
    (the [length] of the function object). *)
Inductive role :=
| ScoreHook (f : ImageScore.hook)
| Completion.

(** The values [findValidImage] is called with. *)
Inductive value :=
| Undefined
| Null
| Str (s : string)
| Arr (a : list image)
| Fn (arity : nat) (r : role).

Inductive outcome :=
| Result (err : option string) (bestImage : option string)
    (* the completion callback was called with these arguments *)
| TypeError (msg : string)
    (* an exception escaped *)
| Pending
    (* some validation never calls back, so the batch never completes *)
| Misapplied
    (* a hook was called as completion callback or the reverse; no call in
       the package does that *)
| OutOfFuel.

(** [v.length]; [None] when reading it throws. *)
Definition lengthOf (v : value) : option nat :=
  match v with
  | Undefined | Null => None
  | Str s => Some (String.length s)
  | Arr a => Some (length a)
  | Fn arity _ => Some arity
  end.

(** [cback(err, data)] *)
Definition invoke (cback : value) (err data : option string) : outcome :=
  match cback with
  | Fn _ Completion => Result err data
  | Fn _ (ScoreHook _) => Misapplied
  | _ => TypeError "cback is not a function"
  end.

Definition setDims (d : option dimensions) (o : image) : image :=
  Image (attribs o) (isMeta o) (src o) (title o) (class o) (alt o) (docTitle o)
        (query o) (score o) (titleScore o) (queryScore o) (goodWords o) (badWords o)
        (badFnameWords o) (sizeScoreOf o) d.

Section Orchestrator.

Variable validURL : string → bool.
Variable testEnv : bool.
Variable sizeCalls : string → list (option string * option dimensions).
Variable busEntry : string → option (option string * option dimensions).
Variable SCORE_CONFIG : ImageScore.Config.t.
Variable Math_log : Q → Q.

(** The callback [findValidImage] passes to [checkImageUrl] for one
    candidate, applied to the first answer: [None] when no answer comes,
    [Some None] when the candidate is replaced by [null], otherwise the
    candidate with its dimensions. *)
Definition validateOne (img : image) : option (option image) :=
  match src img with
  | None => None
  | Some u =>
      match CheckImageUrl.callbackOf
              (CheckImageUrl.checkImageUrl validURL testEnv sizeCalls busEntry u) with
      | None => None
      | Some (err, d) =>
          if truthy err then Some None else Some (Some (setDims d img))
      end
  end.

(** [async.eachOf] over the batch: complete once every candidate has
    been answered. *)
Definition validateAll (imgArray : list image) : option (list (option image)) :=
  mapM validateOne imgArray.

(** [imageScore.callSizingFunction(scoreFn, newArray)] for a [scoreFn]
    that is any value. *)
Definition sized (scoreFn : value) (newArray : list image) : option (list image) :=
  match scoreFn with
  | Undefined | Null => Some (ImageScore.callSizingFunction None newArray)
  | Str s =>
      if bool_decide (s = "") then Some (ImageScore.callSizingFunction None newArray)
      else None
  | Arr _ => None
  | Fn _ (ScoreHook f) => Some (ImageScore.callSizingFunction (Some f) newArray)
  | Fn _ Completion => None
  end.

Fixpoint findValidImage (fuel : nat) (fullUrl fullImgArray scoreFn cback : value)
    : outcome :=
  match fuel with
  | O => OutOfFuel
  | S fuel =>
      match lengthOf fullImgArray with
      | None => TypeError "Cannot read property 'length' of null or undefined"
      | Some len =>
          if bool_decide (len = 0%nat)
          then invoke cback (Some "No valid image found") None
          else
            let end' := Nat.min (0 + FIND_BLOCK_SIZE) len in
            match fullImgArray with
            | Arr full =>
                let imgArray := take end' full in
                match validateAll imgArray with
                | None => Pending
                | Some checked =>
                    match sized scoreFn
                            (ImageScore.consolidateAndSizeRank SCORE_CONFIG Math_log checked) with
                    | None =>
                        match scoreFn with
                        | Fn _ Completion => Misapplied
                        | _ => TypeError "scoreFn is not a function"
                        end
                    | Some (best :: _) => invoke cback None (src best)
                    | Some [] =>
                        (* findValidImage(fullImgArray.slice(end), scoreFn, cback) *)
                        findValidImage fuel (Arr (drop end' full)) scoreFn cback Undefined
                    end
                end
            | Str _ => Pending
            | _ => TypeError "fullImgArray.slice is not a function"
            end
      end
  end.

End Orchestrator.

End BestImage.

(** ** docImageParse.js: background images of a stylesheet *)

Module StyleSheet.

Import JsString DocImageParse.

Definition isQuote (c : ascii) : bool :=
  bool_decide (c = "'"%char) || bool_decide (c = "034"%char).

(** The characters the [.] of a regular expression does not match (of
    the line terminators, the two that are single bytes). *)
Definition isLineTerminator (c : ascii) : bool :=
  bool_decide (c = "010"%char) || bool_decide (c = "013"%char).

(** The lazy group and the closing part of the pattern, from the
    character after the opening part: the captured text ends at the first
    [)], or at the first quote that a [)] follows. *)
Fixpoint capture (s : string) : option string :=
  match s with
  | "" => None
  | String c rest =>
      if bool_decide (c = ")"%char) then Some ""
      else if isQuote c && startsWith ")" rest then Some ""
      else if isLineTerminator c then None
      else String c <$> capture rest
  end.

(** The match attempted at an opening parenthesis: an optional quote,
    then the capture. *)
Definition afterParen (s : string) : option string :=
  match s with
  | String c rest => if isQuote c then capture rest else capture s
  | "" => None
  end.

(** The first group of the leftmost match of the pattern
    [\(] [quote?] [(.*?)] [quote?] [\)] in [s], where a quote is a single
    or a double quote; [None] when the pattern does not match. *)
Fixpoint urlPattern (s : string) : option string :=
  match s with
  | "" => None
  | String c rest =>
      if bool_decide (c = "("%char) then
        match afterParen rest with
        | Some u => Some u
        | None => urlPattern rest
        end
      else urlPattern rest
  end.

(** A declaration of a rule; [property] is [None] for an entry that is
    not a declaration (a comment). *)
Record declaration := Declaration {
  property : option string;
  value : string
}.

(** The body of [rule.declarations.forEach]: the candidate a declaration
    contributes, if any. *)
Definition declarationImage (item : declaration) : option image :=
  if bool_decide (property item = Some "background-image") ||
     bool_decide (property item = Some "background")
  then
    if startsWith "url" (trim (value item))
    then cssCandidate <$> urlPattern (trim (value item))
    else None
  else None.

End StyleSheet.

(** ** best-image.js: size scores written back *)

Module SizeScores.

(** One round of [newArray.forEach]: the first candidate of [fullArray]
    whose [src] is that of [item], if there is one, takes the [sizeScore]
    of [item]. *)
Definition updateOne (fullArray : list image) (item : image) : list image :=
  match list_find (λ obj, src obj = src item) fullArray with
  | Some (i, obj) => <[i := ImageScore.setSizeScore (sizeScoreOf item) obj]> fullArray
  | None => fullArray
  end.

(** [updateSizeScores]: [fullArray] after the call. *)
Definition updateSizeScores (fullArray newArray : list image) : list image :=
  foldl updateOne fullArray newArray.

End SizeScores.

(** ** imageScore.js: installing a scoring table *)

Module ConfigObject.

Local Open Scope Q_scope.
#[local] Set Warnings "-register-all".

(** The values a scoring table is made of: what [JSON] can carry.  An
    object lists its own properties in creation order (the place integer
    names take in an enumeration is not modelled); a table is a tree, no
    object occurs in it twice. *)
Inductive json :=
| JNull
| JBool (b : bool)
| JNum (n : Q)
| JStr (s : string)
| JArr (items : list json)
| JObj (props : list (string * json)).

(** What a function ends with: a value, an exception, or a step the
    embedding does not follow (a property found on a prototype, a
    property of a primitive, an array that gets a hole or a name). *)
Inductive outcome (A : Type) :=
| Done (a : A)
| Throws
| Beyond.
Arguments Done {A} a.
Arguments Throws {A}.
Arguments Beyond {A}.

(** A property key as [for ... in] yields it: a name of an object or an
    index of an array. *)
Inductive key :=
| Named (name : string)
| At (i : nat).

Definition keyName (k : key) : string :=
  match k with
  | Named name => name
  | At i => pretty (N.of_nat i)
  end.

Definition keyIndex (k : key) : option nat :=
  match k with
  | Named name => N.to_nat <$> BestImage.arrayIndex name
  | At i => Some i
  end.

Fixpoint lookupProp (name : string) (props : list (string * json)) : option json :=
  match props with
  | [] => None
  | (name', v) :: props' =>
      if decide (name = name') then Some v else lookupProp name props'
  end.

(** [props[name] = v] on the own properties of an object. *)
Fixpoint assign (name : string) (v : json) (props : list (string * json))
    : list (string * json) :=
  match props with
  | [] => [(name, v)]
  | (name', v') :: props' =>
      if decide (name = name') then (name, v) :: props'
      else (name', v') :: assign name v props'
  end.

(** The result of reading [obj[key]]. *)
Inductive read :=
| Value (v : json)
| Missing
| NotFollowed
| ReadError.

Definition getProp (obj : json) (k : key) : read :=
  match obj with
  | JNull => ReadError
  | JObj props =>
      match lookupProp (keyName k) props with
      | Some v => Value v
      | None =>
          if bool_decide (keyName k ∈ objectPrototypeKeys) then NotFollowed else Missing
      end
  | JArr items =>
      match keyIndex k with
      | Some i => match items !! i with Some v => Value v | None => Missing end
      | None => NotFollowed
      end
  | JBool _ | JNum _ | JStr _ => NotFollowed
  end.

(** [obj[key] = v]; an assignment to the name ["__proto__"] sets the
    prototype instead of a property and is not followed. *)
Definition setProp (obj : json) (k : key) (v : json) : outcome json :=
  match obj with
  | JObj props =>
      if bool_decide (keyName k = "__proto__") then Beyond
      else Done (JObj (assign (keyName k) v props))
  | JArr items =>
      match keyIndex k with
      | Some i =>
          if bool_decide (i < length items)%nat then Done (JArr (<[i := v]> items))
          else if bool_decide (i = length items) then Done (JArr (items ++ [v]))
          else Beyond
      | None => Beyond
      end
  | JNull | JBool _ | JNum _ | JStr _ => Throws
  end.

(** [typeof v === "object"] *)
Definition isObjectType (v : json) : bool :=
  match v with
  | JNull | JArr _ | JObj _ => true
  | JBool _ | JNum _ | JStr _ => false
  end.

(** [exists(a)] for a property that was read: neither [undefined] nor
    [null]. *)
Definition exists' (r : read) : bool :=
  match r with
  | Value JNull | Missing => false
  | Value _ => true
  | NotFollowed | ReadError => false
  end.

(** [cpobj]: the round trip through [JSON] text gives back the value. *)
Definition cpobj (obj : json) : json := obj.

(** The body of the loop of [objKeyMatch] for one key of the reference
    object, [rv] being [referenceObj[key]] and [recurse] the recursive
    call for it; the nested object is altered in place, that is, the
    altered object is the property of [obj] afterwards. *)
Definition matchKey (k : key) (rv : json) (recurse : json → outcome json)
    (obj : json) : outcome json :=
  match getProp obj k with
  | ReadError => Throws
  | NotFollowed => Beyond
  | r =>
      if isObjectType rv then
        match r with
        | Value v =>
            if exists' r then
              match recurse v with
              | Done v' => setProp obj k v'
              | Throws => Throws
              | Beyond => Beyond
              end
            else setProp obj k (cpobj rv)
        | _ => setProp obj k (cpobj rv)
        end
      else if exists' r then Done obj
      else setProp obj k rv
  end.

(** The loop [for (var key in referenceObj)] over the properties of a
    reference object, and over the items of a reference array from
    index [i] on. *)
Fixpoint eachName (recurse : json → json → outcome json)
    (props : list (string * json)) (obj : json) : outcome json :=
  match props with
  | [] => Done obj
  | (name, rv) :: props' =>
      match matchKey (Named name) rv (λ v, recurse v rv) obj with
      | Done obj' => eachName recurse props' obj'
      | Throws => Throws
      | Beyond => Beyond
      end
  end.

Fixpoint eachIndex (recurse : json → json → outcome json) (i : nat)
    (items : list json) (obj : json) : outcome json :=
  match items with
  | [] => Done obj
  | rv :: items' =>
      match matchKey (At i) rv (λ v, recurse v rv) obj with
      | Done obj' => eachIndex recurse (S i) items' obj'
      | Throws => Throws
      | Beyond => Beyond
      end
  end.

(** [objKeyMatch(obj, referenceObj)]: [obj] after the call.  (A
    reference that is a string has its characters as properties; this
    is not followed.) *)
Fixpoint objKeyMatch (obj referenceObj : json) {struct referenceObj} : outcome json :=
  match referenceObj with
  | JObj props => eachName objKeyMatch props obj
  | JArr items => eachIndex objKeyMatch 0 items obj
  | JStr s => if bool_decide (s = "") then Done obj else Beyond
  | JNull | JBool _ | JNum _ => Done obj
  end.

Definition words (l : list string) : json := JArr (JStr <$> l).

(** [DEFAULT_CONFIG], the copy of the table the module starts with. *)
Definition DEFAULT_CONFIG_JSON : json :=
  JObj [
    ("isMeta", JNum 10); ("isSVG", JNum 0.5); ("isJPG", JNum 0.5);
    ("isGIF", JNum 0.5); ("isPNG", JNum 0.5);
    ("docTitleFactors",
       JObj [("imgTitle", JNum 1); ("imgSrc", JNum 1); ("imgFname", JNum 1)]);
    ("queryFactors",
       JObj [("imgTitle", JNum 6); ("imgSrc", JNum 6); ("imgFname", JNum 6)]);
    ("goodWordMatch", JNum 0.3); ("badWordMatch", JNum (-2));
    ("badWordMatchFname", JNum (-2));
    ("size",
       JObj [("idealWidth", JNum 200); ("idealHeight", JNum 100);
             ("ratioWeight", JNum 0.35); ("smallerWeight", JNum 7);
             ("largerWeight", JNum 0.25)]);
    ("goodWords", words ImageScore.defaultGoodWords);
    ("badWords", words ImageScore.defaultBadWords);
    ("badFilenames", words ImageScore.defaultBadFilenames) ].

(** [!config] *)
Definition falsy (config : json) : bool :=
  match config with
  | JNull | JBool false => true
  | JNum n => Qeq_bool n 0
  | JStr s => bool_decide (s = "")
  | _ => false
  end.

(** [setConfig(config)]: the table [SCORE_CONFIG] after the call. *)
Definition setConfig (config : json) (SCORE_CONFIG : json) : outcome json :=
  if falsy config then Done SCORE_CONFIG
  else
    match objKeyMatch config DEFAULT_CONFIG_JSON with
    | Done config' => Done (cpobj config')
    | Throws => Throws
    | Beyond => Beyond
    end.

(** *** The table as the scorer reads it *)

Definition number (props : list (string * json)) (name : string) : option Q :=
  match lookupProp name props with
  | Some (JNum n) => Some n
  | _ => None
  end.

Definition factorsOf (props : list (string * json)) (name : string)
    : option ImageScore.Config.factors :=
  match lookupProp name props with
  | Some (JObj f) =>
      a ← number f "imgTitle"; b ← number f "imgSrc"; c ← number f "imgFname";
      Some (ImageScore.Config.Factors a b c)
  | _ => None
  end.

Definition sizingOf (props : list (string * json)) (name : string)
    : option ImageScore.Config.sizing :=
  match lookupProp name props with
  | Some (JObj f) =>
      a ← number f "idealWidth"; b ← number f "idealHeight";
      c ← number f "ratioWeight"; d ← number f "smallerWeight";
      e ← number f "largerWeight";
      Some (ImageScore.Config.Sizing a b c d e)
  | _ => None
  end.

Definition wordsOf (props : list (string * json)) (name : string)
    : option (list string) :=
  match lookupProp name props with
  | Some (JArr items) =>
      mapM (λ v, match v with JStr s => Some s | _ => None end) items
  | _ => None
  end.

(** The scoring table an object stands for, when every field the scorer
    reads has the type the scorer expects. *)
Definition readConfig (config : json) : option ImageScore.Config.t :=
  match config with
  | JObj props =>
      isMeta ← number props "isMeta"; isSVG ← number props "isSVG";
      isJPG ← number props "isJPG"; isGIF ← number props "isGIF";
      isPNG ← number props "isPNG";
      docTitleFactors ← factorsOf props "docTitleFactors";
      queryFactors ← factorsOf props "queryFactors";
      goodWordMatch ← number props "goodWordMatch";
      badWordMatch ← number props "badWordMatch";
      badWordMatchFname ← number props "badWordMatchFname";
      size ← sizingOf props "size";
      goodWords ← wordsOf props "goodWords";
      badWords ← wordsOf props "badWords";
      badFilenames ← wordsOf props "badFilenames";
      Some (ImageScore.Config.Make isMeta isSVG isJPG isGIF isPNG docTitleFactors
              queryFactors goodWordMatch badWordMatch badWordMatchFname size
              goodWords badWords badFilenames)
  | _ => None
  end.

End ConfigObject.

(** ** [resolveRelativeUrl] over any resolver *)

Module RelativeUrl.
Import JsString CheckImageUrl.

Section Resolver.

(** [new url.URL(s)] does not throw. *)
Variable validURL : string → bool.
(** [url.parse(s).protocol], [.hostname] and [.pathname]; [None] is [null]. *)
Variables protocolOf hostnameOf pathnameOf : string → option string.
(** [process.env.NODE_ENV === "test"] *)
Variable testEnv : bool.
(** The calls [getImageSize] makes to its callback for an address. *)
Variable sizeCalls : string → list (option string * option dimensions).
(** The entry the callback data bus holds for an address. *)
Variable busEntry : string → option (option string * option dimensions).
(** [url.resolve] of the platform's [url] module, whatever it computes. *)
Variable url_resolve : string → string → string.

(** [resolveRelativeUrl(sourceUrl, imageUrl, callback)], with the result
    of [url.resolve] left to the platform; [withCallback] tells whether a
    callback was passed. *)
Definition resolveRelativeUrl (sourceUrl imageUrl : string) (withCallback : bool)
    : resolved :=
  let newImg := url_resolve sourceUrl imageUrl in
  if negb (bool_decide (newImg = "")) && withCallback && negb testEnv then
    match callbackOf (checkImageUrl validURL testEnv sizeCalls busEntry newImg) with
    | Some (err, _) =>
        if truthy err
        then CalledBack (default "null" (protocolOf sourceUrl) +:+ "//" +:+
                         default "null" (hostnameOf sourceUrl) +:+ "/" +:+
                         default "null" (pathnameOf imageUrl))
        else CalledBack newImg
    | None => NeverCalledBack
    end
  else if withCallback then CalledBack newImg
  else Returned newImg.

End Resolver.

End RelativeUrl.

(** * Properties *)

Module JsStringFacts.
Import JsString.

Fixpoint hasChar (c : ascii) (s : string) : bool :=
  match s with
  | "" => false
  | String a s' => bool_decide (a = c) || hasChar c s'
  end.

(** [w] occurs somewhere in [s]. *)
Fixpoint occurs (w s : string) : bool :=
  startsWith w s ||
  match s with
  | "" => false
  | String _ s' => occurs w s'
  end.

Lemma append_nil b : "" +:+ b = b.
Proof. reflexivity. Qed.

Lemma append_cons c a b : String c a +:+ b = String c (a +:+ b).
Proof. reflexivity. Qed.

Lemma len_app a b : len (a +:+ b) = len a + len b.
Proof.
  unfold len. induction a as [|c a IH]; [rewrite append_nil; simpl; lia|].
  rewrite append_cons. simpl String.length. lia.
Qed.

Lemma len_nonneg s : 0 <= len s.
Proof. unfold len. lia. Qed.

Lemma len_cons c s : len (String c s) = 1 + len s.
Proof. unfold len. simpl String.length. lia. Qed.

Lemma toLowerCase_app a b : toLowerCase (a +:+ b) = toLowerCase a +:+ toLowerCase b.
Proof.
  induction a as [|c a IH]; [done|].
  rewrite append_cons. simpl. by rewrite IH.
Qed.

Lemma startsWith_len w s : startsWith w s = true → len w <= len s.
Proof.
  revert s. induction w as [|a w IH]; intros s; simpl.
  { intros _. apply len_nonneg. }
  destruct s as [|b s]; [discriminate|]. case_decide as Hab; [|discriminate].
  intros Hw%IH. rewrite !len_cons. lia.
Qed.

Lemma startsWith_same_len w s : startsWith w s = true → len s = len w → s = w.
Proof.
  revert s. induction w as [|a w IH]; intros s; simpl.
  { intros _. destruct s; [done|]. rewrite len_cons. pose proof (len_nonneg s).
    unfold len at 2. simpl. lia. }
  destruct s as [|b s]; [discriminate|]. case_decide as Hab; [|discriminate].
  intros Hw. rewrite !len_cons. intros Hl. subst b. f_equal. apply IH; [done | lia].
Qed.

Lemma startsWith_refl w : startsWith w w = true.
Proof. induction w as [|a w IH]; simpl; [done|]. by rewrite decide_True. Qed.

Lemma startsWith_app w s : startsWith w (w +:+ s) = true.
Proof. induction w as [|a w IH]; simpl; [done|]. by rewrite decide_True. Qed.

(** A word without the character [d] cannot reach across a [d]. *)
Lemma startsWith_app_nochar w b d e :
  hasChar d w = false → startsWith w (b +:+ String d e) = startsWith w b.
Proof.
  revert b. induction w as [|a w IH]; intros b; simpl; [done|].
  intros [Had Hw]%orb_false_elim. apply bool_decide_eq_false in Had.
  destruct b as [|c b]; simpl.
  - by rewrite decide_False.
  - case_decide; [by apply IH | done].
Qed.

Lemma occurs_nil w : occurs w "" = startsWith w "".
Proof. simpl. apply orb_false_r. Qed.

Lemma occurs_cons w c s :
  occurs w (String c s) = startsWith w (String c s) || occurs w s.
Proof. reflexivity. Qed.

Lemma occurs_app_nochar w b d e :
  hasChar d w = false → occurs w e = false →
  occurs w (b +:+ String d e) = occurs w b.
Proof.
  intros Hd He. induction b as [|c b IH].
  - rewrite append_nil, occurs_cons, occurs_nil, He, orb_false_r.
    by rewrite <- (startsWith_app_nochar w "" d e Hd).
  - rewrite append_cons, !occurs_cons, IH. f_equal.
    rewrite <- append_cons. by apply startsWith_app_nochar.
Qed.

Lemma indexOfFrom_occurs i w s :
  (0 <= i)%Z →
  (occurs w s = true ∧ i <= indexOfFrom i w s) ∨
  (occurs w s = false ∧ indexOfFrom i w s = -1).
Proof.
  revert i. induction s as [|c s IH]; intros i Hi.
  - simpl. destruct (startsWith w ""); [left | right]; split; simpl; done || lia.
  - simpl indexOfFrom. simpl occurs.
    destruct (startsWith w (String c s)); simpl; [left; split; [done | lia]|].
    destruct (IH (i + 1)) as [[-> ?]|[-> ?]]; [lia | left; split; [done | lia] | by right].
Qed.

Lemma includes_occurs w s : includes w s = occurs w s.
Proof.
  unfold includes, indexOf.
  destruct (indexOfFrom_occurs 0 w s) as [[-> ?]|[-> ->]]; [lia | |].
  - apply bool_decide_eq_true_2. lia.
  - apply bool_decide_eq_false_2. lia.
Qed.

(** *** [lastIndexOf] *)

Lemma lastIndexOfFrom_short i w s :
  len s < len w → lastIndexOfFrom i w s = -1.
Proof.
  revert i. induction s as [|c s IH]; intros i Hlt; simpl.
  - destruct w; [|done]. unfold len in Hlt. simpl in Hlt. lia.
  - rewrite len_cons in Hlt. rewrite IH by lia.
    rewrite bool_decide_eq_false_2 by lia.
    destruct (startsWith w (String c s)) eqn:Hs; [|done].
    apply startsWith_len in Hs. rewrite len_cons in Hs. lia.
Qed.

Lemma lastIndexOfFrom_self_suffix i w b :
  0 <= i → 0 < len w → lastIndexOfFrom i w (b +:+ w) = i + len b.
Proof.
  intros Hi Hw. revert i Hi. induction b as [|c b IH]; intros i Hi.
  - change ("" +:+ w) with w. destruct w as [|a w].
    { unfold len in Hw. simpl in Hw. lia. }
    simpl lastIndexOfFrom. rewrite lastIndexOfFrom_short by (rewrite len_cons; lia).
    rewrite bool_decide_eq_false_2 by lia.
    rewrite decide_True by done. rewrite startsWith_refl. unfold len. simpl. lia.
  - change (String c b +:+ w) with (String c (b +:+ w)).
    simpl lastIndexOfFrom. rewrite IH by lia.
    pose proof (len_nonneg b).
    rewrite bool_decide_eq_true_2 by lia. rewrite len_cons. lia.
Qed.

(** What a position returned by [lastIndexOf] stands for. *)
Lemma lastIndexOfFrom_sound i w s :
  0 <= i →
  lastIndexOfFrom i w s = -1 ∨
  (i <= lastIndexOfFrom i w s ∧
   ∃ p q, s = p +:+ q ∧ len p = lastIndexOfFrom i w s - i ∧ startsWith w q = true).
Proof.
  revert i. induction s as [|c s IH]; intros i Hi; simpl.
  - destruct (startsWith w "") eqn:Hw; [|by left].
    right. split; [lia|]. exists "", "". split; [done|]. split; [|done].
    unfold len. simpl. lia.
  - destruct (IH (i + 1)) as [->|(Hle & p & q & -> & Hp & Hq)]; [lia | |].
    + rewrite bool_decide_eq_false_2 by lia.
      destruct (startsWith w (String c s)) eqn:Hw; [|by left].
      right. split; [lia|]. exists "", (String c s). split; [done|].
      split; [|done]. unfold len. simpl. lia.
    + rewrite bool_decide_eq_true_2 by lia. right. split; [lia|].
      exists (String c p), q. split; [done|]. split; [|done].
      rewrite len_cons. lia.
Qed.

Lemma lastIndexOfFrom_upper i w s :
  0 <= i → lastIndexOfFrom i w s <= i + len s.
Proof.
  intros Hi. destruct (lastIndexOfFrom_sound i w s Hi) as [->|(_ & p & q & -> & Hp & _)].
  - pose proof (len_nonneg s). lia.
  - rewrite len_app. pose proof (len_nonneg q). lia.
Qed.

(** [lastIndexOf(w) + w.length === s.length] holds when [s] ends with [w],
    and also when [w] does not occur and [s] is one character shorter. *)
Lemma lastIndexOf_at_end w s :
  lastIndexOf w s + len w = len s →
  (lastIndexOf w s = -1 ∧ len s = len w - 1) ∨ ∃ p, s = p +:+ w.
Proof.
  unfold lastIndexOf. intros Heq.
  destruct (lastIndexOfFrom_sound 0 w s) as [Hr|(Hle & p & q & -> & Hp & Hq)]; [lia | |].
  - left. split; [done | lia].
  - right. exists p. f_equal. apply startsWith_same_len; [done|].
    rewrite len_app in Heq. lia.
Qed.

Lemma app_suffix b t p w :
  b +:+ t = p +:+ w → len t <= len w → ∃ x, w = x +:+ t.
Proof.
  revert p. induction b as [|c b IH]; intros p Heq Hlen.
  - change ("" +:+ t) with t in Heq. subst t. rewrite len_app in Hlen.
    destruct p as [|a p]; [by exists ""|].
    rewrite len_cons in Hlen. pose proof (len_nonneg p). lia.
  - destruct p as [|a p].
    + change ("" +:+ w) with w in Heq. subst w. by exists (String c b).
    + injection Heq as _ Heq. by apply IH in Heq.
Qed.

Lemma drop_app_length x t : drop (String.length x) (x +:+ t) = t.
Proof. induction x as [|a x IH]; simpl; [by destruct t | done]. Qed.

Lemma drop_app_le n b e :
  (n <= String.length b)%nat → drop n (b +:+ e) = drop n b +:+ e.
Proof.
  revert n. induction b as [|c b IH]; intros n Hn.
  - simpl in Hn. assert (n = 0%nat) as -> by lia. simpl. by destruct e.
  - destruct n as [|n]; [done|]. simpl. apply IH. simpl in Hn. lia.
Qed.

Lemma drop_app_ge n b e :
  (String.length b <= n)%nat → drop n (b +:+ e) = drop (n - String.length b) e.
Proof.
  revert n. induction b as [|c b IH]; intros n Hn.
  - change ("" +:+ e) with e. simpl. by rewrite Nat.sub_0_r.
  - destruct n as [|n]; [simpl in Hn; lia|]. simpl. apply IH. simpl in Hn. lia.
Qed.

End JsStringFacts.

Module DocImageParseFacts.
Import DocImageParse.

Lemma metaCandidate_isMeta e v : isMeta (metaCandidate e v) = true.
Proof. reflexivity. Qed.

Lemma metaCandidate_src e v : attribs (metaCandidate e v) !! "src" = Some v.
Proof. unfold metaCandidate; simpl. apply lookup_insert_eq. Qed.

Lemma truthy_Some o : truthy o = true → ∃ v, o = Some v ∧ v ≠ "".
Proof.
  destruct o as [v|]; simpl; [|discriminate].
  intros H. exists v. split; [done|]. intros ->. discriminate.
Qed.

(** What it means for a candidate to come from a matched element: it is
    flagged as meta and its address is a copy of the [content] attribute. *)
Definition fromMeta (doc : list element) (c : image) : Prop :=
  isMeta c = true ∧
  ∃ e v, e ∈ select metaSelector doc ∧ elAttribs e !! "content" = Some v ∧
         attribs c !! "src" = Some v ∧ attribs c = <["src" := v]> (elAttribs e).

(** C10.  When the first element matched by the meta-tag query has no
    [content] attribute, [getMetaImages] returns the empty list, whatever the
    later matches carry.  In every case it returns at most two candidates,
    each flagged [isMeta] and with [src] copied from the [content] attribute
    of a matched element. *)
Theorem getMetaImages_first_match_decides (doc : list element) :
  (∀ e0 rest, select metaSelector doc = e0 :: rest →
              elAttribs e0 !! "content" = None → getMetaImages doc = []) ∧
  (length (getMetaImages doc) ≤ 2)%nat ∧
  Forall (fromMeta doc) (getMetaImages doc).
Proof.
  unfold getMetaImages, fromMeta.
  destruct (select metaSelector doc) as [|e0 rest] eqn:Hsel.
  { split; [intros; discriminate|]. split; [simpl; lia | constructor]. }
  split.
  { intros e0' rest' [= <- <-] Hnone. by rewrite Hnone. }
  destruct (truthy (elAttribs e0 !! "content")) eqn:Ht.
  2:{ split; [simpl; lia | constructor]. }
  apply truthy_Some in Ht as (v & Hv & _). rewrite Hv. simpl.
  assert (Hfirst : isMeta (metaCandidate e0 v) = true ∧
    ∃ e w, e ∈ e0 :: rest ∧ elAttribs e !! "content" = Some w ∧
           attribs (metaCandidate e0 v) !! "src" = Some w ∧
           attribs (metaCandidate e0 v) = <["src" := w]> (elAttribs e)).
  { split; [done|]. exists e0, v. repeat split; [apply list_elem_of_here | done |].
    apply metaCandidate_src. }
  destruct rest as [|e1 rest'].
  { split; [simpl; lia|]. constructor; [exact Hfirst | constructor]. }
  destruct (elAttribs e1 !! "content") as [w|] eqn:Hw.
  2:{ split; [simpl; lia|]. constructor; [exact Hfirst | constructor]. }
  split; [simpl; lia|].
  constructor; [done|]. constructor; [|constructor].
  split; [done|]. exists e1, w.
  repeat split; [apply list_elem_of_further, list_elem_of_here | done |].
  apply metaCandidate_src.
Qed.

(** A document whose first curated tag lacks [content] while the second
    carries one: no meta candidate is produced. *)
Definition docFirstWithoutContent : list element :=
  [ Element "meta" {[ "property" := "og:image" ]};
    Element "meta" (<["name" := "twitter:image"]> {[ "content" := "/twitterimage.jpg" ]}) ].

Lemma getMetaImages_first_match_decides_witness :
  getMetaImages docFirstWithoutContent = [].
Proof.
  eapply (proj1 (getMetaImages_first_match_decides docFirstWithoutContent)).
  - vm_compute. reflexivity.
  - vm_compute. reflexivity.
Defined.

End DocImageParseFacts.

Module DedupFacts.
Import DocImageParse BestImage.

(** The key under which the extractor files a raw candidate. *)
Definition rawKey (obj : image) : string := propertyKey (attribs obj !! "src").

(** [c] stands in [arr] with no candidate of the same address before it. *)
Definition firstOccurrence (arr : list image) (c : image) : Prop :=
  ∃ pre post, arr = pre ++ c :: post ∧ srcKey c ∉ (srcKey <$> pre).

(** [c] stands in [arr] with no candidate of the same address after it. *)
Definition lastOccurrence (arr : list image) (c : image) : Prop :=
  ∃ pre post, arr = pre ++ c :: post ∧ srcKey c ∉ (srcKey <$> post).

(** [c] is the flattened form of the first raw candidate with its address. *)
Definition firstRawOccurrence (t : string) (q : option string)
    (images : list image) (c : image) : Prop :=
  ∃ pre o post, images = pre ++ o :: post ∧ c = flatten t q o ∧
                rawKey o ∉ (rawKey <$> pre).

Lemma srcKey_flatten t q o : srcKey (flatten t q o) = rawKey o.
Proof. reflexivity. Qed.

Section Extractor.
Variables (t : string) (q : option string).

Lemma imgCheckHas_true S k :
  imgCheckHas S k = true ↔ k ∈ S ∨ k ∈ objectPrototypeKeys.
Proof.
  unfold imgCheckHas. rewrite orb_true_iff, !bool_decide_eq_true. tauto.
Qed.

Lemma flattenLoop_keys S images k :
  k ∈ (srcKey <$> flattenLoop t q S images) ↔
  k ∈ (rawKey <$> images) ∧ (k ∉ S) ∧ (k ∉ objectPrototypeKeys).
Proof.
  revert S. induction images as [|o rest IH]; intros S; simpl.
  { rewrite !elem_of_nil. tauto. }
  fold (rawKey o).
  destruct (imgCheckHas S (rawKey o)) eqn:Hhas.
  - apply imgCheckHas_true in Hhas. rewrite IH, elem_of_cons.
    split; [tauto|]. intros ([->|?] & ? & ?); [tauto | tauto].
  - assert (Hnot : ¬ (rawKey o ∈ S ∨ rawKey o ∈ objectPrototypeKeys)).
    { rewrite <- imgCheckHas_true. congruence. }
    rewrite fmap_cons, srcKey_flatten, !elem_of_cons, IH.
    rewrite elem_of_union, elem_of_singleton.
    destruct (decide (k = rawKey o)) as [->|Hne]; tauto.
Qed.

Lemma flattenLoop_NoDup S images : NoDup (srcKey <$> flattenLoop t q S images).
Proof.
  revert S. induction images as [|o rest IH]; intros S; simpl.
  { constructor. }
  fold (rawKey o). destruct (imgCheckHas S (rawKey o)); [apply IH|].
  rewrite fmap_cons, srcKey_flatten. apply NoDup_cons. split; [|apply IH].
  rewrite flattenLoop_keys. set_solver.
Qed.

Lemma flattenLoop_first S images c :
  c ∈ flattenLoop t q S images → firstRawOccurrence t q images c.
Proof.
  revert S. induction images as [|o rest IH]; intros S; simpl.
  { intros []%elem_of_nil. }
  fold (rawKey o). destruct (imgCheckHas S (rawKey o)) eqn:Hhas.
  - intros Hc. destruct (IH _ Hc) as (pre & o' & post & -> & -> & Hpre).
    exists (o :: pre), o', post. repeat split.
    rewrite fmap_cons, elem_of_cons. intros [Heq|?]; [|done].
    apply (list_elem_of_fmap_2 srcKey) in Hc.
    rewrite flattenLoop_keys, srcKey_flatten, Heq in Hc.
    apply imgCheckHas_true in Hhas. tauto.
  - intros [->|Hc]%elem_of_cons.
    { exists [], o, rest. repeat split. simpl. apply not_elem_of_nil. }
    destruct (IH _ Hc) as (pre & o' & post & -> & -> & Hpre).
    exists (o :: pre), o', post. repeat split.
    rewrite fmap_cons, elem_of_cons. intros [Heq|?]; [|done].
    apply (list_elem_of_fmap_2 srcKey) in Hc.
    rewrite flattenLoop_keys, srcKey_flatten, Heq in Hc. set_solver.
Qed.
End Extractor.

(** *** The table of [deDupeImageArray] *)

Lemma tableSet_keys k v obj :
  fst <$> tableSet k v obj =
  if bool_decide (k ∈ (fst <$> obj)) then fst <$> obj else (fst <$> obj) ++ [k].
Proof.
  induction obj as [|[k' v'] obj IH]; [done|].
  cbn [tableSet]. destruct (decide (k = k')) as [->|Hne].
  - rewrite !fmap_cons. cbn [fst].
    rewrite bool_decide_eq_true_2 by apply list_elem_of_here. done.
  - rewrite !fmap_cons, IH. cbn [fst].
    destruct (decide (k ∈ (fst <$> obj))) as [Hin|Hin].
    + rewrite !bool_decide_eq_true_2; [done | by apply list_elem_of_further | done].
    + rewrite !bool_decide_eq_false_2; [done | | done].
      rewrite elem_of_cons. tauto.
Qed.

Lemma tableSet_NoDup k v obj :
  NoDup (fst <$> obj) → NoDup (fst <$> tableSet k v obj).
Proof.
  intros Hnd. rewrite tableSet_keys. case_bool_decide; [done|].
  apply NoDup_app. split; [done|]. split; [|apply NoDup_singleton].
  intros x Hx ->%list_elem_of_singleton. done.
Qed.

Lemma tableSet_elem k v obj k' v' :
  NoDup (fst <$> obj) →
  (k', v') ∈ tableSet k v obj ↔
  (k' = k ∧ v' = v) ∨ (k' ≠ k ∧ (k', v') ∈ obj).
Proof.
  induction obj as [|[k0 v0] obj IH]; simpl; intros Hnd.
  { rewrite list_elem_of_singleton, elem_of_nil. naive_solver. }
  apply NoDup_cons in Hnd as [Hk0 Hnd].
  destruct (decide (k = k0)) as [->|Hne].
  - rewrite !elem_of_cons. split.
    + intros [[= -> ->]|Hin]; [tauto|]. right. split; [|tauto].
      intros ->. apply Hk0. by apply (list_elem_of_fmap_2 fst) in Hin.
    + intros [[-> ->]|[Hne [[= -> ->]|Hin]]]; [by left | done | by right].
  - rewrite !elem_of_cons, IH by done. split.
    + intros [[= -> ->]|[[-> ->]|[? ?]]]; [right; split; [congruence|by left] | by left |].
      right. split; [done | by right].
    + intros [[-> ->]|[? [[= -> ->]|?]]]; [right; by left | by left |].
      right. right. by split.
Qed.

Definition fill (arr : list image) : table :=
  foldl (λ obj img, tableSet (srcKey img) img obj) [] arr.

Lemma fill_NoDup arr : NoDup (fst <$> fill arr).
Proof.
  unfold fill. induction arr as [|x arr IH] using rev_ind; simpl.
  { constructor. }
  rewrite foldl_snoc. by apply tableSet_NoDup.
Qed.

Lemma fill_elem arr k v :
  (k, v) ∈ fill arr ↔ srcKey v = k ∧ lastOccurrence arr v.
Proof.
  unfold lastOccurrence.
  revert k v. induction arr as [|x arr IH] using rev_ind; intros k v.
  { unfold fill; simpl. rewrite elem_of_nil. split; [done|].
    intros (_ & pre & post & Heq & _). by destruct pre. }
  unfold fill. rewrite foldl_snoc. fold (fill arr).
  rewrite tableSet_elem by apply fill_NoDup. rewrite IH. split.
  - intros [[-> ->]|(Hne & <- & pre & post & -> & Hpost)].
    + split; [done|]. exists arr, []. split; [done|]. simpl. apply not_elem_of_nil.
    + split; [done|]. exists pre, (post ++ [x]). split; [by rewrite <- app_assoc|].
      rewrite fmap_app, elem_of_app. simpl. rewrite list_elem_of_singleton. tauto.
  - intros (<- & pre & post & Heq & Hpost).
    destruct post as [|y post _] using rev_ind.
    + apply app_inj_tail in Heq as [-> ->]. by left.
    + rewrite app_comm_cons, app_assoc in Heq. apply app_inj_tail in Heq as [-> ->].
      rewrite fmap_app, elem_of_app in Hpost. simpl in Hpost.
      rewrite list_elem_of_singleton in Hpost.
      right. split; [naive_solver|]. split; [done|]. exists pre, post. tauto.
Qed.

Lemma insertByIndex_perm e l : insertByIndex e l ≡ₚ e :: l.
Proof.
  induction l as [|e' l IH]; simpl; [done|].
  destruct (e.1 <=? e'.1)%N; [done|]. rewrite IH. apply Permutation_swap.
Qed.

Lemma forIn_perm obj : forIn obj ≡ₚ obj.
Proof.
  unfold forIn, indexed, named. induction obj as [|kv obj IH]; [done|].
  rewrite filter_cons. cbn [omap list_omap].
  destruct (arrayIndex kv.1) as [n|] eqn:Hidx.
  - rewrite decide_False by done. cbn [foldr].
    rewrite insertByIndex_perm, fmap_cons. cbn [snd app]. by rewrite IH.
  - rewrite decide_True by done. rewrite <- Permutation_middle. by rewrite IH.
Qed.

Lemma fill_key arr kv : kv ∈ fill arr → srcKey kv.2 = kv.1.
Proof. destruct kv as [k v]. rewrite fill_elem. tauto. Qed.

Lemma forIn_fill_keys arr : srcKey <$> (snd <$> forIn (fill arr)) = fst <$> forIn (fill arr).
Proof.
  rewrite <- list_fmap_compose. apply list_fmap_ext.
  intros i kv Hkv. simpl. apply (fill_key arr).
  rewrite <- (forIn_perm (fill arr)). by apply list_elem_of_lookup_2 in Hkv.
Qed.

Lemma last_with_key arr k :
  k ∈ (srcKey <$> arr) → ∃ v, srcKey v = k ∧ lastOccurrence arr v.
Proof.
  unfold lastOccurrence. induction arr as [|x arr IH] using rev_ind.
  { intros []%elem_of_nil. }
  rewrite fmap_app, elem_of_app. simpl. rewrite list_elem_of_singleton.
  destruct (decide (srcKey x = k)) as [Hx|Hx].
  - intros _. exists x. split; [done|]. exists arr, []. split; [done|].
    simpl. apply not_elem_of_nil.
  - intros [Hin|Heq]; [|congruence].
    destruct (IH Hin) as (v & <- & pre & post & -> & Hpost).
    exists v. split; [done|]. exists pre, (post ++ [x]).
    split; [by rewrite <- app_assoc|].
    rewrite fmap_app, elem_of_app. simpl. rewrite list_elem_of_singleton.
    intros [?|?]; [done | congruence].
Qed.

(** *** Addresses and the names they are filed under *)

(** The address a raw candidate carries, if it carries one. *)
Definition rawSrc (o : image) : option string := attribs o !! "src".

(** A candidate without [src] is filed under the name ["undefined"], and
    so is a candidate whose [src] is the string ["undefined"]: a list of
    addresses is unambiguous when it does not hold both. *)
Definition unambiguous (srcs : list (option string)) : Prop :=
  None ∈ srcs → Some "undefined" ∉ srcs.

(** Each distinct address of the input occurs exactly once in the output. *)
Definition eachSrcOnce (inSrcs outSrcs : list (option string)) : Prop :=
  NoDup outSrcs ∧ ∀ s, s ∈ outSrcs ↔ s ∈ inSrcs.

(** [c] stands in [arr] with no candidate of the same [src] after it. *)
Definition lastWithSrc (arr : list image) (c : image) : Prop :=
  ∃ pre post, arr = pre ++ c :: post ∧ src c ∉ (src <$> post).

(** [c] is the flattened form of the first raw candidate with its [src]. *)
Definition firstRawWithSrc (t : string) (q : option string)
    (images : list image) (c : image) : Prop :=
  ∃ pre o post, images = pre ++ o :: post ∧ c = flatten t q o ∧
                rawSrc o ∉ (rawSrc <$> pre).

Lemma propertyKey_unambiguous srcs a b :
  unambiguous srcs → a ∈ srcs → b ∈ srcs → propertyKey a = propertyKey b → a = b.
Proof.
  intros Hsrcs Ha Hb. destruct a as [x|], b as [y|]; simpl.
  - by intros ->.
  - intros ->. by destruct (Hsrcs Hb).
  - intros <-. by destruct (Hsrcs Ha).
  - done.
Qed.

Lemma propertyKey_ordinary (names : list string) (o : option string) :
  "undefined" ∉ names → (∀ s, o = Some s → s ∉ names) → propertyKey o ∉ names.
Proof. intros Hundef Ho. destruct o as [s|]; simpl; [by apply Ho | done]. Qed.

(** C6 (amended).  Both de-duplication passes output each distinct [src]
    exactly once.  The extractor's pass keeps, for every [src], the first
    candidate that carries it (flattened); [deDupeImageArray] keeps the last
    one.  The extractor is taken on addresses that are not names inherited
    from [Object.prototype], the orchestrator on addresses other than
    ["__proto__"], and both on lists that do not hold a candidate without
    [src] together with a candidate whose [src] is the string
    ["undefined"] (the two would be filed under one name). *)
Theorem dedupe_each_src_once (t : string) (q : option string)
    (images arr : list image) :
  Forall (λ o, ∀ s, rawSrc o = Some s → s ∉ objectPrototypeKeys) images →
  unambiguous (rawSrc <$> images) →
  Some "__proto__" ∉ (src <$> arr) →
  unambiguous (src <$> arr) →
  (eachSrcOnce (rawSrc <$> images) (src <$> flattenLoop t q ∅ images) ∧
   ∀ c, c ∈ flattenLoop t q ∅ images → firstRawWithSrc t q images c) ∧
  (∃ out, deDupeImageArray arr = Some out ∧
          eachSrcOnce (src <$> arr) (src <$> out) ∧
          ∀ c, c ∈ out → lastWithSrc arr c).
Proof.
  intros Himages Hraw Harr Hsrc. split.
  - assert (Hkeys : ∀ k, k ∈ (srcKey <$> flattenLoop t q ∅ images) ↔
                         k ∈ (rawKey <$> images)).
    { intros k. rewrite flattenLoop_keys. split; [tauto|].
      intros Hk. split; [done|]. split; [set_solver|].
      apply list_elem_of_fmap in Hk as (o & -> & Ho).
      rewrite Forall_forall in Himages. apply propertyKey_ordinary.
      - refine (bool_decide_unpack _ _). vm_compute. exact I.
      - by apply Himages. }
    assert (Hfrom : ∀ c, c ∈ flattenLoop t q ∅ images →
                         ∃ o, o ∈ images ∧ c = flatten t q o).
    { intros c (pre & o & post & -> & -> & _)%flattenLoop_first.
      exists o. split; [|done]. apply elem_of_app. right. apply list_elem_of_here. }
    assert (Hin : ∀ s, s ∈ (src <$> flattenLoop t q ∅ images) → s ∈ (rawSrc <$> images)).
    { intros s (c & -> & (o & Ho & ->)%Hfrom)%list_elem_of_fmap.
      apply list_elem_of_fmap. by exists o. }
    split; [split|].
    + apply (NoDup_fmap_1 propertyKey). rewrite <- list_fmap_compose.
      apply flattenLoop_NoDup.
    + intros s. split; [apply Hin|].
      intros (o & -> & Ho)%list_elem_of_fmap.
      assert (Hk : rawKey o ∈ (srcKey <$> flattenLoop t q ∅ images)).
      { apply Hkeys. apply list_elem_of_fmap. by exists o. }
      apply list_elem_of_fmap in Hk as (c & Hkey & Hc).
      apply list_elem_of_fmap. exists c. split; [|done]. symmetry.
      apply (propertyKey_unambiguous (rawSrc <$> images)); [done | | | by symmetry].
      * apply Hin, list_elem_of_fmap. by exists c.
      * apply list_elem_of_fmap. by exists o.
    + intros c (pre & o & post & -> & -> & Hpre)%flattenLoop_first.
      exists pre, o, post. split; [done|]. split; [done|].
      intros (o' & Heq & Ho')%list_elem_of_fmap. apply Hpre.
      apply list_elem_of_fmap. exists o'. split; [|done]. unfold rawKey.
      fold (rawSrc o). fold (rawSrc o'). by rewrite Heq.
  - assert (Hproto : "__proto__" ∉ (srcKey <$> arr)).
    { intros (c & Hkey & Hc)%list_elem_of_fmap.
      destruct (src c) as [u|] eqn:Hu; unfold srcKey in Hkey; rewrite Hu in Hkey;
        simpl in Hkey; [|done].
      apply Harr. apply list_elem_of_fmap. exists c. split; [|done]. by rewrite Hu, Hkey. }
    unfold deDupeImageArray. rewrite bool_decide_eq_false_2 by done.
    fold (fill arr). eexists. split; [done|].
    assert (Hlast : ∀ c, c ∈ (snd <$> forIn (fill arr)) → lastOccurrence arr c).
    { intros c ((k & v) & -> & Hin)%list_elem_of_fmap. simpl.
      rewrite forIn_perm in Hin. by apply fill_elem in Hin as [_ ?]. }
    assert (Hin : ∀ s, s ∈ (src <$> (snd <$> forIn (fill arr))) → s ∈ (src <$> arr)).
    { intros s (c & -> & (pre & post & -> & _)%Hlast)%list_elem_of_fmap.
      rewrite fmap_app, fmap_cons. apply elem_of_app. right. apply list_elem_of_here. }
    split; [split|].
    + apply (NoDup_fmap_1 propertyKey). rewrite <- list_fmap_compose.
      change (propertyKey ∘ src) with srcKey.
      rewrite forIn_fill_keys, forIn_perm. apply fill_NoDup.
    + intros s. split; [apply Hin|].
      intros (x & -> & Hx)%list_elem_of_fmap.
      assert (Hk : srcKey x ∈ (srcKey <$> arr)) by (apply list_elem_of_fmap; by exists x).
      apply last_with_key in Hk as (v & Hkey & Hv).
      assert (Hvout : v ∈ (snd <$> forIn (fill arr))).
      { apply list_elem_of_fmap. exists (srcKey v, v). split; [done|].
        rewrite forIn_perm. by apply fill_elem. }
      apply list_elem_of_fmap. exists v. split; [|done]. symmetry.
      apply (propertyKey_unambiguous (src <$> arr)); [done | | | done].
      * apply Hin, list_elem_of_fmap. by exists v.
      * apply list_elem_of_fmap. by exists x.
    + intros c (pre & post & -> & Hpost)%Hlast.
      exists pre, post. split; [done|].
      intros (c' & Heq & Hc')%list_elem_of_fmap. apply Hpost.
      apply list_elem_of_fmap. exists c'. split; [|done]. unfold srcKey. by rewrite Heq.
Qed.

(** Two candidates with one address and different titles. *)
Definition firstSeen : image :=
  Image (<["title" := "first"]> {[ "src" := "http://a.com/x.jpg" ]}) false
        (Some "http://a.com/x.jpg") (Some "first") None None None None
        0 0 0 0 0 0 None None.
Definition secondSeen : image :=
  Image (<["title" := "second"]> {[ "src" := "http://a.com/x.jpg" ]}) false
        (Some "http://a.com/x.jpg") (Some "second") None None None None
        0 0 0 0 0 0 None None.

(** C6 as stated fails for [deDupeImageArray]: of two candidates with the
    same address it returns the one seen second, which is not a first
    occurrence. *)
Lemma deDupeImageArray_keeps_second :
  deDupeImageArray [firstSeen; secondSeen] = Some [secondSeen] ∧
  ¬ firstOccurrence [firstSeen; secondSeen] secondSeen.
Proof.
  split; [vm_compute; reflexivity|].
  intros (pre & post & Heq & Hpre).
  destruct pre as [|p pre]; simplify_eq/=.
  destruct pre as [|p' pre]; simplify_eq/=.
  - apply Hpre. vm_compute. apply list_elem_of_here.
  - destruct pre; simplify_eq/=.
Qed.

Lemma dedupe_each_src_once_witness :
  (eachSrcOnce (rawSrc <$> [firstSeen; secondSeen])
               (src <$> flattenLoop "t" None ∅ [firstSeen; secondSeen]) ∧
   ∀ c, c ∈ flattenLoop "t" None ∅ [firstSeen; secondSeen] →
        firstRawWithSrc "t" None [firstSeen; secondSeen] c) ∧
  (∃ out, deDupeImageArray [firstSeen; secondSeen] = Some out ∧
          eachSrcOnce (src <$> [firstSeen; secondSeen]) (src <$> out) ∧
          ∀ c, c ∈ out → lastWithSrc [firstSeen; secondSeen] c).
Proof.
  apply (dedupe_each_src_once "t" None [firstSeen; secondSeen] [firstSeen; secondSeen]).
  - repeat constructor; intros s [= <-]; refine (bool_decide_unpack _ _);
      vm_compute; exact I.
  - intros Hnone. vm_compute in Hnone.
    repeat (apply elem_of_cons in Hnone as [Hnone|Hnone]; [discriminate Hnone|]).
    by apply elem_of_nil in Hnone.
  - refine (bool_decide_unpack _ _). vm_compute. exact I.
  - intros Hnone. vm_compute in Hnone.
    repeat (apply elem_of_cons in Hnone as [Hnone|Hnone]; [discriminate Hnone|]).
    by apply elem_of_nil in Hnone.
Defined.

(** The ambiguity that is left out: a candidate without [src] hides a
    later candidate whose [src] is the string ["undefined"]. *)
Lemma extractor_drops_undefined :
  src <$> flattenLoop "t" None ∅ [newImage ∅ false; cssCandidate "undefined"] = [None].
Proof. vm_compute. reflexivity. Qed.

(** Why the extractor is taken on ordinary addresses: an address that is a
    name inherited from [Object.prototype] looks as if it had been seen
    already, and its candidate is dropped. *)
Lemma extractor_drops_inherited_name :
  flattenLoop "t" None ∅ [cssCandidate "constructor"; cssCandidate "logo.png"] =
  [flatten "t" None (cssCandidate "logo.png")].
Proof. vm_compute. reflexivity. Qed.

(** The order of the output of [deDupeImageArray]: first appearance, except
    that addresses that read as array indices come first, in numeric order. *)
Definition withSrc (u : string) : image :=
  Image ∅ false (Some u) None None None None None 0 0 0 0 0 0 None None.

Lemma deDupeImageArray_order :
  deDupeImageArray
    [withSrc "test"; withSrc "10"; withSrc "hello"; withSrc "9"; withSrc "test"] =
  Some [withSrc "9"; withSrc "10"; withSrc "test"; withSrc "hello"].
Proof. vm_compute. reflexivity. Qed.

End DedupFacts.

Module CheckImageUrlFacts.
Import JsString CheckImageUrl.

Lemma httpUrlPattern_data imgUrl :
  startsWith "data:" imgUrl = true → httpUrlPattern imgUrl = false.
Proof.
  destruct imgUrl as [|c imgUrl]; [discriminate|]. simpl.
  destruct (decide ("d"%char = c)) as [<-|]; [|discriminate]. intros _.
  unfold httpUrlPattern. apply andb_false_intro1, bool_decide_eq_false_2.
  destruct imgUrl as [|? [|? [|? ?]]]; discriminate.
Qed.

Section Validator.
Variable validURL : string → bool.
Variables protocolOf hostnameOf pathnameOf : string → option string.
Variable testEnv : bool.
Variable sizeOf : list Byte.byte → option dimensions.
Variable imageType : list Byte.byte → option string.
Variable sizeCalls : string → list (option string * option dimensions).
Variable busEntry : string → option (option string * option dimensions).

Local Abbreviation checkImageUrl := (checkImageUrl validURL testEnv sizeCalls busEntry).
Local Abbreviation _checkImageUrl := (_checkImageUrl testEnv sizeCalls).
Local Abbreviation resolveRelativeUrl :=
  (resolveRelativeUrl validURL protocolOf hostnameOf pathnameOf testEnv sizeCalls busEntry).
Local Abbreviation validation :=
  (validation validURL protocolOf pathnameOf sizeOf imageType).
Local Abbreviation handle := (handle sizeOf imageType).

Lemma checkImageUrl_skips_data (imgUrl : string) :
  startsWith "data:" imgUrl = true → checkImageUrl imgUrl = [].
Proof.
  intros Hdata. unfold CheckImageUrl.checkImageUrl.
  rewrite (httpUrlPattern_data _ Hdata). by destruct (negb _).
Qed.

(** C2, on the code.  For an address that starts with ["data:"] the inner
    [_checkImageUrl] does accept at once, without a fetch; but the public
    [checkImageUrl] never reaches it: the address fails the [http(s)]
    pattern, so nothing is fetched and the callback is never invoked. *)
Theorem checkImageUrl_data_uri_unanswered (imgUrl : string) :
  startsWith "data:" imgUrl = true →
  _checkImageUrl imgUrl = [Callback None (Some accepted)] ∧
  checkImageUrl imgUrl = [].
Proof.
  intros Hdata. split.
  - unfold CheckImageUrl._checkImageUrl. by rewrite Hdata.
  - by apply checkImageUrl_skips_data.
Qed.

(** C9.  The resolver, called without a callback, on the four references
    of the spec. *)
Theorem resolveRelativeUrl_examples :
  resolveRelativeUrl "http://a.com/p" "x.jpg" false = Returned "http://a.com/x.jpg" ∧
  resolveRelativeUrl "http://a.com/p" "/x.jpg" false = Returned "http://a.com/x.jpg" ∧
  resolveRelativeUrl "http://a.com/p" "//a.com/x.jpg" false = Returned "http://a.com/x.jpg" ∧
  resolveRelativeUrl "http://a.com/p" "" false = Returned "http://a.com/p".
Proof. repeat split; vm_compute; reflexivity. Qed.

(** *** The completion guard *)

Lemma exitKey_gone key ks : (exitKey key ks).1 !! key = None.
Proof.
  unfold exitKey. case_bool_decide as Hk; simpl.
  - apply lookup_delete_eq.
  - by apply eq_None_not_Some.
Qed.

Lemma guarded_spec key c m :
  keyStore (guarded key c m) !! key = None ∧
  calls (guarded key c m) =
    if bool_decide (is_Some (keyStore m !! key)) then calls m ++ [c] else calls m.
Proof.
  unfold guarded, exitKey. case_bool_decide as Hk; simpl.
  - split; [apply lookup_delete_eq | done].
  - split; [by apply eq_None_not_Some | done].
Qed.

(** While the key is in the store nothing has been called; afterwards at
    most one call has been made. *)
Definition claimedOnce (key : string) (m : machine) : Prop :=
  (is_Some (keyStore m !! key) → calls m = []) ∧ (length (calls m) ≤ 1)%nat.

Lemma guarded_claimedOnce key c m :
  claimedOnce key m → claimedOnce key (guarded key c m).
Proof.
  intros [Hfresh Hle]. destruct (guarded_spec key c m) as [Hgone Hcalls].
  split.
  - rewrite Hgone. by intros [? ?].
  - rewrite Hcalls. case_bool_decide as Hk; [|done].
    rewrite (Hfresh Hk). simpl. lia.
Qed.

Lemma updating_claimedOnce key status m k :
  (∀ m', keyStore m' !! key = Some status → calls m' = calls m →
         claimedOnce key m' → claimedOnce key (k m')) →
  claimedOnce key m → claimedOnce key (updating key status m k).
Proof.
  intros Hk [Hfresh Hle]. unfold updating, updateKey.
  case_bool_decide as Hin; [|done].
  apply Hk; simpl; [apply lookup_insert_eq | done |].
  split; simpl; [|done]. intros _. by apply Hfresh.
Qed.

(** Every handler that goes through [exitKey] before calling back keeps
    the guard: this covers all handlers of a request whose extension is
    one [image-size] supports. *)
Lemma handle_claimedOnce r m e :
  existenceOnly r = false →
  claimedOnce (thisKey r) m → claimedOnce (thisKey r) (handle r m e).
Proof.
  intros Hext Hm. destruct e as [|chunk| |e|e|]; simpl.
  - apply updating_claimedOnce; [|done]. by intros m' _ _ [? ?].
  - destruct (responded m); [|done]. unfold processData.
    apply updating_claimedOnce; [|by destruct Hm]. intros m1 _ _ Hm1.
    apply updating_claimedOnce; [|done]. intros m2 _ _ Hm2.
    destruct (sizeOf (chunks m2)); [done|].
    apply updating_claimedOnce; [|done]. by intros.
  - destruct (responded m); [|done]. unfold processFileEnd. rewrite Hext.
    destruct (sizeOf (chunks m)) as [ret|]; [|by apply guarded_claimedOnce].
    destruct (typeMismatch ret (ext r)); by apply guarded_claimedOnce.
  - destruct (responded m); [|done].
    apply updating_claimedOnce; [|done]. intros m' _ _ Hm'.
    case_bool_decide; [done | by apply guarded_claimedOnce].
  - case_bool_decide; [done | by apply guarded_claimedOnce].
  - by apply guarded_claimedOnce.
Qed.

Lemma supported_request_called_at_most_once r m events :
  existenceOnly r = false → claimedOnce (thisKey r) m →
  (length (calls (foldl (handle r) m events)) ≤ 1)%nat.
Proof.
  intros Hext. revert m. induction events as [|e events IH]; intros m Hm; simpl.
  - by destruct Hm.
  - apply IH. by apply handle_claimedOnce.
Qed.

(** C3, on the code.  A request for an address whose extension [image-size]
    does not support is completed twice when, after the response has begun
    and delivered bytes [image-type] does not recognise, the time-out fires
    and the response then ends: the time-out claims the key and calls back,
    and the end handler calls back again without consulting the result of
    [exitKey]. *)
Theorem completion_called_twice (imgUrl : string) (ks : gmap string string)
    (count : N) (chunk : list Byte.byte) :
  validURL imgUrl = true →
  isHttp protocolOf imgUrl = true →
  (extensionSupportedForSizing pathnameOf imgUrl).2 = false →
  imageType chunk = None →
  ks !! (imgUrl +:+ "[" +:+ pretty count +:+ "]") = None →
  calls (validation imgUrl ks count [Response; Data chunk; Timeout; End]) =
    [(Some "Timeout", None); (Some "bad image type", None)].
Proof.
  intros Hvalid Hhttp Hext Htype Hfresh.
  unfold CheckImageUrl.validation, getImageSize.
  rewrite Hvalid, Hhttp, Hext. simpl negb. cbv iota.
  set (key := imgUrl +:+ "[" +:+ pretty count +:+ "]") in *.
  unfold enterKey. rewrite bool_decide_eq_false_2 by (rewrite Hfresh; by intros [? ?]).
  assert (Hupd : ∀ status m k, is_Some (keyStore m !! key) →
            updating key status m k = k (withStore (<[key := status]> (keyStore m)) m)).
  { intros status m k Hin. unfold updating, updateKey.
    by rewrite bool_decide_eq_true_2. }
  rewrite Hupd by (simpl; rewrite lookup_insert_eq; eauto).
  cbn [foldl handle thisKey id].
  rewrite Hupd by (simpl; rewrite lookup_insert_eq; eauto).
  cbn [responded withResponse]. unfold processData.
  rewrite Hupd by (simpl; rewrite lookup_insert_eq; eauto).
  rewrite Hupd by (simpl; rewrite lookup_insert_eq; eauto).
  cbn [chunks withStore withChunks withResponse app].
  assert (Hstep : ∀ m, is_Some (keyStore m !! key) → responded m = true →
            chunks m = chunk → calls m = [] →
            calls (handle (Request key true (extensionSupportedForSizing pathnameOf imgUrl).1)
                     (guarded key (Some "Timeout", None) m) End) =
              [(Some "Timeout", None); (Some "bad image type", None)]).
  { intros m Hin Hresp Hchunks Hcalls. unfold guarded, exitKey.
    rewrite bool_decide_eq_true_2 by done.
    cbn [handle responded call withStore]. rewrite Hresp.
    unfold processFileEnd. cbn [existenceOnly chunks call withStore].
    rewrite Hchunks, Htype. cbn [calls call withStore]. by rewrite Hcalls. }
  destruct (sizeOf chunk).
  - apply Hstep; [simpl; rewrite lookup_insert_eq; eauto | done..].
  - rewrite Hupd by (simpl; rewrite lookup_insert_eq; eauto).
    apply Hstep; [simpl; rewrite lookup_insert_eq; eauto | done..].
Qed.

End Validator.

Lemma completion_called_twice_witness :
  calls (validation (λ _, true) (λ _, Some "http:") (λ _, Some "/banner.axf")
           (λ _, None) (λ _, None) "http://a.com/banner.axf" ∅ 1
           [Response; Data [Byte.x3c; Byte.x68; Byte.x31; Byte.x3e]; Timeout; End]) =
    [(Some "Timeout", None); (Some "bad image type", None)].
Proof.
  apply completion_called_twice; vm_compute; reflexivity.
Defined.

Lemma checkImageUrl_data_uri_unanswered_witness :
  _checkImageUrl true (λ _, []) "data:image/png;base64,iVBORw0KGgo=" =
    [Callback None (Some accepted)] ∧
  checkImageUrl (λ _, true) true (λ _, []) (λ _, None)
    "data:image/png;base64,iVBORw0KGgo=" = [].
Proof.
  apply (checkImageUrl_data_uri_unanswered (λ _, true) true (λ _, []) (λ _, None)
           "data:image/png;base64,iVBORw0KGgo=").
  vm_compute. reflexivity.
Defined.

End CheckImageUrlFacts.

Module ImageScoreFacts.
Import JsString ImageScore.
Local Open Scope Q_scope.

(** *** Normalisation *)

Lemma foldl_max_bounds (a : Q) (arr : list image) :
  let m := foldl (λ max item, Qmax max (score item)) a arr in
  a <= m ∧ (∀ x, x ∈ arr → score x <= m) ∧
  (m == a ∨ ∃ x, x ∈ arr ∧ m == score x).
Proof.
  revert a. induction arr as [|y arr IH]; intros a; simpl.
  { split; [apply Qle_refl|]. split; [by intros x ?%elem_of_nil | by left]. }
  destruct (IH (Qmax a (score y))) as (Hle & Hall & Hwit).
  split; [|split].
  - eapply Qle_trans; [apply Q.le_max_l | exact Hle].
  - intros x [->|Hx]%elem_of_cons; [|by apply Hall].
    eapply Qle_trans; [apply Q.le_max_r | exact Hle].
  - destruct Hwit as [Heq|(x & Hx & Heq)].
    + destruct (Q.max_spec a (score y)) as [[_ Hm]|[_ Hm]].
      * right. exists y. split; [apply list_elem_of_here|]. by rewrite Heq.
      * left. by rewrite Heq.
    + right. exists x. split; [by apply list_elem_of_further | done].
Qed.

Lemma score_setScore s o : score (setScore s o) = s.
Proof. reflexivity. Qed.

(** C7.  When some score is strictly positive, [normalizeScores] divides
    every score by the largest score of the array, and the largest
    normalised score is 1. *)
Theorem normalizeScores_max_is_one (arr : list image) :
  (∃ x, x ∈ arr ∧ 0 < score x) →
  (∀ x, x ∈ arr → score x <= maxScore arr) ∧
  (∃ x, x ∈ arr ∧ score x == maxScore arr) ∧
  length (normalizeScores arr) = length arr ∧
  (∀ i x, arr !! i = Some x →
          ∃ y, normalizeScores arr !! i = Some y ∧
               score y == score x / maxScore arr) ∧
  (∀ y, y ∈ normalizeScores arr → score y <= 1) ∧
  (∃ y, y ∈ normalizeScores arr ∧ score y == 1).
Proof.
  intros (p & Hp & Hpos).
  destruct (foldl_max_bounds (-999999) arr) as (_ & Hall & Hwit).
  fold (maxScore arr) in Hall, Hwit.
  assert (Hmax : 0 < maxScore arr) by (eapply Qlt_le_trans; [exact Hpos | by apply Hall]).
  assert (Hne : ¬ maxScore arr == 0) by (intros Heq; rewrite Heq in Hmax; by apply Qlt_irrefl in Hmax).
  destruct Hwit as [Heq|(w & Hw & Hweq)].
  { rewrite Heq in Hmax. discriminate Hmax. }
  split; [exact Hall|]. split; [exists w; split; [done | by symmetry]|].
  unfold normalizeScores. split; [apply length_fmap|]. split; [|split].
  - intros i x Hx. eexists. rewrite list_lookup_fmap, Hx. simpl.
    split; [reflexivity|]. rewrite score_setScore. reflexivity.
  - intros y (x & -> & Hx)%list_elem_of_fmap. rewrite score_setScore.
    apply Qle_shift_div_r; [done|]. rewrite Qmult_1_l. by apply Hall.
  - exists (setScore (score w / maxScore arr) w). split.
    + apply list_elem_of_fmap. by exists w.
    + rewrite score_setScore, <- Hweq. by field.
Qed.

Definition scored (s : Q) : image :=
  Image ∅ false None None None None None None s 0 0 0 0 0 None None.

(** The array of the package's own test: 0, 0.2, 2.5, 1.3, 0.6. *)
Lemma normalizeScores_max_is_one_witness :
  ∃ y, y ∈ normalizeScores [scored 0; scored 0.2; scored 2.5; scored 1.3; scored 0.6] ∧
       score y == 1.
Proof.
  apply (normalizeScores_max_is_one
           [scored 0; scored 0.2; scored 2.5; scored 1.3; scored 0.6]).
  exists (scored 2.5). split; [|reflexivity].
  do 2 apply list_elem_of_further. apply list_elem_of_here.
Defined.

(** *** Word bonuses *)

Section Words.
Variable SCORE_CONFIG : Config.t.
Variable compareTwoStrings : string → string → Q.
Variable pathnameOf : string → option string.

Local Abbreviation preferenceScoreAt :=
  (preferenceScoreAt SCORE_CONFIG compareTwoStrings pathnameOf).
Local Abbreviation checkGoodWords := (checkGoodWords SCORE_CONFIG).
Local Abbreviation checkBadWords := (checkBadWords SCORE_CONFIG).
Local Abbreviation goodWordMatch := (Config.goodWordMatch SCORE_CONFIG).
Local Abbreviation badWordMatch := (Config.badWordMatch SCORE_CONFIG).

(** The text contains one of the configured good words. *)
Definition hasGoodWord (text : option string) : Prop :=
  truthy text = true ∧
  matchesAny (Config.goodWords SCORE_CONFIG) (propertyKey text) = true.

Lemma checkGoodWords_values text :
  (hasGoodWord text ∧ checkGoodWords text = goodWordMatch) ∨
  (¬ hasGoodWord text ∧ checkGoodWords text = 0).
Proof.
  unfold ImageScore.checkGoodWords, hasGoodWord.
  destruct (truthy text); simpl; [|right; split; [by intros [? ?] | done]].
  destruct (matchesAny _ _); [by left | right; split; [by intros [? ?] | done]].
Qed.

Lemma checkBadWords_values text :
  checkBadWords text = badWordMatch ∨ checkBadWords text = 0.
Proof. unfold ImageScore.checkBadWords. destruct (matchesAny _ _); auto. Qed.

(** C8 (amended).  The good-word bonus is the sum of three independent
    checks, on the address, the class and the title, each worth
    [goodWordMatch] or nothing, so a candidate with a good word in all
    three fields receives three times [goodWordMatch]; the bad-word
    penalty is one check of the address alone, worth [badWordMatch] or
    nothing.  The two address checks are skipped exactly when the address
    contains ["data:image"]. *)
Theorem preferenceScore_word_bonuses (imgUrl : string) (obj : image) :
  let obj' := (preferenceScoreAt imgUrl obj).1 in
  let skipped := includes "data:image" imgUrl in
  goodWords obj' ==
    (if skipped then 0 else checkGoodWords (Some imgUrl)) +
    checkGoodWords (class obj) + checkGoodWords (title obj) ∧
  badWords obj' == (if skipped then 0 else checkBadWords imgUrl) ∧
  (badWords obj' == badWordMatch ∨ badWords obj' == 0) ∧
  (skipped = false → hasGoodWord (Some imgUrl) → hasGoodWord (class obj) →
   hasGoodWord (title obj) → goodWords obj' == 3 * goodWordMatch).
Proof.
  intros obj' skipped.
  assert (Hgood : goodWords obj' ==
    (if skipped then 0 else checkGoodWords (Some imgUrl)) +
    checkGoodWords (class obj) + checkGoodWords (title obj)).
  { subst obj' skipped. unfold ImageScore.preferenceScoreAt, includes. simpl.
    destruct (bool_decide (0 <= indexOf "data:image" imgUrl)%Z); ring. }
  assert (Hbad : badWords obj' == (if skipped then 0 else checkBadWords imgUrl)).
  { subst obj' skipped. unfold ImageScore.preferenceScoreAt, includes. simpl.
    destruct (bool_decide (0 <= indexOf "data:image" imgUrl)%Z); ring. }
  split; [exact Hgood|]. split; [exact Hbad|]. split.
  - rewrite Hbad. destruct skipped; [by right|].
    destruct (checkBadWords_values imgUrl) as [-> | ->]; [by left | by right].
  - intros Hskip Hsrc Hclass Htitle. rewrite Hgood, Hskip.
    destruct (checkGoodWords_values (Some imgUrl)) as [[_ ->]|[? _]]; [|done].
    destruct (checkGoodWords_values (class obj)) as [[_ ->]|[? _]]; [|done].
    destruct (checkGoodWords_values (title obj)) as [[_ ->]|[? _]]; [|done].
    ring.
Qed.

End Words.

(** *** File extensions *)

Import JsStringFacts.

(** A word that can tell no extension from another: it has no ["."] and
    does not occur inside ["jpg"], ["gif"] or ["png"] (nor in the last
    letter alone, which is what the file-name check sees of an address
    without ["/"]). *)
Definition extensionNeutral (w : string) : bool :=
  negb (hasChar "." w) && negb (occurs w "jpg") && negb (occurs w "gif") &&
  negb (occurs w "png") && negb (occurs w "g") && negb (occurs w "f").

Definition neutralWords (cfg : Config.t) : bool :=
  forallb extensionNeutral
    (Config.goodWords cfg ++ Config.badWords cfg ++ Config.badFilenames cfg).

Definition imageExt (ext : string) : Prop := ext = "jpg" ∨ ext = "gif" ∨ ext = "png".

Lemma matchesAny_occurs words text :
  matchesAny words text = existsb (λ w, occurs w (toLowerCase text)) words.
Proof.
  unfold matchesAny. induction words as [|w words IH]; simpl; [done|].
  rewrite IH. f_equal. apply includes_occurs.
Qed.

Lemma matchesAny_app_ext words b ext :
  imageExt ext → forallb extensionNeutral words = true →
  matchesAny words (b +:+ String "." ext) = matchesAny words b.
Proof.
  intros Hext Hwords. rewrite !matchesAny_occurs, toLowerCase_app.
  assert (Hlow : toLowerCase (String "." ext) = String "." ext)
    by (destruct Hext as [->|[->| ->]]; reflexivity).
  rewrite Hlow. induction words as [|w words IH]; simpl; [done|].
  simpl in Hwords. apply andb_true_iff in Hwords as [Hw Hwords].
  rewrite IH by done. f_equal.
  unfold extensionNeutral in Hw. rewrite !andb_true_iff, !negb_true_iff in Hw.
  destruct Hw as (((((Hdot & Hjpg) & Hgif) & Hpng) & _) & _).
  apply occurs_app_nochar; [done|]. by destruct Hext as [->|[->| ->]].
Qed.

Lemma existsb_occurs_false words text :
  (∀ w, extensionNeutral w = true → occurs w text = false) →
  forallb extensionNeutral words = true →
  existsb (λ w, occurs w text) words = false.
Proof.
  intros Htext. induction words as [|w words IH]; [done|].
  intros [Hw Hwords]%andb_true_iff. cbn [existsb].
  by rewrite (Htext w Hw), IH.
Qed.

Lemma matchesAny_last_letter words ext :
  imageExt ext → forallb extensionNeutral words = true →
  matchesAny words (drop 3 (String "." ext)) = false.
Proof.
  intros Hext Hwords. rewrite matchesAny_occurs.
  apply existsb_occurs_false; [|done]. intros w Hw.
  unfold extensionNeutral in Hw. rewrite !andb_true_iff, !negb_true_iff in Hw.
  destruct Hw as (((((_ & _) & _) & _) & Hg) & Hf).
  by destruct Hext as [->|[->| ->]].
Qed.

Lemma lastIndexOfFrom_slash_app i b ext :
  imageExt ext →
  lastIndexOfFrom i "/" (b +:+ String "." ext) = lastIndexOfFrom i "/" b.
Proof.
  intros Hext. revert i. induction b as [|c b IH]; intros i.
  - rewrite append_nil. by destruct Hext as [->|[->| ->]].
  - rewrite append_cons. simpl. by rewrite IH.
Qed.

(** The file-name part of an address: [imgUrl.slice(imgUrl.lastIndexOf("/"))]. *)
Definition fileNameOf (imgUrl : string) : string :=
  sliceFrom (lastIndexOf "/" imgUrl) imgUrl.

Lemma fileName_app_ext words b ext :
  imageExt ext → forallb extensionNeutral words = true →
  matchesAny words (fileNameOf (b +:+ String "." ext)) =
  bool_decide (0 <= lastIndexOf "/" b)%Z && matchesAny words (fileNameOf b).
Proof.
  intros Hext Hwords. unfold fileNameOf, lastIndexOf.
  rewrite (lastIndexOfFrom_slash_app 0 b ext Hext).
  pose proof (lastIndexOfFrom_upper 0 "/" b ltac:(lia)) as Hup.
  pose proof (len_nonneg b) as Hb.
  assert (Hlen : len (String "." ext) = 4%Z) by (by destruct Hext as [->|[->| ->]]).
  unfold sliceFrom, sliceIndex. rewrite len_app, Hlen.
  destruct (lastIndexOfFrom_sound 0 "/" b ltac:(lia)) as [Hr|[Hr _]].
  - rewrite Hr. rewrite !bool_decide_eq_true_2 by lia.
    rewrite bool_decide_eq_false_2 by lia. simpl andb.
    rewrite drop_app_ge by (unfold len in *; lia).
    replace (Z.to_nat (Z.max 0 (len b + 4 + -1)) - String.length b)%nat with 3%nat
      by (unfold len in *; lia).
    by apply matchesAny_last_letter.
  - rewrite !bool_decide_eq_false_2 by lia.
    rewrite bool_decide_eq_true_2 by lia. simpl andb.
    rewrite !Z.min_l by lia.
    rewrite drop_app_le by (unfold len in *; lia).
    by apply matchesAny_app_ext.
Qed.

(** The extension [x] of a list cannot be mistaken for the ending [t]. *)
Definition cannotEnd (t x : string) : bool :=
  bool_decide (len t <= len (dotted x) <= len t + 1)%Z &&
  negb (bool_decide (drop (String.length (dotted x) - String.length t) (dotted x) = t)).

Lemma hasExtension_other b t extArray :
  b ≠ "" → forallb (cannotEnd t) extArray = true →
  hasExtension (b +:+ t) extArray = false.
Proof.
  intros Hb Hall. unfold hasExtension.
  induction extArray as [|x extArray IH]; simpl; [done|].
  simpl in Hall. apply andb_true_iff in Hall as [Hx Hall].
  rewrite IH by done. rewrite orb_false_r. apply bool_decide_eq_false_2.
  intros Heq. unfold cannotEnd in Hx.
  apply andb_true_iff in Hx as [Hlen Hneq].
  apply bool_decide_eq_true in Hlen. apply negb_true_iff, bool_decide_eq_false in Hneq.
  assert (0 < len b)%Z.
  { destruct b; [done|]. rewrite len_cons. pose proof (len_nonneg b). lia. }
  apply lastIndexOf_at_end in Heq as [[_ Hshort]|[p Hp]].
  - rewrite len_app in Hshort. lia.
  - apply app_suffix in Hp as [y Hy]; [|lia].
    apply Hneq. rewrite Hy.
    replace (String.length (y +:+ t) - String.length t)%nat with (String.length y)
      by (pose proof (len_app y t) as Hl; unfold len in Hl; lia).
    apply drop_app_length.
Qed.

Lemma hasExtension_own b ext pre post :
  imageExt ext → hasExtension (b +:+ String "." ext) (pre ++ ext :: post) = true.
Proof.
  intros Hext. unfold hasExtension. rewrite existsb_app. simpl.
  apply orb_true_iff. right. apply orb_true_iff. left.
  apply bool_decide_eq_true_2.
  assert (Hd : dotted ext = String "." ext) by (by destruct Hext as [->|[->| ->]]).
  rewrite Hd. unfold lastIndexOf.
  rewrite lastIndexOfFrom_self_suffix; [rewrite len_app; lia | lia |].
  rewrite len_cons. pose proof (len_nonneg ext). lia.
Qed.

Section Extensions.
Variable SCORE_CONFIG : Config.t.
Variable compareTwoStrings : string → string → Q.
Variable pathnameOf : string → option string.

Local Abbreviation preferenceScoreAt :=
  (preferenceScoreAt SCORE_CONFIG compareTwoStrings pathnameOf).
Local Abbreviation getExtensionScore := (getExtensionScore SCORE_CONFIG).

Hypothesis neutral : neutralWords SCORE_CONFIG = true.

Lemma neutral_lists :
  forallb extensionNeutral (Config.goodWords SCORE_CONFIG) = true ∧
  forallb extensionNeutral (Config.badWords SCORE_CONFIG) = true ∧
  forallb extensionNeutral (Config.badFilenames SCORE_CONFIG) = true.
Proof.
  pose proof neutral as H. unfold neutralWords in H.
  rewrite !forallb_app, !andb_true_iff in H. tauto.
Qed.

(** Everything in the score of an address [b.ext] except the extension
    bonus, written in terms of the stem [b]. *)
Definition stemScore (b : string) (obj : image) : Q :=
  let isSVG := includes "data:image" b in
  (if isMeta obj then 0 + Config.isMeta SCORE_CONFIG else 0) +
  (if isSVG then 0
   else if matchesAny (Config.goodWords SCORE_CONFIG) b
   then Config.goodWordMatch SCORE_CONFIG else 0) +
  checkGoodWords SCORE_CONFIG (class obj) + checkGoodWords SCORE_CONFIG (title obj) +
  (if isSVG then 0
   else if matchesAny (Config.badWords SCORE_CONFIG) b
   then Config.badWordMatch SCORE_CONFIG else 0) +
  (if bool_decide (0 <= lastIndexOf "/" b)%Z &&
      matchesAny (Config.badFilenames SCORE_CONFIG) (fileNameOf b)
   then Config.badWordMatchFname SCORE_CONFIG else 0).

Lemma score_with_ext b ext obj :
  imageExt ext →
  truthy (docTitle obj) = false → truthy (query obj) = false →
  (preferenceScoreAt (b +:+ String "." ext) obj).2 ==
  stemScore b obj + getExtensionScore (b +:+ String "." ext).
Proof.
  intros Hext Htitle Hquery.
  destruct neutral_lists as (Hgood & Hbad & Hfn).
  unfold ImageScore.preferenceScoreAt, stemScore. cbn [snd].
  rewrite Htitle, Hquery.
  fold (includes "data:image" (b +:+ String "." ext)).
  assert (Hsvg : includes "data:image" (b +:+ String "." ext) = includes "data:image" b).
  { rewrite !includes_occurs. apply occurs_app_nochar; [done|].
    by destruct Hext as [->|[->| ->]]. }
  rewrite Hsvg.
  assert (Htruthy : truthy (Some (b +:+ String "." ext)) = true).
  { simpl. apply negb_true_iff, bool_decide_eq_false_2.
    intros Heq. apply (f_equal len) in Heq. rewrite len_app, len_cons in Heq.
    pose proof (len_nonneg b). pose proof (len_nonneg ext).
    unfold len in Heq at 3. simpl in Heq. lia. }
  assert (Hsrc : checkGoodWords SCORE_CONFIG (Some (b +:+ String "." ext)) =
                 if matchesAny (Config.goodWords SCORE_CONFIG) b
                 then Config.goodWordMatch SCORE_CONFIG else 0).
  { unfold checkGoodWords. rewrite Htruthy. cbn [negb propertyKey default].
    by rewrite (matchesAny_app_ext _ b ext Hext). }
  rewrite Hsrc.
  unfold checkBadWords, checkFilenameBadWords.
  fold (fileNameOf (b +:+ String "." ext)).
  rewrite (fileName_app_ext _ b ext Hext Hfn).
  rewrite !(matchesAny_app_ext _ b ext Hext) by done.
  destruct (includes "data:image" b), (isMeta obj); cbv iota; ring.
Qed.

Lemma extension_scores b :
  b ≠ "" → startsWith "data:image" b = false →
  getExtensionScore (b +:+ ".jpg") = Config.isJPG SCORE_CONFIG ∧
  getExtensionScore (b +:+ ".gif") = Config.isGIF SCORE_CONFIG ∧
  getExtensionScore (b +:+ ".png") = Config.isPNG SCORE_CONFIG.
Proof.
  intros Hb Hdata. unfold ImageScore.getExtensionScore.
  rewrite !startsWith_app_nochar, !Hdata by done.
  pose proof (hasExtension_own b "jpg" ["ashx"] ["jpeg"]) as Hjpg.
  pose proof (hasExtension_own b "gif" [] []) as Hgif.
  pose proof (hasExtension_own b "png" [] []) as Hpng.
  cbn [app] in Hjpg, Hgif, Hpng.
  rewrite Hjpg by (by left). rewrite Hgif by (right; by left).
  rewrite Hpng by (right; by right).
  rewrite (hasExtension_other b ".gif" ["ashx"; "jpg"; "jpeg"]) by done.
  rewrite (hasExtension_other b ".png" ["ashx"; "jpg"; "jpeg"]) by done.
  rewrite (hasExtension_other b ".png" ["gif"]) by done.
  done.
Qed.

(** C5 (amended).  For candidates that differ only in the extension of
    their address (no document title and no query, so that no similarity
    term depends on the file name; a non-empty stem that does not start
    with ["data:image"]), the scores differ by exactly the difference of
    the configured bonuses.  So [.jpg] beats [.gif] and [.gif] beats
    [.png] precisely when the table orders [isJPG], [isGIF] and [isPNG]
    that way. *)
Theorem extension_bonus_decides (b : string) (obj : image) :
  b ≠ "" → startsWith "data:image" b = false →
  truthy (docTitle obj) = false → truthy (query obj) = false →
  let jpg := (preferenceScoreAt (b +:+ ".jpg") obj).2 in
  let gif := (preferenceScoreAt (b +:+ ".gif") obj).2 in
  let png := (preferenceScoreAt (b +:+ ".png") obj).2 in
  jpg - gif == Config.isJPG SCORE_CONFIG - Config.isGIF SCORE_CONFIG ∧
  gif - png == Config.isGIF SCORE_CONFIG - Config.isPNG SCORE_CONFIG ∧
  (gif < jpg ↔ Config.isGIF SCORE_CONFIG < Config.isJPG SCORE_CONFIG) ∧
  (png < gif ↔ Config.isPNG SCORE_CONFIG < Config.isGIF SCORE_CONFIG).
Proof.
  intros Hb Hdata Htitle Hquery jpg gif png.
  destruct (extension_scores b Hb Hdata) as (Ejpg & Egif & Epng).
  assert (Hjpg : jpg == stemScore b obj + Config.isJPG SCORE_CONFIG).
  { subst jpg. rewrite <- Ejpg. apply score_with_ext; [by left | done..]. }
  assert (Hgif : gif == stemScore b obj + Config.isGIF SCORE_CONFIG).
  { subst gif. rewrite <- Egif. apply score_with_ext; [right; by left | done..]. }
  assert (Hpng : png == stemScore b obj + Config.isPNG SCORE_CONFIG).
  { subst png. rewrite <- Epng. apply score_with_ext; [right; by right | done..]. }
  rewrite Hjpg, Hgif, Hpng. repeat split; try ring; intros H; lra.
Qed.

End Extensions.

(** Why the stem is taken non-empty: for an address one character shorter
    than a dotted extension that it does not contain, [lastIndexOf] answers
    -1 and the test [loc + ext.length === file.length] succeeds, so the bare
    address [.gif] reads as a JPEG (it is as long as [.ashx] less one). *)
Lemma bare_extension_reads_as_jpg :
  hasExtension ".gif" ["ashx"; "jpg"; "jpeg"] = true ∧
  getExtensionScore TEST_CONFIG ".gif" = Config.isJPG TEST_CONFIG.
Proof. split; vm_compute; reflexivity. Qed.

(** A candidate without document title and query. *)
Definition plainImage : image :=
  Image ∅ false None None None None None None 0 0 0 0 0 0 None None.

(** With the table of the tests the order is strict. *)
Lemma extension_bonus_decides_witness :
  (preferenceScoreAt TEST_CONFIG (λ _ _, 0) (λ _, None)
     "http://www.ask.com/assets/images/tire-repair.gif" plainImage).2 <
  (preferenceScoreAt TEST_CONFIG (λ _ _, 0) (λ _, None)
     "http://www.ask.com/assets/images/tire-repair.jpg" plainImage).2.
Proof.
  apply (extension_bonus_decides TEST_CONFIG (λ _ _, 0) (λ _, None)
           ltac:(vm_compute; reflexivity)
           "http://www.ask.com/assets/images/tire-repair" plainImage);
    [discriminate | reflexivity | reflexivity | reflexivity | reflexivity].
Defined.

(** C5 as stated fails: in the default table the three bonuses are equal, so
    a [.jpg] address does not score strictly higher than the same address
    with [.gif], nor [.gif] higher than [.png]. *)
Lemma default_table_ties_extensions :
  ¬ (preferenceScoreAt DEFAULT_CONFIG (λ _ _, 0) (λ _, None)
       "http://www.ask.com/assets/images/tire-repair.gif" plainImage).2 <
    (preferenceScoreAt DEFAULT_CONFIG (λ _ _, 0) (λ _, None)
       "http://www.ask.com/assets/images/tire-repair.jpg" plainImage).2 ∧
  ¬ (preferenceScoreAt DEFAULT_CONFIG (λ _ _, 0) (λ _, None)
       "http://www.ask.com/assets/images/tire-repair.png" plainImage).2 <
    (preferenceScoreAt DEFAULT_CONFIG (λ _ _, 0) (λ _, None)
       "http://www.ask.com/assets/images/tire-repair.gif" plainImage).2.
Proof. split; vm_compute; discriminate. Qed.

(** A candidate with a good word in address, class and title. *)
Definition logoEverywhere : image :=
  Image ∅ false (Some "http://a.com/main/logo.gif") (Some "Logo image")
        (Some "logo") None None None 0 0 0 0 0 0 None None.

Lemma preferenceScore_word_bonuses_witness :
  goodWords (preferenceScoreAt DEFAULT_CONFIG (λ _ _, 0) (λ _, None)
               "http://a.com/main/logo.gif" logoEverywhere).1 ==
  3 * Config.goodWordMatch DEFAULT_CONFIG.
Proof.
  apply (preferenceScore_word_bonuses DEFAULT_CONFIG (λ _ _, 0) (λ _, None)
           "http://a.com/main/logo.gif" logoEverywhere).
  - vm_compute. reflexivity.
  - split; vm_compute; reflexivity.
  - split; vm_compute; reflexivity.
  - split; vm_compute; reflexivity.
Defined.

(** A data-URI that is not an image: the address starts with ["data:"] but
    does not contain ["data:image"]. *)
Definition textDataUri : image :=
  Image ∅ false (Some "data:text/plain,logo-spacer") None None None None None
        0 0 0 0 0 0 None None.

(** C8 as stated fails: for this data-URI neither address check is skipped;
    the good word [logo] earns the bonus and the bad word [spacer] the
    penalty. *)
Lemma data_uri_words_not_skipped :
  startsWith "data:" "data:text/plain,logo-spacer" = true ∧
  goodWords (preferenceScoreAt DEFAULT_CONFIG (λ _ _, 0) (λ _, None)
               "data:text/plain,logo-spacer" textDataUri).1 == 0.3 ∧
  badWords (preferenceScoreAt DEFAULT_CONFIG (λ _ _, 0) (λ _, None)
              "data:text/plain,logo-spacer" textDataUri).1 == -2.
Proof. repeat split; vm_compute; reflexivity. Qed.

(** *** Ranking *)

(** Later entries never score higher than earlier ones. *)
Definition descending (l : list image) : Prop :=
  ∀ i j x y, (i < j)%nat → l !! i = Some x → l !! j = Some y → score y <= score x.

Lemma insertByScore_perm x l : insertByScore x l ≡ₚ x :: l.
Proof.
  induction l as [|y l IH]; simpl; [done|].
  destruct (Qlt_le_dec (score x) (score y)); [|done].
  rewrite IH. apply Permutation_swap.
Qed.

Lemma sortByScore_perm l : sortByScore l ≡ₚ l.
Proof.
  unfold sortByScore. induction l as [|x l IH]; simpl; [done|].
  by rewrite insertByScore_perm, IH.
Qed.

Lemma descending_cons x l :
  descending (x :: l) ↔ (∀ y, y ∈ l → score y <= score x) ∧ descending l.
Proof.
  unfold descending. split.
  - intros H. split.
    + intros y [j Hj]%list_elem_of_lookup. by apply (H 0%nat (S j) x y); [lia|..].
    + intros i j a b Hij Ha Hb. by apply (H (S i) (S j) a b); [lia|..].
  - intros [Hhead Htail] i j a b Hij Ha Hb.
    destruct j as [|j]; [lia|]. simpl in Hb. destruct i as [|i]; simpl in Ha.
    + injection Ha as <-. apply Hhead. by apply list_elem_of_lookup_2 in Hb.
    + apply (Htail i j a b); [lia | done..].
Qed.

Lemma insertByScore_descending x l :
  descending l → descending (insertByScore x l).
Proof.
  induction l as [|y l IH]; simpl; intros Hl.
  { apply descending_cons. split; [by intros ? ?%elem_of_nil | done]. }
  apply descending_cons in Hl as [Hy Hl].
  destruct (Qlt_le_dec (score x) (score y)) as [Hlt|Hle].
  - apply descending_cons. split; [|by apply IH].
    intros z Hz. rewrite insertByScore_perm in Hz.
    apply elem_of_cons in Hz as [->|Hz]; [by apply Qlt_le_weak | by apply Hy].
  - apply descending_cons. split; [|by apply descending_cons].
    intros z [->|Hz]%elem_of_cons; [done|].
    eapply Qle_trans; [by apply Hy | done].
Qed.

Lemma sortByScore_descending l : descending (sortByScore l).
Proof.
  unfold sortByScore. induction l as [|x l IH]; simpl.
  - intros i j x y _ Hx. by rewrite lookup_nil in Hx.
  - by apply insertByScore_descending.
Qed.

Section Ranking.
Variable compareTwoStrings : string → string → Q.
Variable pathnameOf : string → option string.
Hypothesis similarity_range : ∀ a b, 0 <= compareTwoStrings a b <= 1.

Local Abbreviation preferenceScoreAt :=
  (preferenceScoreAt DEFAULT_CONFIG compareTwoStrings pathnameOf).
Local Abbreviation scoreOne := (scoreOne DEFAULT_CONFIG compareTwoStrings pathnameOf).
Local Abbreviation findBestImages :=
  (findBestImages DEFAULT_CONFIG compareTwoStrings pathnameOf).
Local Abbreviation getTitleScore :=
  (getTitleScore compareTwoStrings pathnameOf).

Lemma getTitleScore_docTitle_range imgUrl obj t :
  0 <= getTitleScore imgUrl obj t (Config.docTitleFactors DEFAULT_CONFIG) <= 2.
Proof.
  unfold ImageScore.getTitleScore. cbn [DEFAULT_CONFIG Config.docTitleFactors
    Config.imgTitle Config.imgSrc Config.imgFname].
  set (fname := if truthy (pathnameOf imgUrl) then _ else _).
  set (prePath := if truthy (pathnameOf imgUrl) then _ else _).
  pose proof (similarity_range fname t).
  pose proof (similarity_range prePath t).
  pose proof (similarity_range (propertyKey (title obj)) t).
  pose proof (similarity_range (propertyKey (alt obj)) t).
  destruct (truthy (title obj)), (truthy (alt obj)); lra.
Qed.

Lemma default_goodWords text :
  checkGoodWords DEFAULT_CONFIG text = 0 ∨ checkGoodWords DEFAULT_CONFIG text = 0.3.
Proof.
  unfold checkGoodWords. destruct (negb _); [by left|].
  destruct (matchesAny _ _); [by right | by left].
Qed.

Lemma default_badWords text :
  checkBadWords DEFAULT_CONFIG text = 0 ∨ checkBadWords DEFAULT_CONFIG text = -2.
Proof. unfold checkBadWords. destruct (matchesAny _ _); [by right | by left]. Qed.

Lemma default_badFilenames imgUrl :
  checkFilenameBadWords DEFAULT_CONFIG imgUrl = 0 ∨
  checkFilenameBadWords DEFAULT_CONFIG imgUrl = -2.
Proof. unfold checkFilenameBadWords. destruct (matchesAny _ _); [by right | by left]. Qed.

Lemma default_extension imgUrl :
  getExtensionScore DEFAULT_CONFIG imgUrl = 0 ∨
  getExtensionScore DEFAULT_CONFIG imgUrl = 0.5.
Proof.
  unfold getExtensionScore.
  repeat (match goal with |- context [if ?c then _ else _] => destruct c end);
    (by left) || (by right).
Qed.

(** Without a query, the default table gives a meta candidate at least
    6 and any other candidate at most 3.4. *)
Lemma preferenceScore_without_query imgUrl obj :
  truthy (query obj) = false →
  (isMeta obj = true → 6 <= (preferenceScoreAt imgUrl obj).2) ∧
  (isMeta obj = false → 0 <= (preferenceScoreAt imgUrl obj).2 + 4 ∧
                        (preferenceScoreAt imgUrl obj).2 <= 3.4).
Proof.
  intros Hquery. unfold ImageScore.preferenceScoreAt. cbn [snd]. rewrite Hquery.
  pose proof (getTitleScore_docTitle_range imgUrl obj (propertyKey (docTitle obj))) as Ht.
  destruct (default_goodWords (Some imgUrl)) as [-> | ->];
  destruct (default_goodWords (class obj)) as [-> | ->];
  destruct (default_goodWords (title obj)) as [-> | ->];
  destruct (default_badWords imgUrl) as [-> | ->];
  destruct (default_badFilenames imgUrl) as [-> | ->];
  destruct (default_extension imgUrl) as [-> | ->];
  destruct (bool_decide (0 <= indexOf "data:image" imgUrl)%Z);
  destruct (truthy (docTitle obj));
  (split; intros ->; cbn [DEFAULT_CONFIG Config.isMeta]; lra).
Qed.

Lemma scoreOne_keeps obj :
  isMeta (scoreOne obj) = isMeta obj ∧ src (scoreOne obj) = src obj.
Proof.
  unfold ImageScore.scoreOne, ImageScore.preferenceScoreAt.
  destruct (src obj) eqn:Hsrc; [|by rewrite <- Hsrc].
  destruct (isValidSrcTag (Some s)); by rewrite <- Hsrc.
Qed.

Lemma scoreOne_bounds obj :
  truthy (query obj) = false →
  (isMeta obj = true → isValidSrcTag (src obj) = true → 6 <= score (scoreOne obj)) ∧
  (isMeta obj = false → score (scoreOne obj) <= 3.4).
Proof.
  intros Hquery. unfold ImageScore.scoreOne.
  destruct (src obj) as [imgUrl|] eqn:Hsrc.
  - destruct (preferenceScore_without_query imgUrl obj Hquery) as [Hmeta Hplain].
    destruct (isValidSrcTag (Some imgUrl)).
    + unfold ImageScore.preferenceScoreAt in *. cbn [snd] in Hmeta, Hplain.
      cbn [score setScore]. split; [by intros ?%Hmeta | by intros [_ ?]%Hplain].
    + split; [done|]. intros _. cbn [score setScore]. lra.
  - split; [done|]. intros _. cbn [score setScore]. lra.
Qed.

(** C4 (amended).  With the default table and no scoring hook, when no
    candidate carries a query and every meta candidate has a valid
    address, [findBestImages] returns all candidates with every meta
    candidate ahead of every other candidate, whatever the titles,
    classes, addresses and document title are.  (The similarity function
    is any function with values between 0 and 1.) *)
Theorem meta_candidates_rank_first (imgArray : list image) :
  Forall (λ o, truthy (query o) = false) imgArray →
  Forall (λ o, isMeta o = true → isValidSrcTag (src o) = true) imgArray →
  src <$> findBestImages imgArray None ≡ₚ src <$> imgArray ∧
  ∀ i j a b,
    findBestImages imgArray None !! i = Some a →
    findBestImages imgArray None !! j = Some b →
    isMeta a = true → isMeta b = false → (i < j)%nat.
Proof.
  intros Hquery Hvalid. unfold ImageScore.findBestImages, normalizeScores.
  set (sorted := sortByScore (scoreOne <$> imgArray)).
  set (norm := λ item : image, setScore (score item / maxScore sorted) item).
  assert (Hperm : sorted ≡ₚ scoreOne <$> imgArray) by apply sortByScore_perm.
  split.
  { rewrite <- list_fmap_compose.
    rewrite (list_fmap_ext (src ∘ norm) src sorted) by done.
    rewrite Hperm, <- list_fmap_compose.
    by rewrite (list_fmap_ext (src ∘ scoreOne) src imgArray)
      by (intros ? o _; apply scoreOne_keeps). }
  assert (Hbounds : ∀ x, x ∈ sorted →
            (isMeta x = true → 6 <= score x) ∧ (isMeta x = false → score x <= 3.4)).
  { intros x Hx. rewrite Hperm in Hx.
    apply list_elem_of_fmap in Hx as (o & -> & Ho).
    rewrite Forall_forall in Hquery, Hvalid.
    destruct (scoreOne_bounds o (Hquery o Ho)) as [Hm Hp].
    destruct (scoreOne_keeps o) as [-> _].
    split; [intros Hmeta; apply Hm; [done | by apply Hvalid] | done]. }
  intros i j a b Ha Hb HaMeta HbMeta.
  rewrite list_lookup_fmap in Ha, Hb.
  destruct (sorted !! i) as [a0|] eqn:Ha0; [|done].
  destruct (sorted !! j) as [b0|] eqn:Hb0; [|done].
  injection Ha as <-. injection Hb as <-. cbn [norm isMeta setScore] in HaMeta, HbMeta.
  destruct (Hbounds a0) as [Hlow _]; [by eapply list_elem_of_lookup_2|].
  destruct (Hbounds b0) as [_ Hhigh]; [by eapply list_elem_of_lookup_2|].
  specialize (Hlow HaMeta). specialize (Hhigh HbMeta).
  destruct (decide (i < j)%nat) as [|Hge]; [done|]. exfalso.
  destruct (decide (i = j)) as [->|Hne].
  - rewrite Ha0 in Hb0. injection Hb0 as ->. congruence.
  - pose proof (sortByScore_descending (scoreOne <$> imgArray) j i b0 a0
                  ltac:(lia) Hb0 Ha0) as Hdesc.
    lra.
Qed.

End Ranking.

(** A similarity within the contract of the package's collaborator: 1 for
    identical strings, 0 otherwise. *)
Definition exactMatch (a b : string) : Q := if decide (a = b) then 1 else 0.

(** The path of an address, as the resolver model splits it. *)
Definition pathOf (u : string) : option string := Some (CheckImageUrl.originAndPath u).2.

Definition candidate (meta : bool) (src' : string) (title' class' : option string)
    (docTitle' query' : option string) : image :=
  Image ∅ meta (Some src') title' class' None docTitle' query' 0 0 0 0 0 0 None None.

(** The candidates of the package's own ranking test (no query). *)
Definition testCandidates : list image :=
  [ candidate true "/ogimage.jpg" None None (Some "query ") None;
    candidate true "/twitterimage.jpg" None None (Some "query ") None;
    candidate false "http://image1.jpg" None None (Some "query ") None;
    candidate false "http://image2.gif" None None (Some "query ") None;
    candidate false "http://image3.png" None None (Some "query ") None;
    candidate false "data:binaryencodeddatahere" None None (Some "query ") None ].

Lemma meta_candidates_rank_first_witness :
  isMeta <$> findBestImages DEFAULT_CONFIG exactMatch pathOf testCandidates None =
    [true; true; false; false; false; false] ∧
  ∀ i j a b,
    findBestImages DEFAULT_CONFIG exactMatch pathOf testCandidates None !! i = Some a →
    findBestImages DEFAULT_CONFIG exactMatch pathOf testCandidates None !! j = Some b →
    isMeta a = true → isMeta b = false → (i < j)%nat.
Proof.
  split; [vm_compute; reflexivity|].
  apply (meta_candidates_rank_first exactMatch pathOf).
  - intros a b. unfold exactMatch. destruct (decide (a = b)); split; discriminate.
  - repeat constructor.
  - repeat constructor; vm_compute; reflexivity.
Defined.

(** Why the meta candidates are taken with a valid address: a second curated
    tag with an empty [content] yields a candidate whose address is blank,
    which is scored 0 and falls behind any scored image. *)
Lemma blank_meta_ranks_last :
  isMeta <$> findBestImages DEFAULT_CONFIG exactMatch pathOf
    [ candidate true "/ogimage.jpg" None None (Some "query ") None;
      candidate true "" None None (Some "query ") None;
      candidate false "http://image1.jpg" None None (Some "query ") None ] None =
  [true; false; true].
Proof. vm_compute. reflexivity. Qed.

(** A page about [logo] looked up with the query [logo]: both curated
    images have a file name on the bad-word lists, and one inline image
    matches the query in its title. *)
Definition queryCandidates : list image :=
  [ candidate true "http://a.com/spacer.png" None None (Some "logo") (Some "logo");
    candidate true "http://a.com/pixel.png" None None (Some "logo") (Some "logo");
    candidate false "http://a.com/logo" (Some "logo") (Some "logo")
      (Some "logo") (Some "logo") ].

(** C4 as stated fails: with a query, the inline image is returned ahead of
    both meta candidates. *)
Lemma query_match_outranks_meta :
  isMeta <$> findBestImages DEFAULT_CONFIG exactMatch pathOf queryCandidates None =
    [false; true; true] ∧
  (λ o, Qred (score o)) <$> ImageScore.sortByScore
     (ImageScore.scoreOne DEFAULT_CONFIG exactMatch pathOf <$> queryCandidates) =
    [79 # 10; 13 # 2; 13 # 2].
Proof. split; vm_compute; reflexivity. Qed.

End ImageScoreFacts.

Module BestImageFacts.
Import BestImage.

Section Orchestrator.
Variable validURL : string → bool.
Variable testEnv : bool.
Variable sizeCalls : string → list (option string * option dimensions).
Variable busEntry : string → option (option string * option dimensions).
Variable SCORE_CONFIG : ImageScore.Config.t.
Variable Math_log : Q → Q.

Local Abbreviation validateAll := (validateAll validURL testEnv sizeCalls busEntry).
Local Abbreviation findValidImage :=
  (findValidImage validURL testEnv sizeCalls busEntry SCORE_CONFIG Math_log).
Local Abbreviation consolidateAndSizeRank :=
  (ImageScore.consolidateAndSizeRank SCORE_CONFIG Math_log).

(** The scoring argument as callers pass it: nothing, or a hook, here
    one that leaves an empty array empty. *)
Definition plainScoreFn (scoreFn : value) : Prop :=
  scoreFn = Null ∨ scoreFn = Undefined ∨
  ∃ arity f, scoreFn = Fn arity (ScoreHook f) ∧ f [] true = [].

Lemma consolidate_all_null n :
  consolidateAndSizeRank (replicate n None) = [].
Proof.
  unfold ImageScore.consolidateAndSizeRank.
  induction n as [|n IH]; [done|]. exact IH.
Qed.

Lemma sized_nothing scoreFn : plainScoreFn scoreFn → sized scoreFn [] = Some [].
Proof.
  intros [->|[->|(arity & f & -> & Hf)]]; [done..|].
  unfold sized, ImageScore.callSizingFunction. by rewrite Hf.
Qed.

(** Called with its arguments one place to the left, as the recursive
    call does, [findValidImage] throws before it looks at any candidate. *)
Lemma findValidImage_shifted fuel rest scoreFn cback :
  plainScoreFn scoreFn →
  ∃ msg, findValidImage (S fuel) (Arr rest) scoreFn cback Undefined = TypeError msg.
Proof.
  intros [->|[->|(arity & f & -> & _)]]; simpl; [by eexists..|].
  case_bool_decide; [by eexists|]. by eexists.
Qed.

Lemma findValidImage_empty fuel url scoreFn arity :
  findValidImage (S fuel) (Str url) (Arr []) scoreFn (Fn arity Completion) =
  Result (Some "No valid image found") None.
Proof. reflexivity. Qed.


(** Two unfoldings are all a lookup ever needs: the second call ends at
    once. *)
Lemma findValidImage_enough_fuel fuel url full scoreFn cback :
  plainScoreFn scoreFn →
  findValidImage (S (S fuel)) (Str url) (Arr full) scoreFn cback ≠ OutOfFuel.
Proof.
  intros Hplain. cbn [BestImage.findValidImage lengthOf].
  case_bool_decide; [by destruct cback as [| | | |? []]|].
  destruct (validateAll _) as [checked|]; [|done].
  assert (∃ l, sized scoreFn (consolidateAndSizeRank checked) = Some l) as [l ->].
  { destruct Hplain as [->|[->|(arity & f & -> & _)]]; by eexists. }
  destruct l as [|best rest]; [|by destruct cback as [| | | |? []]].
  destruct (findValidImage_shifted fuel
              (drop (Nat.min (0 + FIND_BLOCK_SIZE) (length full)) full)
              scoreFn cback Hplain) as [msg Hmsg].
  change (BestImage.findValidImage validURL testEnv sizeCalls busEntry SCORE_CONFIG
            Math_log (S fuel)
            (Arr (drop (Nat.min (0 + FIND_BLOCK_SIZE) (length full)) full))
            scoreFn cback Undefined ≠ OutOfFuel).
  by rewrite Hmsg.
Qed.

(** A batch that holds a data-URI never completes: the validation of that
    candidate does not call back. *)
Lemma findValidImage_data_uri_pending fuel url full scoreFn cback img u :
  img ∈ take FIND_BLOCK_SIZE full → src img = Some u →
  JsString.startsWith "data:" u = true →
  findValidImage (S fuel) (Str url) (Arr full) scoreFn cback = Pending.
Proof.
  intros Himg Hsrc Hdata. cbn [BestImage.findValidImage lengthOf].
  assert (full ≠ []) by (intros ->; by apply elem_of_nil in Himg).
  rewrite bool_decide_eq_false_2 by (by destruct full).
  replace (take (Nat.min (0 + FIND_BLOCK_SIZE) (length full)) full)
    with (take FIND_BLOCK_SIZE full)
    by (by rewrite <- take_take, firstn_all).
  assert (Hnone : validateAll (take FIND_BLOCK_SIZE full) = None).
  { apply mapM_None_2, Exists_exists. exists img. split; [done|].
    unfold validateOne. rewrite Hsrc.
    by rewrite (CheckImageUrlFacts.checkImageUrl_skips_data _ _ _ _ _ Hdata). }
  by rewrite Hnone.
Qed.

(** C1, on the code.  When every candidate of the first batch fails
    validation, [findValidImage] does not go on to the next batch and
    does not report "No valid image found": the recursive call leaves out
    its first argument, so the remaining candidates are bound to
    [fullUrl], the scoring argument to [fullImgArray], and the call ends
    in a [TypeError], whether or not candidates remain. *)
Theorem findValidImage_next_batch_throws (fuel : nat) (url : string)
    (full : list image) (scoreFn : value) (arity : nat) :
  full ≠ [] →
  plainScoreFn scoreFn →
  validateAll (take FIND_BLOCK_SIZE full) =
    Some (replicate (length (take FIND_BLOCK_SIZE full)) None) →
  ∃ msg, findValidImage (S (S fuel)) (Str url) (Arr full) scoreFn
           (Fn arity Completion) = TypeError msg.
Proof.
  intros Hfull Hplain Hfail.
  destruct (findValidImage_shifted fuel
              (drop (Nat.min (0 + FIND_BLOCK_SIZE) (length full)) full)
              scoreFn (Fn arity Completion) Hplain) as [msg Hmsg].
  exists msg. rewrite <- Hmsg.
  cbn [BestImage.findValidImage lengthOf].
  rewrite bool_decide_eq_false_2 by (by destruct full).
  replace (take (Nat.min (0 + FIND_BLOCK_SIZE) (length full)) full)
    with (take FIND_BLOCK_SIZE full)
    by (by rewrite <- take_take, firstn_all).
  rewrite Hfail, consolidate_all_null, (sized_nothing _ Hplain). done.
Qed.

End Orchestrator.

(** One candidate whose fetch times out. *)
Definition unreachable : image :=
  Image ∅ false (Some "http://a.com/gone.jpg") None None None None None
        0 0 0 0 0 0 None None.

Lemma findValidImage_next_batch_throws_witness :
  ∃ msg,
    findValidImage (λ _, true) false (λ _, [(Some "Timeout", None)]) (λ _, None)
      ImageScore.DEFAULT_CONFIG (λ _, 0%Q) 2 (Str "http://a.com/") (Arr [unreachable])
      Null (Fn 2 Completion) = TypeError msg.
Proof.
  apply (findValidImage_next_batch_throws (λ _, true) false
           (λ _, [(Some "Timeout", None)]) (λ _, None) ImageScore.DEFAULT_CONFIG
           (λ _, 0%Q) 0 "http://a.com/" [unreachable] Null 2).
  - discriminate.
  - left. reflexivity.
  - vm_compute. reflexivity.
Defined.

End BestImageFacts.

Module AddressFacts.
Import JsString CheckImageUrl JsStringFacts.

Lemma space_not_word c : isSpace c = true → isWordChar (lowerChar c) = false.
Proof. destruct c as [[] [] [] [] [] [] [] []]; vm_compute; congruence. Qed.

Lemma word_not_space c : isWordChar c = true → isSpace c = false.
Proof. destruct c as [[] [] [] [] [] [] [] []]; vm_compute; congruence. Qed.

Lemma lower_letter_not_space c d :
  lowerChar c = d → isWordChar d = true → isSpace c = false.
Proof.
  intros <- Hd. destruct (isSpace c) eqn:Hc; [|done].
  by rewrite (space_not_word c Hc) in Hd.
Qed.

Lemma afterScheme_inv s :
  afterScheme s = true →
  ∃ c rest, s = String ":" (String "/" (String "/" (String c rest))) ∧
            isWordChar c = true ∧ hostAndPath rest = true.
Proof.
  unfold afterScheme. destruct s as [|c1 s]; [done|].
  destruct (decide (c1 = ":"%char)) as [->|Hc1].
  2:{ destruct c1 as [[] [] [] [] [] [] [] []]; try done; by destruct s. }
  destruct s as [|c2 s]; [done|].
  destruct (decide (c2 = "/"%char)) as [->|Hc2].
  2:{ destruct c2 as [[] [] [] [] [] [] [] []]; try done; by destruct s. }
  destruct s as [|c3 s]; [done|].
  destruct (decide (c3 = "/"%char)) as [->|Hc3].
  2:{ destruct c3 as [[] [] [] [] [] [] [] []]; try done; by destruct s. }
  destruct s as [|c s]; [done|].
  intros [Hc Hrest]%andb_true_iff. by exists c, s.
Qed.

Lemma afterScheme_allNonSpace s : afterScheme s = true → allNonSpace s = true.
Proof.
  intros (c & rest & -> & Hc & Hrest)%afterScheme_inv.
  cbn [allNonSpace]. rewrite (word_not_space c Hc).
  change (isSpace ":") with false. change (isSpace "/") with false. simpl.
  unfold hostAndPath in Hrest. destruct rest as [|d rest]; [done|].
  apply andb_true_iff in Hrest as [[Hd Hs]%andb_true_iff _].
  cbn [allNonSpace]. by rewrite Hd, Hs.
Qed.

(** An address the filter of [checkImageUrl] lets through starts with
    [http] in either case and holds no white space. *)
Lemma httpUrlPattern_shape s :
  httpUrlPattern s = true →
  toLowerCase (take 4 s) = "http" ∧ allNonSpace s = true.
Proof.
  unfold httpUrlPattern. intros [Hhttp Hrest]%andb_true_iff.
  apply bool_decide_eq_true in Hhttp. split; [done|].
  destruct s as [|c1 [|c2 [|c3 [|c4 s]]]]; try discriminate.
  cbn [take toLowerCase] in Hhttp. injection Hhttp as H1 H2 H3 H4.
  cbn [drop] in Hrest. cbn [allNonSpace].
  rewrite (lower_letter_not_space c1 _ H1), (lower_letter_not_space c2 _ H2),
    (lower_letter_not_space c3 _ H3), (lower_letter_not_space c4 _ H4) by reflexivity.
  simpl. apply orb_true_iff in Hrest as [Hs|Hs].
  - by apply afterScheme_allNonSpace.
  - destruct s as [|c s]; [done|].
    apply andb_true_iff in Hs as [Hc Hs]. apply bool_decide_eq_true in Hc.
    cbn [allNonSpace].
    rewrite (lower_letter_not_space c _ Hc) by reflexivity.
    by apply afterScheme_allNonSpace.
Qed.

Lemma lastIndexOfFrom_nochar i c s :
  hasChar c s = false → lastIndexOfFrom i (String c "") s = -1.
Proof.
  revert i. induction s as [|a s IH]; intros i Hs; [done|].
  cbn [hasChar] in Hs. apply orb_false_iff in Hs as [Ha Hs].
  apply bool_decide_eq_false in Ha.
  cbn [lastIndexOfFrom]. rewrite (IH _ Hs).
  rewrite bool_decide_eq_false_2 by lia.
  cbn [startsWith]. by rewrite decide_False by congruence.
Qed.

Lemma lastIndexOfFrom_last_char i c b e :
  0 <= i → hasChar c e = false →
  lastIndexOfFrom i (String c "") (b +:+ String c e) = i + len b.
Proof.
  intros Hi He. revert i Hi. induction b as [|a b IH]; intros i Hi.
  - rewrite append_nil. cbn [lastIndexOfFrom].
    rewrite (lastIndexOfFrom_nochar _ _ _ He).
    rewrite bool_decide_eq_false_2 by lia.
    cbn [startsWith]. rewrite decide_True by done. unfold len. simpl. lia.
  - rewrite append_cons. cbn [lastIndexOfFrom]. rewrite IH by lia.
    pose proof (len_nonneg b). rewrite bool_decide_eq_true_2 by lia.
    rewrite len_cons. lia.
Qed.

Section Validator.
Variable validURL : string → bool.
Variables protocolOf hostnameOf pathnameOf : string → option string.
Variable testEnv : bool.
Variable sizeCalls : string → list (option string * option dimensions).
Variable busEntry : string → option (option string * option dimensions).

Local Abbreviation checkImageUrl := (checkImageUrl validURL testEnv sizeCalls busEntry).
Local Abbreviation extensionSupportedForSizing := (extensionSupportedForSizing pathnameOf).

(** X1.  [checkImageUrl] does something (a fetch, or a call of the
    callback) only for an address that [url.URL] accepts, that starts with
    [http] in either case, and that holds no white space.  For every
    other address (a relative one, another scheme, a data-URI, an address
    with a blank) it returns without a fetch and without ever calling the
    callback. *)
Theorem checkImageUrl_needs_http_address (imgUrl : string) :
  checkImageUrl imgUrl ≠ [] →
  validURL imgUrl = true ∧
  toLowerCase (take 4 imgUrl) = "http" ∧
  allNonSpace imgUrl = true.
Proof.
  unfold CheckImageUrl.checkImageUrl. intros Hsome.
  destruct (validURL imgUrl); [|done]. simpl in Hsome.
  destruct (httpUrlPattern imgUrl) eqn:Hpat; [|done].
  split; [done|]. by apply httpUrlPattern_shape.
Qed.

(** X2.  Under [NODE_ENV = "test"] nothing is ever fetched: an address
    that passes the filter and has no entry on the data bus is answered
    at once with the stand-in result (loaded, 200 by 100), and every other
    address is ignored.  The stand-in error for ["testnull.jpg"] cannot be
    reached through [checkImageUrl], since that address fails the filter. *)
Theorem checkImageUrl_test_mode (imgUrl : string) :
  busEntry imgUrl = None →
  CheckImageUrl.checkImageUrl validURL true sizeCalls busEntry imgUrl =
    if validURL imgUrl && httpUrlPattern imgUrl
    then [Callback None (Some accepted)] else [].
Proof.
  intros Hbus. unfold CheckImageUrl.checkImageUrl.
  destruct (validURL imgUrl); [|done]. simpl.
  destruct (httpUrlPattern imgUrl) eqn:Hpat; [|done].
  rewrite Hbus. unfold CheckImageUrl._checkImageUrl.
  destruct (startsWith "data:" imgUrl); [done|].
  case_bool_decide as Hnull; [|done]. by rewrite Hnull in Hpat.
Qed.

(** X3.  The extension [getImageSize] goes by is what follows the last
    ["."] of the path, in lower case: the test against the supported
    extensions does not depend on the case the address is written in. *)
Theorem extension_read_in_lower_case (imgUrl stem e : string) :
  pathnameOf imgUrl = Some (stem +:+ String "." e) →
  hasChar "." e = false →
  extensionSupportedForSizing imgUrl =
    (toLowerCase e, bool_decide (toLowerCase e ∈ supportedExtensions)).
Proof.
  intros Hpath He. unfold CheckImageUrl.extensionSupportedForSizing. rewrite Hpath.
  rewrite bool_decide_eq_false_2 by (by destruct stem).
  unfold lastIndexOf. rewrite lastIndexOfFrom_last_char by (done || lia).
  assert (Hslice : sliceFrom (0 + len stem + 1) (stem +:+ String "." e) = e).
  { unfold sliceFrom, sliceIndex. pose proof (len_nonneg stem). pose proof (len_nonneg e).
    rewrite bool_decide_eq_false_2 by lia.
    rewrite len_app, len_cons, Z.min_l by lia.
    rewrite drop_app_ge by (unfold len; lia).
    replace (Z.to_nat (0 + len stem + 1) - String.length stem)%nat with 1%nat
      by (unfold len; lia).
    done. }
  by rewrite Hslice.
Qed.

(** With the resolver of the spec, [resolveRelativeUrl] over any resolver
    is the [resolveRelativeUrl] of the other properties. *)
Lemma resolveRelativeUrl_at_urlResolve (sourceUrl imageUrl : string) (withCallback : bool) :
  RelativeUrl.resolveRelativeUrl validURL protocolOf hostnameOf pathnameOf testEnv
    sizeCalls busEntry urlResolve sourceUrl imageUrl withCallback =
  CheckImageUrl.resolveRelativeUrl validURL protocolOf hostnameOf pathnameOf testEnv
    sizeCalls busEntry sourceUrl imageUrl withCallback.
Proof. reflexivity. Qed.

(** X4.  Called with a callback outside the test environment,
    [resolveRelativeUrl] answers only if [checkImageUrl] answers for the
    resolved address.  Whatever [url.resolve] computes: when its result
    is not empty and is rejected by [url.URL], or does not start with
    [http] (a data-URI, say), or holds white space, the callback passed
    to [resolveRelativeUrl] is never called. *)
Theorem resolveRelativeUrl_unanswered (url_resolve : string → string → string)
    (sourceUrl imageUrl : string) :
  url_resolve sourceUrl imageUrl ≠ "" →
  (validURL (url_resolve sourceUrl imageUrl) = false ∨
   toLowerCase (take 4 (url_resolve sourceUrl imageUrl)) ≠ "http" ∨
   allNonSpace (url_resolve sourceUrl imageUrl) = false) →
  RelativeUrl.resolveRelativeUrl validURL protocolOf hostnameOf pathnameOf false
    sizeCalls busEntry url_resolve sourceUrl imageUrl true = NeverCalledBack.
Proof.
  intros Hne Hbad. unfold RelativeUrl.resolveRelativeUrl.
  rewrite bool_decide_eq_false_2 by done. simpl.
  destruct (CheckImageUrl.checkImageUrl validURL false sizeCalls busEntry
              (url_resolve sourceUrl imageUrl)) as [|e es] eqn:Hcheck; [done|].
  exfalso.
  assert (Hok : validURL (url_resolve sourceUrl imageUrl) = true ∧
                httpUrlPattern (url_resolve sourceUrl imageUrl) = true).
  { unfold CheckImageUrl.checkImageUrl in Hcheck.
    destruct (validURL _); [|done]. simpl in Hcheck.
    by destruct (httpUrlPattern _). }
  destruct Hok as [Hvalid Hpat].
  destruct (httpUrlPattern_shape _ Hpat) as [Hhttp Hspace].
  destruct Hbad as [Hbad|[Hbad|Hbad]]; [congruence | done | congruence].
Qed.

End Validator.

Lemma checkImageUrl_needs_http_address_witness :
  (λ _ : string, true) "https://a.com/x.jpg" = true ∧
  toLowerCase (take 4 "https://a.com/x.jpg") = "http" ∧
  allNonSpace "https://a.com/x.jpg" = true.
Proof.
  apply (checkImageUrl_needs_http_address (λ _, true) true (λ _, []) (λ _, None)
           "https://a.com/x.jpg").
  vm_compute. discriminate.
Defined.

Lemma checkImageUrl_test_mode_witness :
  checkImageUrl (λ _, true) true (λ _, []) (λ _, None) "http://a.com/testnull.jpg" =
    [Callback None (Some accepted)].
Proof.
  apply (checkImageUrl_test_mode (λ _, true) (λ _, []) (λ _, None)
           "http://a.com/testnull.jpg").
  reflexivity.
Defined.

Lemma extension_read_in_lower_case_witness :
  extensionSupportedForSizing (λ _, Some "/photos/Cat.JPG") "http://a.com/photos/Cat.JPG" =
    ("jpg", true).
Proof.
  apply (extension_read_in_lower_case (λ _, Some "/photos/Cat.JPG")
           "http://a.com/photos/Cat.JPG" "/photos/Cat" "JPG"); reflexivity.
Defined.

Lemma resolveRelativeUrl_unanswered_witness :
  RelativeUrl.resolveRelativeUrl (λ _, true) (λ _, Some "http:") (λ _, Some "a.com")
    (λ _, None) false (λ _, []) (λ _, None) (λ _ ref, ref)
    "http://a.com/page" "data:image/gif;base64,R0lGOD" true =
    NeverCalledBack.
Proof.
  apply (resolveRelativeUrl_unanswered (λ _, true) (λ _, Some "http:") (λ _, Some "a.com")
           (λ _, None) (λ _, []) (λ _, None) (λ _ ref, ref)
           "http://a.com/page" "data:image/gif;base64,R0lGOD").
  - vm_compute. discriminate.
  - right. left. vm_compute. discriminate.
Defined.

End AddressFacts.

Module ValidationFacts.
Import JsString CheckImageUrl JsStringFacts CheckImageUrlFacts AddressFacts.

(** *** The key of a request *)

Lemma pretty_N_char_plain x : pretty_N_char x ≠ "["%char.
Proof. unfold pretty_N_char. by repeat case_match. Qed.

Lemma pretty_N_go_plain x s :
  hasChar "[" s = false → hasChar "[" (pretty_N_go x s) = false.
Proof.
  revert s. induction (N.lt_wf_0 x) as [x _ IH]; intros s Hs.
  destruct (decide (x = 0%N)) as [->|Hx]; [by rewrite pretty_N_go_0|].
  rewrite pretty_N_go_step by lia. apply IH.
  - apply N.div_lt; lia.
  - cbn [hasChar]. rewrite Hs, orb_false_r. apply bool_decide_eq_false_2.
    apply pretty_N_char_plain.
Qed.

Lemma pretty_N_plain (x : N) : hasChar "[" (pretty x) = false.
Proof.
  unfold pretty, pretty_N. case_decide; [done|]. by apply pretty_N_go_plain.
Qed.

Lemma hasChar_app c a b : hasChar c (a +:+ b) = hasChar c a || hasChar c b.
Proof.
  induction a as [|x a IH]; [by rewrite append_nil|].
  rewrite append_cons. cbn [hasChar]. by rewrite IH, orb_assoc.
Qed.

Lemma append_inj_len a a' b b' :
  len a = len a' → a +:+ b = a' +:+ b' → a = a' ∧ b = b'.
Proof.
  revert a'. induction a as [|x a IH]; intros [|x' a'] Hlen Heq.
  - by rewrite !append_nil in Heq.
  - rewrite len_cons in Hlen. unfold len in Hlen. simpl in Hlen. lia.
  - rewrite len_cons in Hlen. unfold len in Hlen. simpl in Hlen. lia.
  - rewrite !append_cons in Heq. injection Heq as -> Heq.
    rewrite !len_cons in Hlen. destruct (IH a' ltac:(lia) Heq) as [-> ->]. done.
Qed.

Lemma append_inj_r a a' b :
  a +:+ b = a' +:+ b → a = a'.
Proof.
  intros Heq. assert (Hlen : len a = len a').
  { pose proof (f_equal len Heq) as Hl. rewrite !len_app in Hl. lia. }
  by destruct (append_inj_len a a' b b Hlen Heq).
Qed.

(** The key [getImageSize] gives to its [count]-th call. *)
Definition keyOf (imgUrl : string) (count : N) : string :=
  imgUrl +:+ "[" +:+ pretty count +:+ "]".

(** The counter can be read back from the key: keys made from different
    counters differ, whatever the addresses. *)
Lemma keyOf_counter u c u' c' : keyOf u c = keyOf u' c' → c = c'.
Proof.
  unfold keyOf. intros Heq.
  assert (Hplain : ∀ x : N, hasChar "[" (pretty x +:+ "]") = false).
  { intros x. by rewrite hasChar_app, pretty_N_plain. }
  assert (Hpos : ∀ v (x : N),
            lastIndexOf "[" (v +:+ "[" +:+ pretty x +:+ "]") = len v).
  { intros v x. unfold lastIndexOf.
    change (v +:+ "[" +:+ pretty x +:+ "]") with (v +:+ String "[" (pretty x +:+ "]")).
    rewrite lastIndexOfFrom_last_char by (done || lia). lia. }
  assert (Hlen : len u = len u') by (rewrite <- (Hpos u c), <- (Hpos u' c'); by rewrite Heq).
  destruct (append_inj_len _ _ _ _ Hlen Heq) as [_ Htail].
  change ("[" +:+ pretty c +:+ "]") with (String "[" (pretty c +:+ "]")) in Htail.
  change ("[" +:+ pretty c' +:+ "]") with (String "[" (pretty c' +:+ "]")) in Htail.
  injection Htail as Htail. apply append_inj_r in Htail.
  by apply (inj pretty).
Qed.

Section Validator.
Variable validURL : string → bool.
Variables protocolOf hostnameOf pathnameOf : string → option string.
Variable testEnv : bool.
Variable sizeOf : list Byte.byte → option dimensions.
Variable imageType : list Byte.byte → option string.
Variable sizeCalls : string → list (option string * option dimensions).
Variable busEntry : string → option (option string * option dimensions).

Local Abbreviation checkImageUrl := (checkImageUrl validURL testEnv sizeCalls busEntry).
Local Abbreviation validation :=
  (validation validURL protocolOf pathnameOf sizeOf imageType).
Local Abbreviation handle := (handle sizeOf imageType).
Local Abbreviation getImageSize := (getImageSize validURL protocolOf pathnameOf).
Local Abbreviation extensionSupportedForSizing := (extensionSupportedForSizing pathnameOf).


(** A request in flight: its key is the one entry added to the store
    [ks] it started from, and the callback has not been called. *)
Definition inFlight (ks : gmap string string) (key : string) (m : machine) : Prop :=
  (∃ status, keyStore m = <[key := status]> ks) ∧ calls m = [].

(** A request that is over: the store is back to [ks] and the callback
    has been called once. *)
Definition settled (ks : gmap string string) (m : machine) : Prop :=
  keyStore m = ks ∧ length (calls m) = 1%nat.

(** The events after which the request is over whenever they arrive. *)
Definition terminal (e : event) : bool :=
  match e with
  | Timeout => true
  | ConnError e => negb (bool_decide (e = "finished"))
  | _ => false
  end.

Lemma guarded_inFlight ks key c m :
  ks !! key = None → inFlight ks key m →
  keyStore (guarded key c m) = ks ∧ calls (guarded key c m) = [c].
Proof.
  intros Hfresh [[status Hks] Hcalls]. unfold guarded, exitKey.
  rewrite Hks, lookup_insert_eq, bool_decide_eq_true_2 by eauto. simpl.
  by rewrite delete_insert_id, Hcalls.
Qed.

Lemma guarded_settled ks key c m :
  ks !! key = None → settled ks m → settled ks (guarded key c m).
Proof.
  intros Hfresh [Hks Hcalls]. unfold guarded, exitKey.
  rewrite Hks, Hfresh, bool_decide_eq_false_2 by (by intros [? ?]). by split.
Qed.

Lemma guarded_over ks key c m :
  ks !! key = None → inFlight ks key m ∨ settled ks m → settled ks (guarded key c m).
Proof.
  intros Hfresh [Hm|Hm]; [|by apply guarded_settled].
  destruct (guarded_inFlight ks key c m Hfresh Hm) as [Hks Hcalls].
  split; [done | by rewrite Hcalls].
Qed.

Lemma updating_inFlight ks key status m k :
  inFlight ks key m →
  ∃ m', updating key status m k = k m' ∧ inFlight ks key m' ∧
        responded m' = responded m ∧ chunks m' = chunks m ∧ thrown m' = thrown m.
Proof.
  intros [[status' Hks] Hcalls]. unfold updating, updateKey.
  rewrite Hks, lookup_insert_eq, bool_decide_eq_true_2 by eauto.
  eexists; split; [done|]. repeat split; simpl; [|done].
  exists status. by rewrite insert_insert_eq.
Qed.

Lemma updating_settled ks key status m k :
  ks !! key = None → settled ks m → settled ks (updating key status m k).
Proof.
  intros Hfresh [Hks Hcalls]. unfold updating, updateKey.
  rewrite Hks, Hfresh, bool_decide_eq_false_2 by (by intros [? ?]). by split.
Qed.

Lemma updating_either ks key status m k :
  ks !! key = None →
  (∀ m', inFlight ks key m' → inFlight ks key (k m') ∨ settled ks (k m')) →
  inFlight ks key m ∨ settled ks m →
  inFlight ks key (updating key status m k) ∨ settled ks (updating key status m k).
Proof.
  intros Hfresh Hk [Hm|Hm].
  - destruct (updating_inFlight ks key status m k Hm) as (m' & -> & Hm' & _).
    by apply Hk.
  - right. by apply updating_settled.
Qed.

Lemma handle_either ks r m e :
  ks !! thisKey r = None → existenceOnly r = false →
  inFlight ks (thisKey r) m ∨ settled ks m →
  inFlight ks (thisKey r) (handle r m e) ∨ settled ks (handle r m e).
Proof.
  intros Hfresh Hext Hm.
  assert (Hg : ∀ c m', inFlight ks (thisKey r) m' ∨ settled ks m' →
            inFlight ks (thisKey r) (guarded (thisKey r) c m') ∨
            settled ks (guarded (thisKey r) c m')).
  { intros c m' Hm'. right. by apply guarded_over. }
  destruct e as [|chunk| |e|e|]; simpl.
  - apply updating_either; [done| |done]. intros m' [Hks Hcalls]. by left.
  - destruct (responded m); [|done]. unfold processData.
    apply updating_either; [done| |].
    + intros m1 Hm1. apply updating_either; [done| |by left].
      intros m2 Hm2. destruct (sizeOf (chunks m2)); [by left|].
      apply updating_either; [done| |by left]. intros; by left.
    + destruct Hm as [[Hks Hcalls]|Hm]; [by left | by right].
  - destruct (responded m); [|done]. unfold processFileEnd. rewrite Hext.
    destruct (sizeOf (chunks m)) as [ret|]; [|by apply Hg].
    destruct (typeMismatch ret (ext r)); by apply Hg.
  - destruct (responded m); [|done].
    apply updating_either; [done| |done]. intros m' Hm'.
    case_bool_decide; [by left | apply Hg; by left].
  - case_bool_decide; [done | by apply Hg].
  - by apply Hg.
Qed.

Lemma handle_terminal ks r m e :
  ks !! thisKey r = None → terminal e = true →
  inFlight ks (thisKey r) m ∨ settled ks m → settled ks (handle r m e).
Proof.
  intros Hfresh Hterm Hm. destruct e as [|chunk| |e|e|]; try discriminate; simpl.
  - simpl in Hterm. apply negb_true_iff in Hterm. rewrite Hterm.
    by apply guarded_over.
  - by apply guarded_over.
Qed.

Lemma handle_settled ks r m e :
  ks !! thisKey r = None → existenceOnly r = false →
  settled ks m → settled ks (handle r m e).
Proof.
  intros Hfresh Hext Hm. destruct e as [|chunk| |e|e|]; simpl.
  - by apply updating_settled.
  - destruct (responded m); [|done]. by apply updating_settled.
  - destruct (responded m); [|done]. unfold processFileEnd. rewrite Hext.
    destruct (sizeOf (chunks m)) as [ret|]; [|by apply guarded_settled].
    destruct (typeMismatch ret (ext r)); by apply guarded_settled.
  - destruct (responded m); [|done]. by apply updating_settled.
  - case_bool_decide; [done | by apply guarded_settled].
  - by apply guarded_settled.
Qed.

Lemma foldl_settled ks r m events :
  ks !! thisKey r = None → existenceOnly r = false →
  settled ks m → settled ks (foldl (handle r) m events).
Proof.
  intros Hfresh Hext. revert m.
  induction events as [|e events IH]; intros m Hm; simpl; [done|].
  apply IH. by apply handle_settled.
Qed.

Lemma foldl_terminal ks r m events :
  ks !! thisKey r = None → existenceOnly r = false →
  Exists (λ e, terminal e = true) events →
  inFlight ks (thisKey r) m ∨ settled ks m →
  settled ks (foldl (handle r) m events).
Proof.
  intros Hfresh Hext Hex. revert m.
  induction Hex as [e events He|e events Hex IH]; intros m Hm; simpl.
  - apply foldl_settled; [done..|]. by apply handle_terminal.
  - apply IH. by apply handle_either.
Qed.

Lemma launch_inFlight imgUrl ks count :
  validURL imgUrl = true → isHttp protocolOf imgUrl = true →
  ks !! keyOf imgUrl count = None →
  ∃ m, getImageSize imgUrl ks count =
         (m, Some (Request (keyOf imgUrl count)
                     (negb (extensionSupportedForSizing imgUrl).2)
                     (extensionSupportedForSizing imgUrl).1)) ∧
       inFlight ks (keyOf imgUrl count) m ∧
       responded m = false ∧ thrown m = [].
Proof.
  intros Hvalid Hhttp Hfresh. unfold CheckImageUrl.getImageSize.
  rewrite Hvalid, Hhttp. simpl negb. cbv iota. fold (keyOf imgUrl count).
  unfold enterKey. rewrite Hfresh, bool_decide_eq_false_2 by (by intros [? ?]).
  eexists; split; [reflexivity|].
  unfold updating, updateKey; simpl.
  rewrite lookup_insert_eq, bool_decide_eq_true_2 by eauto. simpl.
  repeat split; try done. eexists. by rewrite insert_insert_eq.
Qed.

(** How often a run of [checkImageUrl] calls the callback. *)
Fixpoint answers (es : list effect) : nat :=
  match es with
  | [] => 0
  | Callback _ _ :: es' => S (answers es')
  | Fetch _ :: es' => answers es'
  end.

Lemma answers_calls (l : list (option string * option dimensions)) :
  answers ((λ c, match c with
                 | (Some err, _) => Callback (Some err) None
                 | (None, None) => Callback None None
                 | (None, Some d) => Callback None (Some d)
                 end) <$> l) = length l.
Proof.
  induction l as [|[[err|] [d|]] l IH]; [done|..];
    rewrite fmap_cons; cbn [answers length]; by rewrite IH.
Qed.

(** X5.  A request for an address whose extension [image-size] supports
    calls its callback at most once, whatever the transport delivers and in
    whatever order, and whatever the key store held before.  So
    [checkImageUrl], which hands these calls on, answers such an address
    at most once. *)
Theorem validation_calls_back_at_most_once (imgUrl : string)
    (ks : gmap string string) (count : N) (events : list event) :
  (extensionSupportedForSizing imgUrl).2 = true →
  (length (calls (validation imgUrl ks count events)) ≤ 1)%nat ∧
  (sizeCalls imgUrl = calls (validation imgUrl ks count events) →
   (answers (checkImageUrl imgUrl) ≤ 1)%nat).
Proof.
  intros Hsup.
  assert (Hone : (length (calls (validation imgUrl ks count events)) ≤ 1)%nat).
  { unfold CheckImageUrl.validation, CheckImageUrl.getImageSize.
    destruct (validURL imgUrl); simpl negb; cbv iota; [|simpl; lia].
    fold (keyOf imgUrl count). unfold enterKey.
    case_bool_decide as Hin; [simpl; lia|].
    destruct (isHttp protocolOf imgUrl).
    - apply supported_request_called_at_most_once; [by rewrite Hsup|].
      apply updating_claimedOnce; [by intros|]. split; simpl; [done | lia].
    - apply guarded_claimedOnce. split; simpl; [done | lia]. }
  split; [done|]. intros Hcalls. unfold CheckImageUrl.checkImageUrl.
  destruct (negb (validURL imgUrl)); [simpl; lia|].
  destruct (httpUrlPattern imgUrl); [|simpl; lia].
  destruct (busEntry imgUrl) as [[err data]|]; [simpl; lia|].
  unfold CheckImageUrl._checkImageUrl.
  destruct (startsWith "data:" imgUrl); [simpl; lia|].
  destruct testEnv; [case_bool_decide; simpl; lia|].
  cbn [answers]. by rewrite answers_calls, Hcalls.
Qed.

(** X6.  Once the time-out fires or the connection fails, a request with
    a supported extension is over for good: the callback has been called
    exactly once, whatever else the transport delivers before or after,
    and the key store is back to what it was before the request. *)
Theorem validation_settles (imgUrl : string) (ks : gmap string string)
    (count : N) (events : list event) :
  (extensionSupportedForSizing imgUrl).2 = true →
  ks !! keyOf imgUrl count = None →
  Exists (λ e, terminal e = true) events →
  keyStore (validation imgUrl ks count events) = ks ∧
  length (calls (validation imgUrl ks count events)) = 1%nat.
Proof.
  intros Hsup Hfresh Hex. change (settled ks (validation imgUrl ks count events)).
  unfold CheckImageUrl.validation.
  destruct (validURL imgUrl) eqn:Hvalid.
  - destruct (isHttp protocolOf imgUrl) eqn:Hhttp.
    + destruct (launch_inFlight imgUrl ks count Hvalid Hhttp Hfresh)
        as (m & -> & Hm & _).
      apply foldl_terminal; simpl; [done | by rewrite Hsup | done | by left].
    + unfold CheckImageUrl.getImageSize. rewrite Hvalid, Hhttp. simpl negb. cbv iota.
      fold (keyOf imgUrl count). unfold enterKey.
      rewrite Hfresh, bool_decide_eq_false_2 by (by intros [? ?]).
      apply guarded_over; [done|]. left. split; simpl; [eauto | done].
  - unfold CheckImageUrl.getImageSize. rewrite Hvalid. by split.
Qed.

Lemma data_inFlight ks r m chunk :
  inFlight ks (thisKey r) m → responded m = true →
  inFlight ks (thisKey r) (handle r m (Data chunk)) ∧
  responded (handle r m (Data chunk)) = true ∧
  chunks (handle r m (Data chunk)) = chunks m ++ chunk ∧
  thrown (handle r m (Data chunk)) = thrown m.
Proof.
  intros Hm Hresp. simpl. rewrite Hresp. unfold processData.
  assert (Hm0 : inFlight ks (thisKey r) (withChunks (chunks m ++ chunk) m)) by done.
  destruct (updating_inFlight ks (thisKey r) "got a chunk" _
              (λ m, updating (thisKey r) "size calculated, ending file read" m (λ m,
                 match sizeOf (chunks m) with
                 | Some _ => m
                 | None => updating (thisKey r) "size calculate failed, continue reading" m id
                 end)) Hm0) as (m1 & -> & Hm1 & Hr1 & Hc1 & Ht1).
  destruct (updating_inFlight ks (thisKey r) "size calculated, ending file read" m1
              (λ m, match sizeOf (chunks m) with
                 | Some _ => m
                 | None => updating (thisKey r) "size calculate failed, continue reading" m id
                 end) Hm1) as (m2 & -> & Hm2 & Hr2 & Hc2 & Ht2).
  destruct (sizeOf (chunks m2)).
  - rewrite Hr2, Hc2, Ht2, Hr1, Hc1, Ht1. by simpl.
  - destruct (updating_inFlight ks (thisKey r)
                "size calculate failed, continue reading" m2 id Hm2)
      as (m3 & -> & Hm3 & Hr3 & Hc3 & Ht3).
    unfold id. rewrite Hr3, Hc3, Ht3, Hr2, Hc2, Ht2, Hr1, Hc1, Ht1. by simpl.
Qed.

Lemma body_inFlight ks r m cs :
  inFlight ks (thisKey r) m → responded m = true →
  inFlight ks (thisKey r) (foldl (handle r) m (Data <$> cs)) ∧
  responded (foldl (handle r) m (Data <$> cs)) = true ∧
  chunks (foldl (handle r) m (Data <$> cs)) = chunks m ++ concat cs ∧
  thrown (foldl (handle r) m (Data <$> cs)) = thrown m.
Proof.
  revert m. induction cs as [|c cs IH]; intros m Hm Hresp.
  - simpl. by rewrite app_nil_r.
  - change (foldl (handle r) m (Data <$> c :: cs))
      with (foldl (handle r) (handle r m (Data c)) (Data <$> cs)).
    destruct (data_inFlight ks r m c Hm Hresp) as (Hm' & Hr' & Hc' & Ht').
    destruct (IH _ Hm' Hr') as (? & ? & Hc & Ht).
    rewrite Hc, Hc', Ht, Ht'. simpl concat. by rewrite <- app_assoc.
Qed.

(** What the end of the response reports for a body. *)
Definition reportOf (ext' : string) (body : list Byte.byte)
    : option string * option dimensions :=
  match sizeOf body with
  | Some ret =>
      if typeMismatch ret ext'
      then (Some ("type mismatch: " +:+ propertyKey (imgType ret)), None)
      else (None, Some ret)
  | None => (None, Some loadedNoCalc)
  end.

(** X7.  A transfer that runs to its end (the response arrives, the body
    comes in any number of chunks, the response ends) for an address with
    a supported extension calls back exactly once, with what [image-size]
    reads from the whole body: its dimensions, or a type mismatch error
    when the type read differs from the extension and is not ["jpg"]; a
    body [image-size] cannot read is reported as loaded, 10 by 10.  The
    status of the response plays no part, nothing is thrown, and the key
    store is left as it was. *)
Theorem complete_transfer_reports_body (imgUrl : string) (ks : gmap string string)
    (count : N) (cs : list (list Byte.byte)) :
  validURL imgUrl = true →
  isHttp protocolOf imgUrl = true →
  (extensionSupportedForSizing imgUrl).2 = true →
  ks !! keyOf imgUrl count = None →
  let m := validation imgUrl ks count (Response :: (Data <$> cs) ++ [End]) in
  calls m = [reportOf (extensionSupportedForSizing imgUrl).1 (concat cs)] ∧
  thrown m = [] ∧ keyStore m = ks.
Proof.
  intros Hvalid Hhttp Hsup Hfresh. unfold CheckImageUrl.validation.
  destruct (launch_inFlight imgUrl ks count Hvalid Hhttp Hfresh)
    as (m0 & -> & Hm0 & Hr0 & Ht0).
  set (r := Request _ _ _). cbn [foldl].
  assert (Hkey : thisKey r = keyOf imgUrl count) by done.
  rewrite foldl_app.
  destruct (updating_inFlight ks (keyOf imgUrl count) "transporting" m0 withResponse Hm0)
    as (m1 & Hm1eq & Hm1 & Hr1 & Hc1 & Ht1).
  assert (Hresp : handle r m0 Response = withResponse m1) by done.
  rewrite Hresp.
  assert (Hm1' : inFlight ks (thisKey r) (withResponse m1)) by done.
  destruct (body_inFlight ks r (withResponse m1) cs Hm1' eq_refl)
    as (Hm2 & Hr2 & Hc2 & Ht2).
  set (m2 := foldl (handle r) (withResponse m1) (Data <$> cs)) in *.
  cbn [foldl handle]. rewrite Hr2. unfold processFileEnd, reportOf.
  subst r. cbn [existenceOnly ext thisKey] in *. rewrite Hsup. simpl negb. cbv iota.
  rewrite Hc2. cbn [chunks withResponse app].
  assert (Hg : ∀ c, let m := guarded (keyOf imgUrl count) c m2 in
            calls m = [c] ∧ thrown m = [] ∧ keyStore m = ks).
  { intros c. destruct (guarded_inFlight ks _ c m2 Hfresh Hm2) as [Hks Hcalls].
    repeat split; [done| |done].
    unfold guarded. destruct (exitKey _ _) as [ks' []]; simpl;
      rewrite Ht2; cbn [thrown withResponse]; by rewrite Ht1, Ht0. }
  destruct (sizeOf (concat cs)) as [ret|]; [|apply Hg].
  destruct (typeMismatch ret _); apply Hg.
Qed.

(** What is reported of a body whose address has no extension
    [image-size] supports. *)
Definition existenceDims : dimensions :=
  Dimensions true None None None (Some "existenceOnly").

Definition existenceReport (body : list Byte.byte) : option string * option dimensions :=
  match imageType body with
  | Some _ => (None, Some existenceDims)
  | None => (Some "bad image type", None)
  end.

(** X8.  For an address whose extension [image-size] does not support,
    a transfer that runs to its end is judged by its bytes alone: when
    [image-type] recognises the body the callback is called once with a
    result that says loaded and carries no width and no height, otherwise
    once with the error for a bad image type.  Nothing is thrown and the
    key store is left as it was.  The size of such an image is never
    read, and a candidate with this result has size score 0. *)
Theorem complete_transfer_existence_only (imgUrl : string) (ks : gmap string string)
    (count : N) (cs : list (list Byte.byte)) :
  validURL imgUrl = true →
  isHttp protocolOf imgUrl = true →
  (extensionSupportedForSizing imgUrl).2 = false →
  ks !! keyOf imgUrl count = None →
  let m := validation imgUrl ks count (Response :: (Data <$> cs) ++ [End]) in
  calls m = [existenceReport (concat cs)] ∧ thrown m = [] ∧ keyStore m = ks ∧
  ∀ cfg log img,
    ImageScore.sizeScore cfg log (BestImage.setDims (Some existenceDims) img) = 0%Q.
Proof.
  intros Hvalid Hhttp Hsup Hfresh. unfold CheckImageUrl.validation.
  destruct (launch_inFlight imgUrl ks count Hvalid Hhttp Hfresh)
    as (m0 & -> & Hm0 & Hr0 & Ht0).
  set (r := Request _ _ _). cbn [foldl].
  rewrite foldl_app.
  destruct (updating_inFlight ks (keyOf imgUrl count) "transporting" m0 withResponse Hm0)
    as (m1 & Hm1eq & Hm1 & Hr1 & Hc1 & Ht1).
  assert (Hresp : handle r m0 Response = withResponse m1) by done.
  rewrite Hresp.
  assert (Hm1' : inFlight ks (thisKey r) (withResponse m1)) by done.
  destruct (body_inFlight ks r (withResponse m1) cs Hm1' eq_refl)
    as (Hm2 & Hr2 & Hc2 & Ht2).
  set (m2 := foldl (handle r) (withResponse m1) (Data <$> cs)) in *.
  cbn [foldl handle]. rewrite Hr2. unfold processFileEnd, existenceReport.
  subst r. cbn [existenceOnly ext thisKey] in *. rewrite Hsup. simpl negb. cbv iota.
  rewrite Hc2. cbn [chunks withResponse app].
  assert (Hthrown : thrown m2 = []).
  { rewrite Ht2. cbn [thrown withResponse]. by rewrite Ht1, Ht0. }
  destruct (guarded_inFlight ks _ (None, Some existenceDims) m2 Hfresh Hm2)
    as [Hks Hcalls].
  destruct Hm2 as [[status Hstore] Hnone].
  destruct (imageType (concat cs)) as [itype|].
  - change (typeMismatch _ _) with false. cbv iota.
    split; [done|]. split; [|by split].
    unfold guarded. by destruct (exitKey _ _) as [ks' []].
  - cbn [calls thrown keyStore call withStore]. rewrite Hnone, Hthrown.
    split; [done|]. split; [done|]. split; [|done].
    unfold exitKey. rewrite Hstore, lookup_insert_eq.
    rewrite bool_decide_eq_true_2 by eauto. simpl. by rewrite delete_insert_id.
Qed.

(** X9.  An event of the response that arrives after the request is
    over makes its handler throw: once the time-out has claimed the key,
    the handler of a read error (or of a data chunk) calls [updateKey]
    for a key that is gone.  The callback is not called again, but the
    exception escapes the event handler. *)
Theorem late_event_throws (imgUrl : string) (ks : gmap string string)
    (count : N) (e : event) :
  validURL imgUrl = true →
  isHttp protocolOf imgUrl = true →
  ks !! keyOf imgUrl count = None →
  (∃ chunk, e = Data chunk) ∨ (∃ msg, e = ReadError msg) →
  let m := validation imgUrl ks count [Response; Timeout; e] in
  calls m = [(Some "Timeout", None)] ∧
  thrown m = ["updating a non existent key:" +:+ keyOf imgUrl count] ∧
  keyStore m = ks.
Proof.
  intros Hvalid Hhttp Hfresh He. unfold CheckImageUrl.validation.
  destruct (launch_inFlight imgUrl ks count Hvalid Hhttp Hfresh)
    as (m0 & -> & Hm0 & Hr0 & Ht0).
  set (r := Request _ _ _). cbn [foldl].
  destruct (updating_inFlight ks (keyOf imgUrl count) "transporting" m0 withResponse Hm0)
    as (m1 & Hm1eq & Hm1 & Hr1 & Hc1 & Ht1).
  assert (Hresp : handle r m0 Response = withResponse m1) by done.
  rewrite Hresp.
  assert (Hm1' : inFlight ks (keyOf imgUrl count) (withResponse m1)) by done.
  destruct (guarded_inFlight ks _ (Some "Timeout", None) _ Hfresh Hm1') as [Hks Hcalls].
  assert (Htime : handle r (withResponse m1) Timeout =
                  guarded (keyOf imgUrl count) (Some "Timeout", None) (withResponse m1))
    by done.
  rewrite Htime. set (m2 := guarded _ _ _) in *.
  assert (Hr2 : responded m2 = true).
  { unfold m2, guarded. by destruct (exitKey _ _) as [? []]. }
  assert (Ht2 : thrown m2 = []).
  { unfold m2, guarded. destruct (exitKey _ _) as [? []]; simpl; by rewrite Ht1, Ht0. }
  assert (Hthrow : ∀ status k,
            updating (keyOf imgUrl count) status m2 k =
            throw ("updating a non existent key:" +:+ keyOf imgUrl count) m2).
  { intros status k. unfold updating, updateKey.
    rewrite Hks, Hfresh. by rewrite bool_decide_eq_false_2 by (by intros [? ?]). }
  destruct He as [[chunk ->]|[msg ->]]; cbn [handle thisKey r]; rewrite Hr2.
  - unfold processData.
    assert (Hthrow' : ∀ status k b,
              updating (keyOf imgUrl count) status (withChunks b m2) k =
              throw ("updating a non existent key:" +:+ keyOf imgUrl count)
                (withChunks b m2)).
    { intros status k b. unfold updating, updateKey. cbn [keyStore withChunks].
      rewrite Hks, Hfresh. by rewrite bool_decide_eq_false_2 by (by intros [? ?]). }
    rewrite Hthrow'. cbn [calls thrown keyStore throw withChunks].
    by rewrite Hcalls, Ht2, Hks.
  - rewrite Hthrow. cbn [calls thrown keyStore throw].
    by rewrite Hcalls, Ht2, Hks.
Qed.

(** *** Keys never collide *)

(** Every key of the store was made from a counter below the current
    one. *)
Definition storeBelow (ks : gmap string string) (count : N) : Prop :=
  ∀ key, is_Some (ks !! key) → ∃ u c, key = keyOf u c ∧ (c < count)%N.

Lemma keyOf_fresh ks imgUrl count :
  storeBelow ks count → ks !! keyOf imgUrl count = None.
Proof.
  intros Hks. apply eq_None_not_Some. intros (u & c & Hkey & Hlt)%Hks.
  apply keyOf_counter in Hkey. lia.
Qed.

Lemma storeBelow_mono ks count count' :
  (count ≤ count')%N → storeBelow ks count → storeBelow ks count'.
Proof.
  intros Hle Hks key (u & c & -> & Hlt)%Hks. exists u, c. split; [done | lia].
Qed.

Lemma storeBelow_insert ks count u status :
  storeBelow ks count → storeBelow (<[keyOf u count := status]> ks) (count + 1).
Proof.
  intros Hks key. destruct (decide (key = keyOf u count)) as [->|Hne].
  - intros _. exists u, count. split; [done | lia].
  - rewrite lookup_insert_ne by done. intros (u' & c & -> & Hlt)%Hks.
    exists u', c. split; [done | lia].
Qed.

(** The store holds only keys made from earlier counters, and the only
    exception thrown so far is the one of [updateKey]. *)
Definition sound (m : machine) : Prop :=
  storeBelow (keyStore m) (callCount m) ∧
  ∀ msg, msg ∈ thrown m → ∃ key, msg = "updating a non existent key:" +:+ key.

Lemma storeBelow_update ks count key status :
  is_Some (ks !! key) → storeBelow ks count → storeBelow (<[key := status]> ks) count.
Proof.
  intros Hin Hks k. destruct (decide (k = key)) as [->|Hne].
  - intros _. by apply Hks.
  - rewrite lookup_insert_ne by done. apply Hks.
Qed.

Lemma storeBelow_delete ks count key :
  storeBelow ks count → storeBelow (delete key ks) count.
Proof.
  intros Hks k Hk. apply Hks. destruct Hk as [v Hv].
  apply lookup_delete_Some in Hv as [_ Hv]. by eexists.
Qed.

Lemma exitKey_storeBelow ks count key :
  storeBelow ks count → storeBelow (exitKey key ks).1 count.
Proof.
  intros Hks. unfold exitKey. case_bool_decide; simpl; [|done].
  by apply storeBelow_delete.
Qed.

Lemma guarded_sound key c m : sound m → sound (guarded key c m).
Proof.
  intros [Hks Hthrown]. unfold guarded.
  pose proof (exitKey_storeBelow (keyStore m) (callCount m) key Hks) as Hexit.
  destruct (exitKey key (keyStore m)) as [ks' []]; by split.
Qed.

Lemma updating_sound key status m k :
  (∀ m', sound m' → sound (k m')) → sound m → sound (updating key status m k).
Proof.
  intros Hk [Hks Hthrown]. unfold updating, updateKey.
  case_bool_decide as Hin.
  - apply Hk. split; simpl; [by apply storeBelow_update | done].
  - split; simpl; [done|]. intros msg [Hmsg|Hmsg]%elem_of_app; [by apply Hthrown|].
    apply list_elem_of_singleton in Hmsg as ->. by eexists.
Qed.

Lemma handle_sound r m e : sound m → sound (handle r m e).
Proof.
  intros Hm. destruct e as [|chunk| |e|e|]; simpl.
  - apply updating_sound; [|done]. by intros m' [? ?].
  - destruct (responded m); [|done]. unfold processData.
    apply updating_sound; [|by destruct Hm]. intros m1 Hm1.
    apply updating_sound; [|done]. intros m2 Hm2.
    destruct (sizeOf (chunks m2)); [done|]. by apply updating_sound.
  - destruct (responded m); [|done]. unfold processFileEnd.
    destruct (existenceOnly r).
    + destruct (imageType (chunks m)).
      * destruct (typeMismatch _ _); by apply guarded_sound.
      * destruct Hm as [Hks Hthrown]. split; simpl; [|done].
        by apply exitKey_storeBelow.
    + destruct (sizeOf (chunks m)) as [ret|]; [|by apply guarded_sound].
      destruct (typeMismatch _ _); by apply guarded_sound.
  - destruct (responded m); [|done]. apply updating_sound; [|done].
    intros m' Hm'. case_bool_decide; [done | by apply guarded_sound].
  - case_bool_decide; [done | by apply guarded_sound].
  - by apply guarded_sound.
Qed.

Lemma handle_callCount r m e : callCount (handle r m e) = callCount m.
Proof.
  assert (Hg : ∀ key c m', callCount (guarded key c m') = callCount m').
  { intros key c m'. unfold guarded. by destruct (exitKey _ _) as [? []]. }
  assert (Hu : ∀ key status m' k, (∀ m'', callCount (k m'') = callCount m'') →
            callCount (updating key status m' k) = callCount m').
  { intros key status m' k Hk. unfold updating. destruct (updateKey _ _ _); [|done].
    by rewrite Hk. }
  destruct e as [|chunk| |e|e|]; simpl.
  - by apply Hu.
  - destruct (responded m); [|done]. unfold processData.
    rewrite Hu; [done|]. intros m1. rewrite Hu; [done|]. intros m2.
    destruct (sizeOf _); [done|]. by rewrite Hu.
  - destruct (responded m); [|done]. unfold processFileEnd.
    destruct (existenceOnly r).
    + destruct (imageType _); [|done]. by destruct (typeMismatch _ _); rewrite Hg.
    + destruct (sizeOf _); [|by rewrite Hg]. by destruct (typeMismatch _ _); rewrite Hg.
  - destruct (responded m); [|done]. rewrite Hu; [done|]. intros m'.
    case_bool_decide; [done | by rewrite Hg].
  - case_bool_decide; [done | by rewrite Hg].
  - by rewrite Hg.
Qed.

(** X10.  The keys of the requests never collide.  As long as the store
    holds only keys made from counters below the current one (as it does
    at the start, when it is empty), so it does after a request, whatever
    the address and whatever the transport delivers; the counter never
    goes down; and the exception of [enterKey] for a key that is already
    there is never thrown. *)
Theorem request_keys_never_collide (imgUrl : string) (ks : gmap string string)
    (count : N) (events : list event) :
  storeBelow ks count →
  let m := validation imgUrl ks count events in
  storeBelow (keyStore m) (callCount m) ∧
  (count ≤ callCount m)%N ∧
  ∀ msg, msg ∈ thrown m → ∃ key, msg = "updating a non existent key:" +:+ key.
Proof.
  intros Hks.
  assert (Hfold : ∀ r m, sound m → (count ≤ callCount m)%N →
            sound (foldl (handle r) m events) ∧
            (count ≤ callCount (foldl (handle r) m events))%N).
  { intros r. induction events as [|e events IH]; intros m Hm Hle; [done|].
    simpl. apply IH; [by apply handle_sound | by rewrite handle_callCount]. }
  assert (Hgoal : sound (validation imgUrl ks count events) ∧
                  (count ≤ callCount (validation imgUrl ks count events))%N);
    [|by destruct Hgoal as [[? ?] ?]].
  unfold CheckImageUrl.validation, CheckImageUrl.getImageSize.
  destruct (validURL imgUrl); simpl negb; cbv iota.
  2:{ split; [split; [done|]|simpl; lia]. simpl. by intros msg ?%elem_of_nil. }
  fold (keyOf imgUrl count). unfold enterKey.
  rewrite (keyOf_fresh ks imgUrl count Hks).
  rewrite bool_decide_eq_false_2 by (by intros [? ?]).
  assert (Hstart : sound (withStore (<[keyOf imgUrl count := "enter"]> ks)
                            (Machine ks (count + 1) false [] [] []))).
  { split; simpl; [by apply storeBelow_insert|]. by intros msg ?%elem_of_nil. }
  destruct (isHttp protocolOf imgUrl).
  - apply Hfold.
    + by apply updating_sound.
    + unfold updating, updateKey. simpl.
      rewrite lookup_insert_eq, bool_decide_eq_true_2 by eauto. simpl. lia.
  - split; [by apply guarded_sound|].
    unfold guarded. destruct (exitKey _ _) as [? []]; simpl; lia.
Qed.

End Validator.

Lemma validation_calls_back_at_most_once_witness :
  (length (calls (validation (λ _, true) (λ _, Some "http:") (λ _, Some "/logo.png")
                    (λ _, None) (λ _, None) "http://a.com/logo.png" ∅ 1
                    [Timeout; Response; End; ConnError "reset"; Timeout])) ≤ 1)%nat ∧
  ((λ _ : string, [(Some "Timeout", None)]) "http://a.com/logo.png" =
     calls (validation (λ _, true) (λ _, Some "http:") (λ _, Some "/logo.png")
              (λ _, None) (λ _, None) "http://a.com/logo.png" ∅ 1
              [Timeout; Response; End; ConnError "reset"; Timeout]) →
   (answers (checkImageUrl (λ _, true) false (λ _, [(Some "Timeout", None)])
               (λ _, None) "http://a.com/logo.png") ≤ 1)%nat).
Proof.
  apply (validation_calls_back_at_most_once (λ _, true) (λ _, Some "http:")
           (λ _, Some "/logo.png") false (λ _, None) (λ _, None)
           (λ _, [(Some "Timeout", None)]) (λ _, None)
           "http://a.com/logo.png" ∅ 1
           [Timeout; Response; End; ConnError "reset"; Timeout]).
  vm_compute. reflexivity.
Defined.

Lemma validation_settles_witness :
  keyStore (validation (λ _, true) (λ _, Some "http:") (λ _, Some "/logo.png")
              (λ _, None) (λ _, None) "http://a.com/logo.png" ∅ 1
              [Response; Data [Byte.x3c]; Timeout; End]) = ∅ ∧
  length (calls (validation (λ _, true) (λ _, Some "http:") (λ _, Some "/logo.png")
                   (λ _, None) (λ _, None) "http://a.com/logo.png" ∅ 1
                   [Response; Data [Byte.x3c]; Timeout; End])) = 1%nat.
Proof.
  apply validation_settles.
  - vm_compute. reflexivity.
  - reflexivity.
  - apply Exists_cons_tl, Exists_cons_tl, Exists_cons_hd. reflexivity.
Defined.

Lemma complete_transfer_existence_only_witness :
  let m := validation (λ _, true) (λ _, Some "http:") (λ _, Some "/banner.ashx")
             (λ _, None) (λ _, Some "jpg") "http://a.com/banner.ashx" ∅ 1
             (Response :: (Data <$> [[Byte.xff]; [Byte.xd8]]) ++ [End]) in
  calls m = [existenceReport (λ _, Some "jpg") [Byte.xff; Byte.xd8]] ∧
  thrown m = [] ∧ keyStore m = ∅ ∧
  ∀ cfg log img,
    ImageScore.sizeScore cfg log (BestImage.setDims (Some existenceDims) img) = 0%Q.
Proof.
  apply (complete_transfer_existence_only (λ _, true) (λ _, Some "http:")
           (λ _, Some "/banner.ashx") (λ _, None) (λ _, Some "jpg")
           "http://a.com/banner.ashx" ∅ 1 [[Byte.xff]; [Byte.xd8]]);
    vm_compute; reflexivity.
Defined.

Lemma late_event_throws_witness :
  let m := validation (λ _, true) (λ _, Some "http:") (λ _, Some "/logo.png")
             (λ _, None) (λ _, None) "http://a.com/logo.png" ∅ 1
             [Response; Timeout; ReadError "aborted"] in
  calls m = [(Some "Timeout", None)] ∧
  thrown m = ["updating a non existent key:" +:+ keyOf "http://a.com/logo.png" 1] ∧
  keyStore m = ∅.
Proof.
  apply (late_event_throws (λ _, true) (λ _, Some "http:") (λ _, Some "/logo.png")
           (λ _, None) (λ _, None) "http://a.com/logo.png" ∅ 1 (ReadError "aborted")).
  - reflexivity.
  - reflexivity.
  - reflexivity.
  - right. by exists "aborted".
Defined.

Lemma request_keys_never_collide_witness :
  let m := validation (λ _, true) (λ _, Some "http:") (λ _, Some "/logo.png")
             (λ _, None) (λ _, None) "http://a.com/logo.png" ∅ 1
             [Response; End] in
  storeBelow (keyStore m) (callCount m) ∧
  (1 ≤ callCount m)%N ∧
  ∀ msg, msg ∈ thrown m → ∃ key, msg = "updating a non existent key:" +:+ key.
Proof.
  apply (request_keys_never_collide (λ _, true) (λ _, Some "http:")
           (λ _, Some "/logo.png") (λ _, None) (λ _, None)
           "http://a.com/logo.png" ∅ 1 [Response; End]).
  intros key [v Hv]. by rewrite lookup_empty in Hv.
Defined.

Lemma complete_transfer_reports_body_witness :
  let m := validation (λ _, true) (λ _, Some "http:") (λ _, Some "/logo.png")
             (λ _, None) (λ _, None) "http://a.com/logo.png" ∅ 1
             (Response :: (Data <$> [[Byte.x3c]; [Byte.x68]]) ++ [End]) in
  calls m = [reportOf (λ _, None) "png" [Byte.x3c; Byte.x68]] ∧
  thrown m = [] ∧ keyStore m = ∅.
Proof.
  apply (complete_transfer_reports_body (λ _, true) (λ _, Some "http:")
           (λ _, Some "/logo.png") (λ _, None) (λ _, None)
           "http://a.com/logo.png" ∅ 1 [[Byte.x3c]; [Byte.x68]]);
    vm_compute; reflexivity.
Defined.

End ValidationFacts.

Module ScoringFacts.
Import JsString ImageScore JsStringFacts ImageScoreFacts.
Local Open Scope Q_scope.

(** *** Extensions and source tags *)

Lemma dotted_nonempty ext : (0 < len (dotted ext))%Z.
Proof.
  unfold dotted. pose proof (len_nonneg ext).
  destruct ext as [|c ext]; [done|].
  destruct (decide (c = "."%char)) as [->|Hc].
  - rewrite len_cons. pose proof (len_nonneg ext). lia.
  - assert (Hd : match c with
                 | "."%char => String c ext
                 | _ => String "." (String c ext)
                 end = String "." (String c ext)).
    { by destruct c as [[] [] [] [] [] [] [] []]. }
    rewrite Hd, len_cons. pose proof (len_nonneg (String c ext)). lia.
Qed.

(** X11.  [hasExtension] holds exactly when the file ends with one of the
    extensions, preceded by its ["."], letter case included; or when the
    file is one character shorter than such an ending, whatever its
    characters are ([lastIndexOf] answers [-1], which the comparison of
    lengths takes for a position). *)
Theorem hasExtension_iff (file : string) (extArray : list string) :
  hasExtension file extArray = true ↔
  ∃ ext, ext ∈ extArray ∧
         ((∃ p, file = p +:+ dotted ext) ∨ len file = (len (dotted ext) - 1)%Z).
Proof.
  unfold hasExtension. rewrite existsb_exists. split.
  - intros (ext & Hin & Hext). exists ext. split; [by apply list_elem_of_In|].
    apply bool_decide_eq_true in Hext.
    apply lastIndexOf_at_end in Hext as [[_ Hshort]|Hp]; [by right | by left].
  - intros (ext & Hin & Hext). exists ext. split; [by apply list_elem_of_In|].
    apply bool_decide_eq_true. pose proof (dotted_nonempty ext) as Hd.
    destruct Hext as [[p ->]|Hshort].
    + unfold lastIndexOf. rewrite lastIndexOfFrom_self_suffix by (done || lia).
      rewrite len_app. lia.
    + unfold lastIndexOf. rewrite lastIndexOfFrom_short by lia. lia.
Qed.

(** Every character of [s] is white space. *)
Fixpoint blank (s : string) : bool :=
  match s with
  | "" => true
  | String c s' => isSpace c && blank s'
  end.

Lemma trimStart_blank s : blank (trimStart s) = blank s.
Proof.
  induction s as [|c s IH]; [done|]. simpl.
  destruct (isSpace c) eqn:Hc; [done|]. simpl. by rewrite Hc.
Qed.

Lemma trimStart_empty s : trimStart s = "" ↔ blank s = true.
Proof.
  induction s as [|c s IH]; [done|]. simpl.
  destruct (isSpace c); [done|]. simpl. split; discriminate.
Qed.

Lemma rev_app_blank s t : blank (String.rev_app s t) = blank s && blank t.
Proof.
  revert t. induction s as [|c s IH]; intros t; [done|]. simpl.
  rewrite IH. simpl. by destruct (isSpace c), (blank s), (blank t).
Qed.

Lemma rev_blank s : blank (String.rev s) = blank s.
Proof. unfold String.rev. rewrite rev_app_blank. simpl. apply andb_true_r. Qed.

Lemma blank_empty s : s = "" → blank s = true.
Proof. by intros ->. Qed.

Lemma rev_app_empty s t : String.rev_app s t = "" → s = "" ∧ t = "".
Proof.
  revert t. induction s as [|c s IH]; intros t; [done|]. simpl.
  intros [_ ?]%IH. discriminate.
Qed.

Lemma trim_blank s : (0 < len (trim s))%Z ↔ blank s = false.
Proof.
  unfold trim. split.
  - intros Hlen. destruct (blank s) eqn:Hs; [|done]. exfalso.
    apply trimStart_empty in Hs. rewrite Hs in Hlen. by vm_compute in Hlen.
  - intros Hs. destruct (String.rev _) as [|c t] eqn:Hrev.
    + exfalso. apply rev_app_empty in Hrev as [Hrev _].
      apply trimStart_empty in Hrev. rewrite rev_blank, trimStart_blank in Hrev.
      congruence.
    + rewrite len_cons. pose proof (len_nonneg t). lia.
Qed.

(** X12.  A [src] is a valid source tag exactly when it holds at least one
    character that is not white space: a missing, empty or blank [src]
    is rejected, and the test for data-URIs accepts nothing the test on
    the trimmed length would reject. *)
Theorem isValidSrcTag_iff_not_blank (src' : option string) :
  isValidSrcTag src' = match src' with Some s => negb (blank s) | None => false end.
Proof.
  destruct src' as [s|]; [|done]. unfold isValidSrcTag.
  case_bool_decide as Hempty; [by rewrite Hempty|].
  destruct (startsWith "data:" s) eqn:Hdata.
  - destruct s as [|c s]; [done|]. simpl in Hdata.
    destruct (decide ("d"%char = c)) as [<-|]; [done|discriminate].
  - destruct (blank s) eqn:Hs.
    + apply bool_decide_eq_false_2. rewrite trim_blank. congruence.
    + apply bool_decide_eq_true_2. by apply trim_blank.
Qed.

(** *** Normalisation and order *)

Lemma Qdiv_le_mono x y m : 0 < m → x <= y → x / m <= y / m.
Proof.
  intros Hm Hxy. unfold Qdiv. apply Qmult_le_compat_r; [done|].
  by apply Qlt_le_weak, Qinv_lt_0_compat.
Qed.

Lemma Qdiv_le_anti x y m : m < 0 → x <= y → y / m <= x / m.
Proof.
  intros Hm Hxy.
  assert (Hne : ¬ m == 0) by (intros Heq; rewrite Heq in Hm; by apply Qlt_irrefl in Hm).
  assert (Hy : y / m == (- y) / (- m)) by (by field).
  assert (Hx : x / m == (- x) / (- m)) by (by field).
  rewrite Hx, Hy. apply Qdiv_le_mono; lra.
Qed.

(** X13.  When every score is negative the largest score is negative
    too, and dividing by it turns the order round: every normalised score
    is at least 1, and of two candidates the one that scored lower comes
    out with the higher normalised score. *)
Theorem normalizeScores_all_negative (arr : list image) :
  (∀ x, x ∈ arr → score x < 0) →
  (∀ y, y ∈ normalizeScores arr → 1 <= score y) ∧
  (∀ i j x y x' y',
     arr !! i = Some x → arr !! j = Some y → score x <= score y →
     normalizeScores arr !! i = Some x' → normalizeScores arr !! j = Some y' →
     score y' <= score x').
Proof.
  intros Hneg.
  destruct (foldl_max_bounds (-999999) arr) as (_ & Hall & Hwit).
  fold (maxScore arr) in Hall, Hwit.
  assert (Hmax : maxScore arr < 0).
  { destruct Hwit as [Heq|(w & Hw & Heq)]; rewrite Heq; [done | by apply Hneg]. }
  assert (Hne : ¬ maxScore arr == 0)
    by (intros Heq; rewrite Heq in Hmax; by apply Qlt_irrefl in Hmax).
  unfold normalizeScores. split.
  - intros y (x & -> & Hx)%list_elem_of_fmap. rewrite score_setScore.
    assert (Hone : 1 == maxScore arr / maxScore arr) by (by field).
    rewrite Hone. apply Qdiv_le_anti; [done | by apply Hall].
  - intros i j x y x' y' Hx Hy Hle. rewrite !list_lookup_fmap, Hx, Hy. simpl.
    intros [= <-] [= <-]. rewrite !score_setScore. by apply Qdiv_le_anti.
Qed.

Lemma normalizeScores_descending l :
  (∃ x, x ∈ l ∧ 0 < score x) → descending l → descending (normalizeScores l).
Proof.
  intros (p & Hp & Hpos) Hl.
  destruct (foldl_max_bounds (-999999) l) as (_ & Hall & _).
  fold (maxScore l) in Hall.
  assert (Hmax : 0 < maxScore l) by (eapply Qlt_le_trans; [exact Hpos | by apply Hall]).
  intros i j x' y' Hij. unfold normalizeScores. rewrite !list_lookup_fmap.
  destruct (l !! i) as [x|] eqn:Hx; [|done]. destruct (l !! j) as [y|] eqn:Hy; [|done].
  simpl. intros [= <-] [= <-]. rewrite !score_setScore.
  apply Qdiv_le_mono; [done|]. by apply (Hl i j x y).
Qed.

Lemma normalizeScores_head x rest :
  (∃ p, p ∈ (x :: rest) ∧ 0 < score p) → descending (x :: rest) →
  ∃ y, head (normalizeScores (x :: rest)) = Some y ∧ score y == 1.
Proof.
  intros (p & Hp & Hpos) Hl. set (arr := x :: rest) in *.
  destruct (foldl_max_bounds (-999999) arr) as (_ & Hall & Hwit).
  fold (maxScore arr) in Hall, Hwit.
  assert (Hmax : 0 < maxScore arr) by (eapply Qlt_le_trans; [exact Hpos | by apply Hall]).
  assert (Hne : ¬ maxScore arr == 0)
    by (intros Heq; rewrite Heq in Hmax; by apply Qlt_irrefl in Hmax).
  destruct Hwit as [Heq|(w & Hw & Hweq)].
  { rewrite Heq in Hmax. discriminate Hmax. }
  assert (Hx : score x == maxScore arr).
  { apply Qle_antisym; [apply Hall, list_elem_of_here|].
    rewrite Hweq. apply descending_cons in Hl as [Hhead _].
    apply elem_of_cons in Hw as [->|Hw]; [apply Qle_refl | by apply Hhead]. }
  eexists. split; [reflexivity|]. rewrite score_setScore, Hx. by field.
Qed.

Section Scorer.
Variable SCORE_CONFIG : Config.t.
Variable compareTwoStrings : string → string → Q.
Variable pathnameOf : string → option string.
Variable Math_log : Q → Q.

Local Abbreviation scoreOne := (scoreOne SCORE_CONFIG compareTwoStrings pathnameOf).
Local Abbreviation findBestImages :=
  (findBestImages SCORE_CONFIG compareTwoStrings pathnameOf).
Local Abbreviation preferenceScoreAt :=
  (preferenceScoreAt SCORE_CONFIG compareTwoStrings pathnameOf).
Local Abbreviation getExtensionScore := (getExtensionScore SCORE_CONFIG).
Local Abbreviation sizeScore := (sizeScore SCORE_CONFIG Math_log).

(** The array [findBestImages] sorts and normalises first: the scored
    candidates, in descending order of score. *)
Definition firstRanked (imgArray : list image) : list image :=
  sortByScore (scoreOne <$> imgArray).

(** The array [findBestImages] sorts and normalises last: the scored
    candidates, or what the hook made of the ranked candidates. *)
Definition lastRanked (imgArray : list image) (scoreFn : option hook) : list image :=
  match scoreFn with
  | Some f => f (normalizeScores (firstRanked imgArray)) false
  | None => scoreOne <$> imgArray
  end.

(** X14.  Whenever some candidate ends with a positive score, with or
    without a hook, the array [findBestImages] returns is in descending
    order of score, its first candidate scores 1 and none scores more;
    the addresses are those of the candidates, each as often as before.
    A hook may reorder or replace the candidates as it likes, the array
    is sorted again after it.  With a hook the scores are normalised
    twice, before the hook and after it: the statement is for the arrays
    whose largest score before the hook is not 0, the first division
    being a division by 0 otherwise (the hook then receives scores that
    are not numbers). *)
Theorem findBestImages_sorted (imgArray : list image) (scoreFn : option hook) :
  (is_Some scoreFn → ¬ maxScore (firstRanked imgArray) == 0) →
  (∃ x, x ∈ lastRanked imgArray scoreFn ∧ 0 < score x) →
  descending (findBestImages imgArray scoreFn) ∧
  (∃ y, head (findBestImages imgArray scoreFn) = Some y ∧ score y == 1) ∧
  (∀ y, y ∈ findBestImages imgArray scoreFn → score y <= 1) ∧
  src <$> findBestImages imgArray scoreFn ≡ₚ src <$> lastRanked imgArray scoreFn.
Proof.
  intros _ (p & Hp & Hpos).
  assert (Heq : findBestImages imgArray scoreFn =
                normalizeScores (sortByScore (lastRanked imgArray scoreFn)))
    by (by destruct scoreFn).
  rewrite Heq. set (l := lastRanked imgArray scoreFn) in *.
  assert (Hsorted : ∃ x, x ∈ sortByScore l ∧ 0 < score x).
  { exists p. by rewrite sortByScore_perm. }
  pose proof (sortByScore_descending l) as Hdesc.
  assert (Hhead : ∃ y, head (normalizeScores (sortByScore l)) = Some y ∧ score y == 1).
  { destruct (sortByScore l) as [|x rest] eqn:Hl.
    - destruct Hsorted as (? & []%elem_of_nil & _).
    - by apply normalizeScores_head. }
  split; [by apply normalizeScores_descending|]. split; [done|]. split.
  - destruct Hhead as (y0 & Hy0 & Hone).
    pose proof (normalizeScores_descending _ Hsorted Hdesc) as Hnd.
    intros y [i Hi]%list_elem_of_lookup. destruct i as [|i].
    + destruct (normalizeScores (sortByScore l)) as [|z zs]; [done|].
      simpl in Hy0, Hi. injection Hy0 as <-. injection Hi as <-.
      rewrite Hone. apply Qle_refl.
    + rewrite <- Hone. apply (Hnd 0%nat (S i) y0 y); [lia| |done].
      by destruct (normalizeScores (sortByScore l)).
  - unfold normalizeScores. rewrite <- list_fmap_compose.
    rewrite (list_fmap_ext (src ∘ (λ item, setScore (score item / maxScore (sortByScore l)) item))
               src (sortByScore l) (λ _ _ _, eq_refl)).
    by rewrite sortByScore_perm.
Qed.

(** X15.  The score breakdown [preferenceScore] leaves on a candidate
    accounts for the whole score: the score is the sum of [titleScore],
    [queryScore], the meta bonus, [goodWords], [badWords], [badFnameWords]
    and the extension bonus. *)
Theorem preferenceScore_breakdown (imgUrl : string) (obj : image) :
  let '(obj', s) := preferenceScoreAt imgUrl obj in
  s == titleScore obj' + queryScore obj' +
       (if isMeta obj then Config.isMeta SCORE_CONFIG else 0) +
       goodWords obj' + badWords obj' + badFnameWords obj' +
       getExtensionScore imgUrl.
Proof.
  unfold ImageScore.preferenceScoreAt.
  cbn [titleScore queryScore goodWords badWords badFnameWords setBreakdown].
  destruct (bool_decide (0 <= indexOf "data:image" imgUrl)%Z),
    (truthy (docTitle obj)), (truthy (query obj)), (isMeta obj); ring.
Qed.

(** X16.  For whole-number dimensions the size score never exceeds 1: the
    difference of the aspect ratios and the difference of the surfaces
    only ever lower it (the weights being positive or zero and the ideal
    surface a whole number, as in the default table). *)
Theorem sizeScore_at_most_one (imgObj : image) (ideal : Z) :
  (∀ x, 1 <= x → 0 <= Math_log x) →
  0 <= Config.ratioWeight (Config.size SCORE_CONFIG) →
  0 <= Config.smallerWeight (Config.size SCORE_CONFIG) →
  0 <= Config.largerWeight (Config.size SCORE_CONFIG) →
  Config.idealWidth (Config.size SCORE_CONFIG) *
    Config.idealHeight (Config.size SCORE_CONFIG) == inject_Z ideal →
  sizeScore imgObj <= 1.
Proof.
  intros Hlog Hrw Hsw Hlw Hideal. unfold ImageScore.sizeScore.
  destruct (dims imgObj) as [d|]; [|done].
  destruct (truthyNumber (width d) && truthyNumber (height d)); [|done].
  set (x := default 0%Z (width d)). set (y := default 0%Z (height d)).
  set (cfg := Config.size SCORE_CONFIG) in *.
  assert (Hsurface : inject_Z x * inject_Z y - Config.idealWidth cfg * Config.idealHeight cfg
                     == inject_Z (x * y - ideal)).
  { rewrite Hideal. unfold Zminus. rewrite inject_Z_plus, inject_Z_mult, inject_Z_opp.
    ring. }
  pose proof (Qabs_nonneg (Config.idealWidth cfg / Config.idealHeight cfg -
                           inject_Z x / (inject_Z y + 0.001))) as Habs.
  set (rd := Qabs _) in *.
  assert (Hrd : 0 <= rd * Config.ratioWeight cfg) by (by apply Qmult_le_0_compat).
  set (k := (x * y - ideal)%Z) in *.
  set (sd := inject_Z x * inject_Z y - Config.idealWidth cfg * Config.idealHeight cfg) in *.
  assert (Hbig : ¬ sd == 0 → 1 <= Qabs sd).
  { intros Hnz. rewrite Hsurface in Hnz. rewrite Hsurface.
    assert (Hk0 : k ≠ 0%Z) by (intros Hz; apply Hnz; by rewrite Hz).
    apply Qabs_case; intros Hk; unfold Qle in *; simpl in *; lia. }
  assert (Hterm : ∀ w, 0 <= w → ¬ sd == 0 → 0 <= Math_log (Qabs sd) * 0.01 * w).
  { intros w Hw Hnz. apply Qmult_le_0_compat; [|done].
    apply Qmult_le_0_compat; [|done]. by apply Hlog, Hbig. }
  destruct (Qlt_le_dec 0 sd) as [Hpos|Hnpos].
  - assert (0 <= Math_log (Qabs sd) * 0.01 * Config.largerWeight cfg).
    { apply Hterm; [done|]. intros Hz. rewrite Hz in Hpos. by apply Qlt_irrefl in Hpos. }
    lra.
  - destruct (Qlt_le_dec sd 0) as [Hltz|Hge].
    + assert (0 <= Math_log (Qabs sd) * 0.01 * Config.smallerWeight cfg).
      { apply Hterm; [done|]. intros Hz. rewrite Hz in Hltz. by apply Qlt_irrefl in Hltz. }
      lra.
    + lra.
Qed.

End Scorer.

(** A candidate with an address and a score. *)
Definition sample (u : string) (s : Q) : image :=
  Image ∅ false (Some u) None None None None None s 0 0 0 0 0 None None.

Lemma normalizeScores_all_negative_witness :
  (∀ y, y ∈ normalizeScores [sample "a" (-1); sample "b" (-3.5)] → 1 <= score y) ∧
  (∀ i j x y x' y',
     [sample "a" (-1); sample "b" (-3.5)] !! i = Some x →
     [sample "a" (-1); sample "b" (-3.5)] !! j = Some y → score x <= score y →
     normalizeScores [sample "a" (-1); sample "b" (-3.5)] !! i = Some x' →
     normalizeScores [sample "a" (-1); sample "b" (-3.5)] !! j = Some y' →
     score y' <= score x').
Proof.
  apply (normalizeScores_all_negative [sample "a" (-1); sample "b" (-3.5)]).
  intros x Hx. apply elem_of_cons in Hx as [->|Hx]; [reflexivity|].
  apply list_elem_of_singleton in Hx as ->. reflexivity.
Defined.

(** A hook that turns the order round and adds one to every score. *)
Definition raiseAll : hook :=
  λ arr _, reverse ((λ x, setScore (score x + 1) x) <$> arr).

Lemma findBestImages_sorted_witness :
  let out := findBestImages DEFAULT_CONFIG (λ _ _, 0) (λ _, None)
               [sample "http://a.com/a.gif" 0; sample "http://a.com/logo.jpg" 0]
               (Some raiseAll) in
  descending out ∧
  (∃ y, head out = Some y ∧ score y == 1) ∧
  (∀ y, y ∈ out → score y <= 1) ∧
  src <$> out ≡ₚ
    src <$> lastRanked DEFAULT_CONFIG (λ _ _, 0) (λ _, None)
              [sample "http://a.com/a.gif" 0; sample "http://a.com/logo.jpg" 0]
              (Some raiseAll).
Proof.
  apply (findBestImages_sorted DEFAULT_CONFIG (λ _ _, 0) (λ _, None)
           [sample "http://a.com/a.gif" 0; sample "http://a.com/logo.jpg" 0]
           (Some raiseAll)).
  - intros _. vm_compute. discriminate.
  - vm_compute. eexists. split; [apply list_elem_of_here|]. reflexivity.
Defined.

Lemma sizeScore_at_most_one_witness :
  sizeScore DEFAULT_CONFIG (λ x, x - 1)
    (BestImage.setDims (Some (Dimensions true (Some 640%Z) (Some 480%Z) None None))
       (sample "http://a.com/a.gif" 0)) <= 1.
Proof.
  apply (sizeScore_at_most_one DEFAULT_CONFIG (λ x, x - 1) _ 20000).
  - intros x Hx. lra.
  - discriminate.
  - discriminate.
  - discriminate.
  - reflexivity.
Defined.

End ScoringFacts.

Module LookupFacts.
Import BestImage BestImageFacts ImageScoreFacts AddressFacts.
Local Open Scope Q_scope.

Section Orchestrator.
Variable validURL : string → bool.
Variable testEnv : bool.
Variable sizeCalls : string → list (option string * option dimensions).
Variable busEntry : string → option (option string * option dimensions).
Variable SCORE_CONFIG : ImageScore.Config.t.
Variable Math_log : Q → Q.

Local Abbreviation validateOne := (validateOne validURL testEnv sizeCalls busEntry).
Local Abbreviation validateAll := (validateAll validURL testEnv sizeCalls busEntry).
Local Abbreviation findValidImage :=
  (findValidImage validURL testEnv sizeCalls busEntry SCORE_CONFIG Math_log).
Local Abbreviation consolidateAndSizeRank :=
  (ImageScore.consolidateAndSizeRank SCORE_CONFIG Math_log).







Lemma first_batch (full : list image) :
  take (Nat.min (0 + FIND_BLOCK_SIZE) (length full)) full = take FIND_BLOCK_SIZE full.
Proof. by rewrite <- take_take, firstn_all. Qed.


(** X18.  A batch never completes when one of its candidates has no
    address, or an address [checkImageUrl] ignores (one [url.URL]
    rejects, one that does not start with [http], one that holds white
    space): that validation never calls back, and neither does
    [findValidImage], whatever the other candidates are. *)
Theorem findValidImage_waits_forever (fuel : nat) (url : string)
    (full : list image) (scoreFn cback : value) (img : image) :
  img ∈ take FIND_BLOCK_SIZE full →
  (src img = None ∨
   ∃ u, src img = Some u ∧
        (validURL u = false ∨
         JsString.toLowerCase (JsString.take 4 u) ≠ "http" ∨
         CheckImageUrl.allNonSpace u = false)) →
  findValidImage (S fuel) (Str url) (Arr full) scoreFn cback = Pending.
Proof.
  intros Himg Hbad. cbn [BestImage.findValidImage lengthOf].
  assert (full ≠ []) by (intros ->; by apply elem_of_nil in Himg).
  rewrite bool_decide_eq_false_2 by (by destruct full).
  rewrite first_batch.
  assert (Hnone : validateAll (take FIND_BLOCK_SIZE full) = None).
  { apply mapM_None_2, Exists_exists. exists img. split; [done|].
    unfold BestImage.validateOne.
    destruct Hbad as [->|(u & -> & Hu)]; [done|].
    assert (Hsilent : CheckImageUrl.checkImageUrl validURL testEnv sizeCalls busEntry u = []).
    { unfold CheckImageUrl.checkImageUrl.
      destruct (validURL u); [|done]. simpl.
      destruct (CheckImageUrl.httpUrlPattern u) eqn:Hpat; [|done].
      destruct (httpUrlPattern_shape u Hpat) as [Hhttp Hspace].
      destruct Hu as [?|[?|?]]; [done | done | congruence]. }
    by rewrite Hsilent. }
  by rewrite Hnone.
Qed.

End Orchestrator.

(** A candidate that has only an address. *)
Definition addressed (u : string) : image :=
  Image ∅ false (Some u) None None None None None 0 0 0 0 0 0 None None.


Lemma findValidImage_waits_forever_witness :
  findValidImage (λ _, true) false (λ _, []) (λ _, None) ImageScore.DEFAULT_CONFIG
    (λ _, 0) 1 (Str "http://a.com/")
    (Arr [addressed "http://a.com/a.jpg"; addressed "ftp://a.com/b.jpg"])
    Null (Fn 2 Completion) = Pending.
Proof.
  apply (findValidImage_waits_forever (λ _, true) false (λ _, []) (λ _, None)
           ImageScore.DEFAULT_CONFIG (λ _, 0) 0 "http://a.com/"
           [addressed "http://a.com/a.jpg"; addressed "ftp://a.com/b.jpg"]
           Null (Fn 2 Completion) (addressed "ftp://a.com/b.jpg")).
  - apply list_elem_of_further, list_elem_of_here.
  - right. exists "ftp://a.com/b.jpg". split; [reflexivity|].
    right. left. vm_compute. discriminate.
Defined.

End LookupFacts.

Module ExtractionFacts.
Import DocImageParse BestImage DedupFacts.

Section Extractor.
Variables (t : string) (q : option string).

Lemma flattenLoop_app S a b :
  ∃ S', flattenLoop t q S (a ++ b) = flattenLoop t q S a ++ flattenLoop t q S' b.
Proof.
  revert S. induction a as [|o a IH]; intros S; simpl; [by exists S|].
  destruct (imgCheckHas S _); [apply IH|].
  destruct (IH ({[propertyKey (attribs o !! "src")]} ∪ S)) as [S' ->]. by exists S'.
Qed.

Lemma flattenLoop_Forall (P : image → Prop) S l :
  Forall (λ o, P (flatten t q o)) l → Forall P (flattenLoop t q S l).
Proof.
  intros Hl. revert S. induction Hl as [|o l Ho Hl IH]; intros S; simpl; [constructor|].
  destruct (imgCheckHas S _); [apply IH|]. constructor; [done | apply IH].
Qed.

(** The loop returns the flattened form of some of the candidates, in
    their order. *)
Lemma flattenLoop_kept (P : image → Prop) S l :
  Forall P l →
  ∃ kept, flattenLoop t q S l = flatten t q <$> kept ∧
          Forall P kept ∧ (length kept ≤ length l)%nat.
Proof.
  intros Hl. revert S. induction Hl as [|o l Ho Hl IH]; intros S; simpl.
  { exists []. split; [done|]. split; [constructor | simpl; lia]. }
  destruct (imgCheckHas S _).
  - destruct (IH S) as (kept & -> & Hkept & Hlen).
    exists kept. split; [done|]. split; [done | lia].
  - destruct (IH ({[propertyKey (attribs o !! "src")]} ∪ S)) as (kept & -> & Hkept & Hlen).
    exists (o :: kept). split; [done|]. split; [by constructor | simpl; lia].
Qed.

End Extractor.

(** *** Where a raw candidate comes from *)

(** From an element of the document that the meta-tag query matches, with
    its [content] attribute as address. *)
Definition fromMetaTag (doc : list element) (o : image) : Prop :=
  ∃ e content, e ∈ doc ∧ metaSelector e = true ∧
               elAttribs e !! "content" = Some content ∧ o = metaCandidate e content.

(** From an [img] element below one of the top-level nodes of the markup. *)
Definition fromImgTag (html : list node) (o : image) : Prop :=
  ∃ r e, r ∈ html ∧ e ∈ descendants r ∧ tagName e = "img" ∧ o = imgCandidate e.

(** From an address found in a stylesheet. *)
Definition fromStyleSheet (cssUrls : list string) (o : image) : Prop :=
  ∃ u, u ∈ cssUrls ∧ o = cssCandidate u.

Lemma select_elem (sel : element → bool) (doc : list element) (e : element) :
  e ∈ select sel doc ↔ e ∈ doc ∧ sel e = true.
Proof.
  unfold select. rewrite !list_elem_of_In, List.filter_In. tauto.
Qed.

Lemma getMetaImages_origin doc :
  (length (getMetaImages doc) ≤ 2)%nat ∧
  Forall (λ o, isMeta o = true ∧ fromMetaTag doc o) (getMetaImages doc).
Proof.
  unfold getMetaImages. destruct (select metaSelector doc) as [|e0 rest] eqn:Hsel.
  { split; [simpl; lia | constructor]. }
  assert (He0 : e0 ∈ doc ∧ metaSelector e0 = true).
  { apply select_elem. rewrite Hsel. apply list_elem_of_here. }
  destruct (truthy (elAttribs e0 !! "content")) eqn:Ht;
    [|split; [simpl; lia | constructor]].
  destruct (elAttribs e0 !! "content") as [c0|] eqn:Hc0; [|discriminate Ht].
  cbn [propertyKey default].
  assert (Hfirst : isMeta (metaCandidate e0 c0) = true ∧ fromMetaTag doc (metaCandidate e0 c0)).
  { split; [done|]. exists e0, c0. tauto. }
  destruct rest as [|e1 rest]; [split; [simpl; lia | constructor; [exact Hfirst | constructor]]|].
  assert (He1 : e1 ∈ doc ∧ metaSelector e1 = true).
  { apply select_elem. rewrite Hsel. apply list_elem_of_further, list_elem_of_here. }
  destruct (elAttribs e1 !! "content") as [c1|] eqn:Hc1;
    [|split; [simpl; lia | constructor; [exact Hfirst | constructor]]].
  split; [simpl; lia|]. constructor; [done|]. constructor; [|constructor].
  split; [done|]. exists e1, c1. tauto.
Qed.

Lemma find_elem (sel : element → bool) (html : list node) (e : element) :
  e ∈ find sel html ↔ (∃ r, r ∈ html ∧ e ∈ descendants r) ∧ sel e = true.
Proof.
  unfold find. rewrite list_elem_of_In, List.filter_In, List.in_flat_map.
  split.
  - intros [(r & Hr & He) Hsel]. split; [|done]. exists r. by rewrite !list_elem_of_In.
  - intros [(r & Hr & He) Hsel]. split; [|done]. exists r. by rewrite <- !list_elem_of_In.
Qed.

Lemma extractImageTags_origin html o :
  o ∈ extractImageTags html ↔ fromImgTag html o.
Proof.
  unfold extractImageTags, fromImgTag. rewrite list_elem_of_fmap. split.
  - intros (e & -> & [(r & Hr & He) Htag]%find_elem).
    exists r, e. by apply bool_decide_eq_true in Htag.
  - intros (r & e & Hr & He & Htag & ->). exists e. split; [done|].
    apply find_elem. split; [by exists r | by apply bool_decide_eq_true].
Qed.

Lemma imgCandidate_plain e : isMeta (imgCandidate e) = false.
Proof. unfold imgCandidate. by destruct (_ && _). Qed.

Lemma cssCandidates_origin cssUrls o :
  o ∈ (cssCandidate <$> cssUrls) ↔ fromStyleSheet cssUrls o.
Proof.
  unfold fromStyleSheet. rewrite list_elem_of_fmap. naive_solver.
Qed.

(** The fields the flattening loop copies onto a candidate. *)
Definition stamped (t : string) (q : option string) (c : image) : Prop :=
  docTitle c = Some t ∧ query c = q ∧
  src c = attribs c !! "src" ∧ title c = attribs c !! "title" ∧
  class c = attribs c !! "class" ∧ alt c = attribs c !! "alt".

(** X19.  [extractImages] returns, flattened and in this order: candidates
    of elements the meta-tag query matches in the document (two at most,
    the only ones flagged [isMeta], with the [content] attribute as
    address), candidates of [img] elements found below the top-level nodes
    of the markup, and candidates of stylesheet addresses.  Every
    candidate carries the document title and the query, and has its
    [src], [title], [class] and [alt] copied from its attributes.  No two
    candidates have the same [src], and no address is lost: the address of
    every candidate [getMetaImages] returns, of every [img] element below
    a top-level node and of every stylesheet image is the [src] of a
    candidate returned (addresses that are names inherited from
    [Object.prototype] and the address ["undefined"] set aside). *)
Theorem extractImages_meta_first (doc : list element) (html : list node)
    (cssUrls : list string) (t : string) (q : option string) :
  ∃ metas imgs sheets,
    extractImages doc html cssUrls t q = flatten t q <$> (metas ++ imgs ++ sheets) ∧
    (length metas ≤ 2)%nat ∧
    Forall (λ o, isMeta o = true ∧ fromMetaTag doc o) metas ∧
    Forall (λ o, isMeta o = false ∧ fromImgTag html o) imgs ∧
    Forall (λ o, isMeta o = false ∧ fromStyleSheet cssUrls o) sheets ∧
    Forall (stamped t q) (extractImages doc html cssUrls t q) ∧
    NoDup (src <$> extractImages doc html cssUrls t q) ∧
    ∀ o s, o ∈ getMetaImages doc ∨ fromImgTag html o ∨ fromStyleSheet cssUrls o →
           attribs o !! "src" = Some s →
           s ∉ objectPrototypeKeys → s ≠ "undefined" →
           Some s ∈ (src <$> extractImages doc html cssUrls t q).
Proof.
  destruct (getMetaImages_origin doc) as [Hlen Hmeta].
  assert (Himgs : Forall (λ o, isMeta o = false ∧ fromImgTag html o) (extractImageTags html)).
  { apply Forall_forall. intros o Ho. split; [|by apply extractImageTags_origin].
    apply list_elem_of_fmap in Ho as (e & -> & _). apply imgCandidate_plain. }
  assert (Hcss : Forall (λ o, isMeta o = false ∧ fromStyleSheet cssUrls o)
                   (cssCandidate <$> cssUrls)).
  { apply Forall_forall. intros o Ho. split; [|by apply cssCandidates_origin].
    by apply list_elem_of_fmap in Ho as (u & -> & _). }
  assert (Hsplit : ∃ metas imgs sheets,
    extractImages doc html cssUrls t q = flatten t q <$> (metas ++ imgs ++ sheets) ∧
    (length metas ≤ 2)%nat ∧
    Forall (λ o, isMeta o = true ∧ fromMetaTag doc o) metas ∧
    Forall (λ o, isMeta o = false ∧ fromImgTag html o) imgs ∧
    Forall (λ o, isMeta o = false ∧ fromStyleSheet cssUrls o) sheets).
  { unfold extractImages.
    destruct (flattenLoop_app t q ∅ (getMetaImages doc)
                (extractImageTags html ++ (cssCandidate <$> cssUrls))) as [S1 ->].
    destruct (flattenLoop_app t q S1 (extractImageTags html)
                (cssCandidate <$> cssUrls)) as [S2 ->].
    destruct (flattenLoop_kept t q _ ∅ _ Hmeta) as (metas & -> & Hm & Hml).
    destruct (flattenLoop_kept t q _ S1 _ Himgs) as (imgs & -> & Hi & _).
    destruct (flattenLoop_kept t q _ S2 _ Hcss) as (sheets & -> & Hs & _).
    exists metas, imgs, sheets. rewrite !fmap_app.
    split; [done|]. split; [lia|]. done. }
  destruct Hsplit as (metas & imgs & sheets & Heq & Hml & Hm & Hi & Hs).
  exists metas, imgs, sheets.
  split; [done|]. split; [done|]. split; [done|]. split; [done|]. split; [done|].
  split; [|split].
  - unfold extractImages. apply flattenLoop_Forall, Forall_forall. by intros.
  - apply (NoDup_fmap_1 propertyKey). rewrite <- list_fmap_compose.
    apply flattenLoop_NoDup.
  - intros o s Ho Hsrc Hproto Hundef.
    assert (Hraw : o ∈ getMetaImages doc ++ extractImageTags html ++ (cssCandidate <$> cssUrls)).
    { rewrite !elem_of_app, extractImageTags_origin, cssCandidates_origin. tauto. }
    assert (Hkey : s ∈ (srcKey <$> extractImages doc html cssUrls t q)).
    { unfold extractImages. apply flattenLoop_keys. split; [|split; [set_solver | done]].
      apply list_elem_of_fmap. exists o. split; [|done]. unfold rawKey. by rewrite Hsrc. }
    apply list_elem_of_fmap in Hkey as (c & Hc & Hin).
    apply list_elem_of_fmap. exists c. split; [|done].
    unfold srcKey in Hc. destruct (src c) as [u|]; simpl in Hc; [by rewrite Hc | done].
Qed.

(** An [img] element that is itself a top-level node of the markup is not
    found; the same element below a top-level node is. *)
Lemma extractImageTags_top_level :
  extractImageTags [Node (Element "img" {[ "src" := "a.png" ]}) []] = [] ∧
  src <$> extractImages [] [Node (Element "div" ∅) [Node (Element "img" {[ "src" := "a.png" ]}) []]]
            [] "t" None = [Some "a.png"].
Proof. split; vm_compute; reflexivity. Qed.

End ExtractionFacts.

Module StyleSheetFacts.
Import JsString DocImageParse StyleSheet JsStringFacts.

(** An address as it can stand inside [url(...)]: no parenthesis that
    closes, no quote, no line break. *)
Fixpoint plainAddress (u : string) : bool :=
  match u with
  | "" => true
  | String c u' =>
      negb (bool_decide (c = ")"%char)) && negb (isQuote c) &&
      negb (isLineTerminator c) && plainAddress u'
  end.

Lemma capture_plain u rest :
  plainAddress u = true →
  (startsWith ")" rest = true ∨
   ∃ c rest', rest = String c (String ")" rest') ∧ isQuote c = true) →
  capture (u +:+ rest) = Some u.
Proof.
  intros Hu Hrest. induction u as [|c u IH].
  - rewrite append_nil. destruct Hrest as [Hrest|(c & rest' & -> & Hc)].
    + destruct rest as [|c rest]; [done|]. simpl in Hrest.
      destruct (decide (")"%char = c)) as [<-|]; [done|discriminate].
    + cbn [capture]. case_bool_decide; [done|]. by rewrite Hc.
  - rewrite append_cons. cbn [plainAddress] in Hu.
    rewrite !andb_true_iff, !negb_true_iff in Hu.
    destruct Hu as [[[Hparen Hquote] Hline] Hu].
    cbn [capture]. rewrite Hparen, Hquote, Hline. simpl. by rewrite IH.
Qed.

Lemma urlPattern_skip pre s :
  hasChar "(" pre = false → urlPattern (pre +:+ s) = urlPattern s.
Proof.
  induction pre as [|c pre IH]; intros Hpre; [by rewrite append_nil|].
  rewrite append_cons. cbn [hasChar] in Hpre.
  apply orb_false_iff in Hpre as [Hc Hpre]. cbn [urlPattern]. rewrite Hc.
  by apply IH.
Qed.

(** The three ways of writing an address inside [url(...)]. *)
Definition bare (u : string) : string := u.
Definition singleQuoted (u : string) : string := String "'" (u +:+ "'").
Definition doubleQuoted (u : string) : string :=
  String "034" (u +:+ String "034" "").

Lemma append_assoc (a b c : string) : (a +:+ b) +:+ c = a +:+ (b +:+ c).
Proof.
  induction a as [|x a IH]; [by rewrite !append_nil|].
  by rewrite !append_cons, IH.
Qed.

Lemma afterParen_written (w u rest : string) :
  plainAddress u = true →
  w = bare u ∨ w = singleQuoted u ∨ w = doubleQuoted u →
  afterParen (w +:+ String ")" rest) = Some u.
Proof.
  intros Hu [->|[->| ->]].
  - unfold bare, afterParen.
    assert (Hcap : capture (u +:+ String ")" rest) = Some u)
      by (apply capture_plain; [done | by left]).
    destruct u as [|c u]; [done|].
    cbn [plainAddress] in Hu. rewrite !andb_true_iff, !negb_true_iff in Hu.
    destruct Hu as [[[_ Hquote] _] _].
    rewrite append_cons in *. by rewrite Hquote.
  - unfold singleQuoted, afterParen. rewrite append_cons, append_assoc.
    change (isQuote "'") with true. cbv iota.
    apply capture_plain; [done|]. right. by exists "'"%char, rest.
  - unfold doubleQuoted, afterParen. rewrite append_cons, append_assoc.
    change (isQuote "034") with true. cbv iota.
    apply capture_plain; [done|]. right. by exists "034"%char, rest.
Qed.

(** X20.  A [background] or [background-image] declaration whose value
    starts with [url(...)] contributes the address written between the
    parentheses, whether it is written bare, between single quotes or
    between double quotes, and whatever follows the closing parenthesis;
    the white space around the value is ignored. *)
Theorem declarationImage_quoting (item : declaration) (w u rest : string) :
  property item = Some "background" ∨ property item = Some "background-image" →
  trim (value item) = "url(" +:+ w +:+ ")" +:+ rest →
  plainAddress u = true →
  w = bare u ∨ w = singleQuoted u ∨ w = doubleQuoted u →
  declarationImage item = Some (cssCandidate u).
Proof.
  intros Hprop Hvalue Hu Hw. unfold declarationImage.
  assert (Hgate : bool_decide (property item = Some "background-image") ||
                  bool_decide (property item = Some "background") = true).
  { destruct Hprop as [-> | ->]; done. }
  rewrite Hgate, Hvalue.
  change ("url(" +:+ w +:+ ")" +:+ rest)
    with ("url" +:+ String "(" (w +:+ String ")" rest)).
  rewrite startsWith_app, urlPattern_skip by done.
  cbn [urlPattern]. rewrite bool_decide_eq_true_2 by done.
  by rewrite (afterParen_written w u rest Hu Hw).
Qed.

Lemma declarationImage_quoting_witness :
  declarationImage (Declaration (Some "background") "  url('img/bg.png') no-repeat ") =
    Some (cssCandidate "img/bg.png").
Proof.
  apply (declarationImage_quoting _ (singleQuoted "img/bg.png") "img/bg.png" " no-repeat").
  - left. reflexivity.
  - vm_compute. reflexivity.
  - reflexivity.
  - right. left. reflexivity.
Defined.

End StyleSheetFacts.

Module SizeScoresFacts.
Import ImageScore SizeScores.

(** A candidate with its size score erased. *)
Definition unsized (o : image) : image := setSizeScore None o.

Lemma unsized_setSizeScore s o : unsized (setSizeScore s o) = unsized o.
Proof. reflexivity. Qed.

Lemma unsized_src a b : unsized a = unsized b → src a = src b.
Proof. unfold unsized, setSizeScore. by intros [=]. Qed.

Lemma unsized_eq s a b : unsized a = unsized b → setSizeScore s a = setSizeScore s b.
Proof.
  destruct a, b. unfold unsized, setSizeScore. simpl. intros [=]. by subst.
Qed.

Lemma updateOne_unsized full item : unsized <$> updateOne full item = unsized <$> full.
Proof.
  unfold updateOne. destruct (list_find _ full) as [[i obj]|] eqn:Hfind; [|done].
  apply list_find_Some in Hfind as (Hi & _ & _).
  rewrite list_fmap_insert, unsized_setSizeScore.
  apply list_insert_id. by rewrite list_lookup_fmap, Hi.
Qed.

Lemma updateSizeScores_unsized full new :
  unsized <$> updateSizeScores full new = unsized <$> full.
Proof.
  unfold updateSizeScores. revert full.
  induction new as [|item new IH]; intros full; [done|]. simpl.
  by rewrite IH, updateOne_unsized.
Qed.

Lemma updateOne_other full item i x :
  full !! i = Some x → src x ≠ src item → updateOne full item !! i = Some x.
Proof.
  intros Hi Hsrc. unfold updateOne.
  destruct (list_find _ full) as [[j obj]|] eqn:Hfind; [|done].
  apply list_find_Some in Hfind as (Hj & Hobj & _).
  rewrite list_lookup_insert_ne; [done|]. intros ->.
  rewrite Hi in Hj. injection Hj as ->. done.
Qed.

Lemma updateSizeScores_other full new i x :
  full !! i = Some x → (∀ item, item ∈ new → src item ≠ src x) →
  updateSizeScores full new !! i = Some x.
Proof.
  unfold updateSizeScores. revert full.
  induction new as [|item new IH]; intros full Hi Hnew; [done|]. simpl.
  apply IH.
  - apply updateOne_other; [done|]. intros Heq. by apply (Hnew item); [left|].
  - intros y Hy. apply Hnew. by right.
Qed.

Lemma updateOne_first full item i x :
  full !! i = Some x → src x = src item →
  (∀ j y, (j < i)%nat → full !! j = Some y → src y ≠ src x) →
  updateOne full item !! i = Some (setSizeScore (sizeScoreOf item) x).
Proof.
  intros Hi Hsrc Hfirst. unfold updateOne.
  destruct (list_find _ full) as [[j obj]|] eqn:Hfind.
  - apply list_find_Some in Hfind as (Hj & Hobj & Hbefore).
    assert (j = i) as ->.
    { destruct (Nat.lt_trichotomy j i) as [Hlt|[->|Hgt]]; [|done|].
      - exfalso. apply (Hfirst j obj Hlt Hj). congruence.
      - exfalso. by apply (Hbefore i x Hi Hgt). }
    rewrite Hi in Hj. injection Hj as <-.
    apply list_lookup_insert_eq. by apply lookup_lt_Some in Hi.
  - apply list_find_None in Hfind. rewrite Forall_forall in Hfind.
    exfalso. apply (Hfind x); [by apply list_elem_of_lookup_2 in Hi | done].
Qed.

(** X21.  [updateSizeScores] changes nothing in [fullArray] but size
    scores: the candidates keep their number, their order and every other
    field.  A candidate whose address does not occur in [newArray] keeps
    its size score; the first candidate with a given address takes the
    size score of the last entry of [newArray] that has this address. *)
Theorem updateSizeScores_spec (fullArray newArray : list image) :
  unsized <$> updateSizeScores fullArray newArray = unsized <$> fullArray ∧
  (∀ i x, fullArray !! i = Some x →
          (∀ item, item ∈ newArray → src item ≠ src x) →
          updateSizeScores fullArray newArray !! i = Some x) ∧
  (∀ i x pre item post,
     fullArray !! i = Some x →
     (∀ j y, (j < i)%nat → fullArray !! j = Some y → src y ≠ src x) →
     newArray = pre ++ item :: post → src item = src x →
     (∀ y, y ∈ post → src y ≠ src x) →
     updateSizeScores fullArray newArray !! i =
       Some (setSizeScore (sizeScoreOf item) x)).
Proof.
  split; [apply updateSizeScores_unsized|]. split; [apply updateSizeScores_other|].
  intros i x pre item post Hi Hfirst -> Hitem Hpost.
  unfold updateSizeScores. rewrite foldl_app. cbn [foldl].
  fold (updateSizeScores fullArray pre).
  pose proof (updateSizeScores_unsized fullArray pre) as Hsame.
  assert (Hx1 : ∃ x1, updateSizeScores fullArray pre !! i = Some x1 ∧
                      unsized x1 = unsized x).
  { pose proof (f_equal (λ l, l !! i) Hsame) as Hl. simpl in Hl.
    rewrite !list_lookup_fmap, Hi in Hl.
    destruct (updateSizeScores fullArray pre !! i) as [x1|]; [|done].
    exists x1. split; [done|]. simpl in Hl. congruence. }
  destruct Hx1 as (x1 & Hx1 & Hux).
  assert (Hstep : updateOne (updateSizeScores fullArray pre) item !! i =
                  Some (setSizeScore (sizeScoreOf item) x1)).
  { apply updateOne_first; [done | by rewrite (unsized_src _ _ Hux) |].
    intros j y Hj Hy. rewrite (unsized_src _ _ Hux).
    pose proof (f_equal (λ l, l !! j) Hsame) as Hl. simpl in Hl.
    rewrite !list_lookup_fmap, Hy in Hl.
    destruct (fullArray !! j) as [y0|] eqn:Hy0; [|done].
    simpl in Hl. assert (Hyy : unsized y = unsized y0) by congruence.
    rewrite (unsized_src _ _ Hyy). by apply (Hfirst j). }
  rewrite (unsized_eq _ _ _ Hux) in Hstep.
  fold (updateSizeScores (updateOne (updateSizeScores fullArray pre) item) post).
  apply updateSizeScores_other; [done|].
  intros y Hy. by apply Hpost.
Qed.

End SizeScoresFacts.

Module DistinctFacts.
Import BestImage DedupFacts.

Lemma tableSet_fresh k v (obj : table) :
  k ∉ (fst <$> obj) → tableSet k v obj = obj ++ [(k, v)].
Proof.
  induction obj as [|[k' v'] obj IH]; [done|]. rewrite fmap_cons, not_elem_of_cons.
  intros [Hne Hk]. cbn [tableSet fst] in *. rewrite decide_False by done.
  by rewrite IH.
Qed.

Lemma fill_distinct arr :
  NoDup (srcKey <$> arr) → fill arr = (λ img, (srcKey img, img)) <$> arr.
Proof.
  unfold fill. induction arr as [|x arr IH] using rev_ind; [done|].
  rewrite fmap_app, NoDup_app. intros (Hnd & Hx & _).
  rewrite foldl_snoc, IH by done. rewrite fmap_app. simpl.
  apply tableSet_fresh. rewrite <- list_fmap_compose. simpl.
  intros Hin. apply (Hx (srcKey x)); [done|]. simpl. apply list_elem_of_here.
Qed.

Lemma indexed_none (obj : table) :
  Forall (λ kv, arrayIndex kv.1 = None) obj → indexed obj = [].
Proof.
  unfold indexed. induction 1 as [|kv obj Hkv Hobj IH]; [done|].
  cbn [omap list_omap]. by rewrite Hkv.
Qed.

Lemma named_all (obj : table) :
  Forall (λ kv, arrayIndex kv.1 = None) obj → named obj = obj.
Proof.
  unfold named. induction 1 as [|kv obj Hkv Hobj IH]; [done|].
  rewrite filter_cons, decide_True by done. by rewrite IH.
Qed.

Lemma forIn_named (obj : table) :
  Forall (λ kv, arrayIndex kv.1 = None) obj → forIn obj = obj.
Proof.
  intros Hobj. unfold forIn. by rewrite indexed_none, named_all.
Qed.

(** Addresses that do not read as array indices. *)
Definition named_addresses (arr : list image) : Prop :=
  Forall (λ img, arrayIndex (srcKey img) = None) arr.

(** X22.  On candidates whose addresses are all different,
    [deDupeImageArray] changes nothing: same candidates, same order.  So
    it can be applied again to its own output without effect.  (For
    addresses that do not read as array indices, which an object lists
    first, and other than the name that sets the prototype.) *)
Theorem deDupeImageArray_distinct_unchanged (arr : list image) :
  named_addresses arr →
  "__proto__" ∉ (srcKey <$> arr) →
  (NoDup (srcKey <$> arr) → deDupeImageArray arr = Some arr) ∧
  (∀ out, deDupeImageArray arr = Some out → deDupeImageArray out = Some out).
Proof.
  intros Hnamed Hproto.
  assert (Hfix : ∀ l, named_addresses l → "__proto__" ∉ (srcKey <$> l) →
            NoDup (srcKey <$> l) → deDupeImageArray l = Some l).
  { intros l Hl Hp Hnd. unfold deDupeImageArray.
    rewrite bool_decide_eq_false_2 by done. fold (fill l).
    rewrite fill_distinct by done. rewrite forIn_named.
    - rewrite <- list_fmap_compose. simpl. by rewrite list_fmap_id.
    - apply Forall_fmap. exact Hl. }
  split; [by apply Hfix|]. intros out Hout.
  unfold deDupeImageArray in Hout. rewrite bool_decide_eq_false_2 in Hout by done.
  fold (fill arr) in Hout. injection Hout as <-.
  assert (Hsub : ∀ c, c ∈ snd <$> forIn (fill arr) → c ∈ arr).
  { intros c ((k & v) & -> & Hin)%list_elem_of_fmap. simpl.
    rewrite forIn_perm in Hin.
    apply fill_elem in Hin as (_ & pre & post & -> & _).
    apply elem_of_app. right. apply list_elem_of_here. }
  apply Hfix.
  - apply Forall_forall. intros c Hc. unfold named_addresses in Hnamed.
    rewrite Forall_forall in Hnamed. by apply Hnamed, Hsub.
  - intros (c & Hkey & Hc)%list_elem_of_fmap. apply Hproto.
    apply list_elem_of_fmap. exists c. split; [done | by apply Hsub].
  - rewrite forIn_fill_keys, forIn_perm. apply fill_NoDup.
Qed.

(** A candidate that has only an address. *)
Definition located (u : string) : image :=
  Image ∅ false (Some u) None None None None None 0 0 0 0 0 0 None None.

Lemma deDupeImageArray_distinct_unchanged_witness :
  deDupeImageArray [located "http://a.com/b.png"; located "http://a.com/a.png"] =
    Some [located "http://a.com/b.png"; located "http://a.com/a.png"].
Proof.
  refine (proj1 (deDupeImageArray_distinct_unchanged
                   [located "http://a.com/b.png"; located "http://a.com/a.png"] _ _) _).
  - repeat constructor.
  - refine (bool_decide_unpack _ _). vm_compute. exact I.
  - apply NoDup_cons. split; [|apply NoDup_singleton].
    intros Hin%list_elem_of_singleton. discriminate Hin.
Defined.

End DistinctFacts.

Module ConfigObjectFacts.
Import ConfigObject.
Local Open Scope Q_scope.

Lemma read_default : readConfig DEFAULT_CONFIG_JSON = Some ImageScore.DEFAULT_CONFIG.
Proof. vm_compute. reflexivity. Qed.

Lemma lookupProp_None name props :
  lookupProp name props = None ↔ name ∉ (fst <$> props).
Proof.
  induction props as [|[n v] props IH]; simpl.
  - split; [intros _; apply not_elem_of_nil | done].
  - rewrite not_elem_of_cons. destruct (decide (name = n)) as [->|Hne].
    + split; [done | by intros [? _]].
    + rewrite IH. tauto.
Qed.

Lemma lookupProp_app_ne name props n v :
  name ≠ n → lookupProp name (props ++ [(n, v)]) = lookupProp name props.
Proof.
  intros Hne. induction props as [|[n' v'] props IH]; simpl.
  - by rewrite decide_False.
  - destruct (decide (name = n')); [done | exact IH].
Qed.

Lemma assign_fresh name v props :
  lookupProp name props = None → assign name v props = props ++ [(name, v)].
Proof.
  induction props as [|[n' v'] props IH]; simpl; [done|].
  destruct (decide (name = n')); [done|]. intros Hnone. by rewrite IH.
Qed.

(** The properties of [rprops] that [props] does not have. *)
Definition missingFrom (props rprops : list (string * json)) : list (string * json) :=
  filter (λ p, lookupProp p.1 props = None) rprops.

Lemma missingFrom_app props name v rprops :
  name ∉ (fst <$> rprops) →
  missingFrom (props ++ [(name, v)]) rprops = missingFrom props rprops.
Proof.
  unfold missingFrom. induction rprops as [|[n r] rprops IH]; [done|].
  rewrite fmap_cons, not_elem_of_cons. simpl. intros [Hne Hrest].
  rewrite !filter_cons. cbn [fst]. rewrite lookupProp_app_ne by done.
  by rewrite IH.
Qed.

Lemma eachName_overrides recurse props rprops :
  NoDup (fst <$> rprops) →
  (∀ name, name ∈ (fst <$> rprops) → name ∉ objectPrototypeKeys) →
  (∀ name rv v, (name, rv) ∈ rprops → lookupProp name props = Some v →
                v ≠ JNull ∧ isObjectType rv = false) →
  eachName recurse rprops (JObj props) = Done (JObj (props ++ missingFrom props rprops)).
Proof.
  revert props. induction rprops as [|[name rv] rprops IH]; intros props Hnd Hproto Hover.
  { unfold missingFrom. simpl. by rewrite app_nil_r. }
  rewrite fmap_cons in Hnd. apply NoDup_cons in Hnd as [Hname Hnd]. simpl in Hname.
  assert (Hproto' : ∀ n, n ∈ (fst <$> rprops) → n ∉ objectPrototypeKeys).
  { intros n Hn. apply Hproto. rewrite fmap_cons. by apply list_elem_of_further. }
  unfold missingFrom. rewrite filter_cons. cbn [eachName fst].
  unfold matchKey. cbn [getProp keyName].
  destruct (lookupProp name props) as [v|] eqn:Hlookup.
  - destruct (Hover name rv v) as [Hv Hrv]; [apply list_elem_of_here | done |].
    rewrite Hrv. assert (Hex : exists' (Value v) = true) by (by destruct v).
    rewrite Hex. rewrite decide_False by done.
    apply IH; [done | done |].
    intros n r w Hn. apply Hover. by apply list_elem_of_further.
  - rewrite bool_decide_eq_false_2
      by (apply Hproto; rewrite fmap_cons; apply list_elem_of_here).
    rewrite decide_True by done.
    assert (Hset : (if isObjectType rv
                    then setProp (JObj props) (Named name) (cpobj rv)
                    else if exists' Missing then Done (JObj props)
                         else setProp (JObj props) (Named name) rv) =
                   Done (JObj (props ++ [(name, rv)]))).
    { assert (Hname' : name ≠ "__proto__").
      { intros ->. apply (Hproto "__proto__"); [rewrite fmap_cons; apply list_elem_of_here|].
        refine (bool_decide_unpack _ _). vm_compute. exact I. }
      destruct (isObjectType rv); cbn [exists' setProp keyName];
        rewrite bool_decide_eq_false_2 by done; by rewrite assign_fresh. }
    rewrite Hset, IH; [| done | done |].
    + rewrite <- app_assoc. fold (missingFrom (props ++ [(name, rv)]) rprops).
      fold (missingFrom props rprops). by rewrite missingFrom_app.
    + intros n r w Hn. rewrite lookupProp_app_ne.
      * apply Hover. by apply list_elem_of_further.
      * intros ->. apply Hname. by apply (list_elem_of_fmap_2 fst) in Hn.
Qed.

(** X23.  [objKeyMatch] on two objects: what the given object holds
    stays, and each property of the reference object that it does not
    have is added after its own, with the value of the reference; an
    empty object becomes a copy of the reference.  (For a reference whose
    names are not inherited ones, and a given object whose values, where
    the reference has the name too, are neither [null] nor stand against
    an object or an array of the reference.) *)
Theorem objKeyMatch_overrides (props rprops : list (string * json)) :
  NoDup (fst <$> rprops) →
  (∀ name, name ∈ (fst <$> rprops) → name ∉ objectPrototypeKeys) →
  (∀ name rv v, (name, rv) ∈ rprops → lookupProp name props = Some v →
                v ≠ JNull ∧ isObjectType rv = false) →
  objKeyMatch (JObj props) (JObj rprops) =
    Done (JObj (props ++ missingFrom props rprops)) ∧
  objKeyMatch (JObj []) (JObj rprops) = Done (JObj rprops).
Proof.
  intros Hnd Hproto Hover. split; [by apply eachName_overrides|].
  cbn [objKeyMatch]. rewrite eachName_overrides; [|done..].
  unfold missingFrom. simpl. f_equal. f_equal.
  clear. induction rprops as [|p rprops IH]; [done|].
  rewrite filter_cons. simpl. by rewrite IH.
Qed.

(** *** Arrays *)

Lemma eachIndex_within recurse i items xs :
  (i + length items ≤ length xs)%nat →
  Forall (λ v, v ≠ JNull) xs →
  Forall (λ rv, isObjectType rv = false) items →
  eachIndex recurse i items (JArr xs) = Done (JArr xs).
Proof.
  intros Hlen Hxs Hitems. revert i Hlen.
  induction Hitems as [|rv items Hrv Hitems IH]; intros i Hlen; [done|].
  simpl in Hlen. cbn [eachIndex]. unfold matchKey. cbn [getProp keyIndex].
  destruct (xs !! i) as [v|] eqn:Hv.
  - rewrite Hrv. rewrite Forall_forall in Hxs.
    assert (v ≠ JNull) by (apply Hxs; by apply list_elem_of_lookup_2 in Hv).
    assert (Hex : exists' (Value v) = true) by (by destruct v).
    rewrite Hex. apply IH. lia.
  - apply lookup_ge_None in Hv. lia.
Qed.

Lemma eachIndex_beyond recurse items xs :
  Forall (λ rv, isObjectType rv = false) items →
  eachIndex recurse (length xs) items (JArr xs) = Done (JArr (xs ++ items)).
Proof.
  intros Hitems. revert xs.
  induction Hitems as [|rv items Hrv Hitems IH]; intros xs.
  { simpl. by rewrite app_nil_r. }
  cbn [eachIndex]. unfold matchKey. cbn [getProp keyIndex].
  rewrite (proj2 (lookup_ge_None xs (length xs))) by lia.
  rewrite Hrv. cbn [exists' setProp keyIndex].
  rewrite bool_decide_eq_false_2 by lia. rewrite bool_decide_eq_true_2 by done.
  replace (S (length xs)) with (length (xs ++ [rv])) by (rewrite length_app; simpl; lia).
  rewrite IH. by rewrite <- app_assoc.
Qed.

Lemma eachIndex_app recurse i a b obj :
  eachIndex recurse i (a ++ b) obj =
  match eachIndex recurse i a obj with
  | Done obj' => eachIndex recurse (i + length a) b obj'
  | Throws => Throws
  | Beyond => Beyond
  end.
Proof.
  revert i obj. induction a as [|rv a IH]; intros i obj.
  { simpl. by rewrite Nat.add_0_r. }
  cbn [app eachIndex]. destruct (matchKey _ _ _ _); [|done..].
  rewrite IH. simpl. by rewrite Nat.add_succ_r.
Qed.

(** X24.  [objKeyMatch] on two arrays of plain values goes by position:
    the given array keeps its items and, when it is the shorter one, is
    filled up with the items of the reference array from its own length
    on.  So a word list passed to [setConfig] replaces the first words
    of the default list and keeps the rest of it. *)
Theorem objKeyMatch_array_padding (xs ys : list json) :
  Forall (λ v, v ≠ JNull) xs →
  Forall (λ rv, isObjectType rv = false) ys →
  objKeyMatch (JArr xs) (JArr ys) = Done (JArr (xs ++ drop (length xs) ys)).
Proof.
  intros Hxs Hys. cbn [objKeyMatch].
  rewrite <- (take_drop (length xs) ys) at 1. rewrite eachIndex_app.
  rewrite eachIndex_within; [| |done|by apply Forall_take].
  2:{ rewrite length_take. simpl. lia. }
  destruct (decide (length xs ≤ length ys)%nat) as [Hle|Hgt].
  - rewrite length_take, Nat.min_l by done. simpl.
    apply eachIndex_beyond. by apply Forall_drop.
  - rewrite drop_ge by lia. simpl. by rewrite app_nil_r.
Qed.

(** *** [setConfig] *)

(** The properties of [DEFAULT_CONFIG], and the names among them whose
    value is an object or an array. *)
Definition defaultProps : list (string * json) :=
  match DEFAULT_CONFIG_JSON with
  | JObj props => props
  | _ => []
  end.

Definition nestedNames : list string :=
  ["docTitleFactors"; "queryFactors"; "size"; "goodWords"; "badWords"; "badFilenames"].

(** X25.  [setConfig] with an object that overrides plain entries of the
    table (the bonuses and penalties) installs these overrides and takes
    every other entry from the default table.  The table that was
    installed before plays no part: overrides of earlier calls are not
    kept. *)
Theorem setConfig_overrides (props : list (string * json)) (current : json) :
  (∀ name v, name ∈ (fst <$> defaultProps) → lookupProp name props = Some v →
             v ≠ JNull ∧ name ∉ nestedNames) →
  setConfig (JObj props) current =
    Done (JObj (props ++ missingFrom props defaultProps)).
Proof.
  intros Hprops. unfold setConfig. cbn [falsy].
  change (objKeyMatch (JObj props) DEFAULT_CONFIG_JSON)
    with (eachName objKeyMatch defaultProps (JObj props)).
  rewrite eachName_overrides; [done | | |].
  - refine (bool_decide_unpack _ _). vm_compute. exact I.
  - intros name Hname. refine (bool_decide_unpack _ _).
    repeat (apply elem_of_cons in Hname as [->|Hname]; [vm_compute; exact I|]).
    by apply elem_of_nil in Hname.
  - intros name rv v Hin Hlookup.
    destruct (Hprops name v) as [Hv Hnested]; [|done|].
    { apply list_elem_of_fmap. by exists (name, rv). }
    split; [done|].
    repeat (apply elem_of_cons in Hin as [[= -> ->]|Hin];
            [first [reflexivity
                   | exfalso; apply Hnested; refine (bool_decide_unpack _ _);
                     vm_compute; exact I]|]).
    by apply elem_of_nil in Hin.
Qed.

(** The overrides the tests install. *)
Definition testOverrides : json :=
  JObj [("isPNG", JNum 0.3); ("isGIF", JNum 0.4); ("isJPG", JNum 0.5)].

Lemma objKeyMatch_overrides_witness :
  objKeyMatch testOverrides DEFAULT_CONFIG_JSON =
    Done (JObj ([("isPNG", JNum 0.3); ("isGIF", JNum 0.4); ("isJPG", JNum 0.5)] ++
                missingFrom [("isPNG", JNum 0.3); ("isGIF", JNum 0.4); ("isJPG", JNum 0.5)]
                  [ ("isMeta", JNum 10); ("isSVG", JNum 0.5); ("isJPG", JNum 0.5);
                    ("isGIF", JNum 0.5); ("isPNG", JNum 0.5);
                    ("docTitleFactors",
                       JObj [("imgTitle", JNum 1); ("imgSrc", JNum 1); ("imgFname", JNum 1)]);
                    ("queryFactors",
                       JObj [("imgTitle", JNum 6); ("imgSrc", JNum 6); ("imgFname", JNum 6)]);
                    ("goodWordMatch", JNum 0.3); ("badWordMatch", JNum (-2));
                    ("badWordMatchFname", JNum (-2));
                    ("size",
                       JObj [("idealWidth", JNum 200); ("idealHeight", JNum 100);
                             ("ratioWeight", JNum 0.35); ("smallerWeight", JNum 7);
                             ("largerWeight", JNum 0.25)]);
                    ("goodWords", words ImageScore.defaultGoodWords);
                    ("badWords", words ImageScore.defaultBadWords);
                    ("badFilenames", words ImageScore.defaultBadFilenames) ])).
Proof.
  refine (proj1 (objKeyMatch_overrides _ _ _ _ _)).
  - refine (bool_decide_unpack _ _). vm_compute. exact I.
  - intros name Hname. refine (bool_decide_unpack _ _).
    repeat (apply elem_of_cons in Hname as [->|Hname]; [vm_compute; exact I|]).
    by apply elem_of_nil in Hname.
  - intros name rv v Hin.
    repeat (apply elem_of_cons in Hin as [[= -> ->]|Hin];
            [vm_compute; first [discriminate | by intros [= <-]]|]).
    by apply elem_of_nil in Hin.
Defined.

(** The table the tests install is the default table with the three
    extension bonuses replaced. *)
Lemma setConfig_test_table :
  ∀ current, (λ r, match r with Done c => readConfig c | _ => None end)
               (setConfig testOverrides current) = Some ImageScore.TEST_CONFIG.
Proof. intros current. vm_compute. reflexivity. Qed.

Lemma setConfig_overrides_witness :
  setConfig testOverrides JNull =
    Done (JObj ([("isPNG", JNum 0.3); ("isGIF", JNum 0.4); ("isJPG", JNum 0.5)] ++
                missingFrom [("isPNG", JNum 0.3); ("isGIF", JNum 0.4); ("isJPG", JNum 0.5)]
                  defaultProps)).
Proof.
  apply (setConfig_overrides
           [("isPNG", JNum 0.3); ("isGIF", JNum 0.4); ("isJPG", JNum 0.5)] JNull).
  intros name v _ Hlookup. cbn [lookupProp] in Hlookup.
  destruct (decide (name = "isPNG")) as [->|_].
  { split; [by injection Hlookup as <-|].
    refine (bool_decide_unpack _ _). vm_compute. exact I. }
  destruct (decide (name = "isGIF")) as [->|_].
  { split; [by injection Hlookup as <-|].
    refine (bool_decide_unpack _ _). vm_compute. exact I. }
  destruct (decide (name = "isJPG")) as [->|_]; [|discriminate Hlookup].
  split; [by injection Hlookup as <-|].
  refine (bool_decide_unpack _ _). vm_compute. exact I.
Defined.

(** A word list that is shorter than the default one is filled up from
    the default one. *)
Lemma setConfig_word_list (current : json) :
  match setConfig (JObj [("goodWords", words ["hero"])]) current with
  | Done table => ImageScore.Config.goodWords <$> readConfig table
  | _ => None
  end = Some ["hero"; "main"].
Proof. vm_compute. reflexivity. Qed.

Lemma objKeyMatch_array_padding_witness :
  objKeyMatch (words ["hero"]) (words ImageScore.defaultGoodWords) =
    Done (words ["hero"; "main"]).
Proof.
  apply (objKeyMatch_array_padding [JStr "hero"] [JStr "logo"; JStr "main"]).
  - repeat constructor; discriminate.
  - repeat constructor.
Defined.

End ConfigObjectFacts.
